(** * Contact-sheet generator: sampling, fitting and compositing

    A shallow embedding of [main.go].  Go's [int] is a 64-bit two's
    complement integer, modelled as [Z] with the wrap-around written out;
    [float64] is the kernel's binary64 type [float], whose operations are the
    IEEE 754 ones with round-to-nearest-even; strings are byte strings. *)

From Stdlib Require Import ZArith Floats Lia Ascii String Reals Lra.
From stdpp Require Import base option list strings gmap.

Local Open Scope Z_scope.

(** ** Go's [int] *)

Module GoInt.

Definition min_int : Z := - 2 ^ 63.
Definition max_int : Z := 2 ^ 63 - 1.

Definition in_range (z : Z) : Prop := min_int <= z <= max_int.

(** Two's complement wrap-around of an exact result. *)
Definition wrap (z : Z) : Z := (z + 2 ^ 63) mod 2 ^ 64 - 2 ^ 63.

Definition add (a b : Z) : Z := wrap (a + b).
Definition sub (a b : Z) : Z := wrap (a - b).
Definition mul (a b : Z) : Z := wrap (a * b).

(** [a / b] truncates toward zero and panics on a zero divisor. *)
Definition quo (a b : Z) : option Z :=
  if b =? 0 then None else Some (wrap (Z.quot a b)).

(** [a % b] has the sign of the dividend and panics on a zero divisor. *)
Definition rem (a b : Z) : option Z :=
  if b =? 0 then None else Some (Z.rem a b).

End GoInt.

(** ** Go's [float64] and the [math] functions the program calls *)

Module F64.

(** [float64(z)] for an [int] [z]: the nearest binary64, ties to even. *)
Definition of_int (z : Z) : float :=
  SF2Prim (binary_normalize prec emax z 0 false).

(** [int(f)]: the fractional part is discarded.  A value outside the range
    of [int], an infinity or a NaN yields the most negative [int], as the
    amd64 conversion instruction does. *)
Definition to_int (f : float) : Z :=
  match Prim2SF f with
  | S754_zero _ => 0
  | S754_finite s m e =>
      let a := if 0 <=? e then Z.pos m * 2 ^ e else Z.pos m / 2 ^ (- e) in
      let v := if s then - a else a in
      if (GoInt.min_int <=? v) && (v <=? GoInt.max_int) then v
      else GoInt.min_int
  | _ => GoInt.min_int
  end.

Definition MaxFloat64 : float := 0x1.fffffffffffffp+1023%float.

(** [math.IsNaN]. *)
Definition IsNaN (f : float) : bool := negb (f =? f)%float.

(** [math.IsInf]. *)
Definition IsInf (f : float) (sign : Z) : bool :=
  (sign >=? 0) && (MaxFloat64 <? f)%float
  || (sign <=? 0) && (f <? - MaxFloat64)%float.

(** [math.Signbit]. *)
Definition Signbit (f : float) : bool :=
  match Prim2SF f with
  | S754_zero s | S754_infinity s | S754_finite s _ _ => s
  | S754_nan => false
  end.

(** [math.Min]. *)
Definition Min (x y : float) : float :=
  if IsInf x (-1) || IsInf y (-1) then neg_infinity
  else if IsNaN x || IsNaN y then nan
  else if (x =? 0)%float && (x =? y)%float then
    if Signbit x then x else y
  else if (x <? y)%float then x else y.

(** [math.Round]: the nearest integer, halves away from zero; zeros,
    infinities and NaN are returned unchanged. *)
Definition Round (x : float) : float :=
  match Prim2SF x with
  | S754_finite s m e =>
      if 0 <=? e then x
      else
        let d := 2 ^ (- e) in
        let q := Z.pos m / d in
        let r := Z.pos m mod d in
        let n := if d <=? 2 * r then q + 1 else q in
        SF2Prim (binary_normalize prec emax (if s then - n else n) 0 s)
  | _ => x
  end.

End F64.

(** ** The real value of a [float64]

    Used only to state and prove rounding properties: [B2R f] is the real
    number a finite float denotes, and [normal f m e] says that [f] is the
    positive float [m * 2^e] with a full 53-bit mantissa. *)

Definition bpow (e : Z) : R := powerRZ 2 e.

Definition SF2R (x : spec_float) : R :=
  match x with
  | S754_finite s m e =>
      ((if s then -1 else 1) * IZR (Z.pos m) * bpow e)%R
  | _ => 0%R
  end.

Definition B2R (f : float) : R := SF2R (Prim2SF f).

Definition normal (f : float) (m : positive) (e : Z) : Prop :=
  Prim2SF f = S754_finite false m e /\ Z.pos (digits2_pos m) = 53.

(** [inbetween m l x]: the real [x] lies in [[m, m+1)] at the position the
    rounding location [l] records. *)
Definition inbetween (m : Z) (l : location) (x : R) : Prop :=
  match l with
  | loc_Exact => x = IZR m
  | loc_Inexact Lt => (IZR m < x < IZR m + 1 / 2)%R
  | loc_Inexact Eq => x = (IZR m + 1 / 2)%R
  | loc_Inexact Gt => (IZR m + 1 / 2 < x < IZR m + 1)%R
  end.

(** [ordinary f]: [f] is [+0] or a finite float of either sign with a full
    53-bit mantissa. *)
Definition ordinary (f : float) : Prop :=
  match Prim2SF f with
  | S754_zero s => s = false
  | S754_finite _ m _ => Z.pos (digits2_pos m) = 53
  | _ => False
  end.

(** The durations the ordering theorem covers: 2^-900 to 2^900 seconds. *)
Definition minDuration : float := 0x1p-900%float.
Definition maxDuration : float := 0x1p+900%float.

(** ** Timestamp sampler *)

(** The body of the [for] loop of [sampleTimestamps], with [i] the loop
    counter; [fuel] bounds the number of iterations still to run. *)
Fixpoint sampleLoop (interval : float) (count : Z) (fuel : nat) (i : Z)
    (timestamps : list float) : list float :=
  match fuel with
  | O => timestamps
  | S fuel' =>
      if i <? count then
        sampleLoop interval count fuel' (GoInt.add i 1)
          (<[Z.to_nat i := (interval * F64.of_int (GoInt.add i 1))%float]>
             timestamps)
      else timestamps
  end.

Definition sampleTimestamps (duration : float) (count : Z) : list float :=
  if count <=? 0 then []
  else if count =? 1 then [(duration / 2)%float]
  else
    let timestamps := replicate (Z.to_nat count) 0%float in
    let interval := (duration / F64.of_int (GoInt.add count 1))%float in
    sampleLoop interval count (Z.to_nat count) 0 timestamps.

(** ** Cell-height inference *)

Definition inferCellHeight (cellWidth videoWidth videoHeight : Z) : Z :=
  if (videoWidth <=? 0) || (videoHeight <=? 0) then
    F64.to_int (F64.of_int cellWidth * 9 / 16)%float
  else
    let ratio := (F64.of_int videoHeight / F64.of_int videoWidth)%float in
    let height := F64.to_int (F64.Round (F64.of_int cellWidth * ratio)%float) in
    if height <=? 0 then F64.to_int (F64.of_int cellWidth * 9 / 16)%float
    else height.

(** *** Spacing and rounding, as the specification words them *)

(** The adjacent difference [t[k+1] - t[k]] as Go computes it. *)
Definition spacing (ts : list float) (k : nat) : option float :=
  match ts !! k, ts !! S k with
  | Some a, Some b => Some (b - a)%float
  | _, _ => None
  end.

(** The nearest integer to [n / d], halves away from zero, for [n >= 0] and
    [d > 0]: the rounding the specification names. *)
Definition roundDiv (n d : Z) : Z := (2 * n + d) / (2 * d).

(** ** The [image], [image/color] and [image/draw] packages

    Only what the program uses: rectangles, RGBA bitmaps, and [draw.Draw] with
    a uniform or an RGBA source.  Coordinates inside the library are exact
    integers; the program's own arithmetic wraps. *)

Module color.

(** [color.RGBA]: four [uint8] channels. *)
Record RGBA : Type := mkRGBA { R : Z; G : Z; B : Z; A : Z }.

Definition zero : RGBA := mkRGBA 0 0 0 0.

End color.

Module image.

Record Point : Type := mkPoint { X : Z; Y : Z }.

Record Rectangle : Type := mkRectangle { Min : Point; Max : Point }.

Definition ZR : Rectangle := mkRectangle (mkPoint 0 0) (mkPoint 0 0).

(** [image.Rect]: the corners are put in order. *)
Definition Rect (x0 y0 x1 y1 : Z) : Rectangle :=
  let '(x0, x1) := if x1 <? x0 then (x1, x0) else (x0, x1) in
  let '(y0, y1) := if y1 <? y0 then (y1, y0) else (y0, y1) in
  mkRectangle (mkPoint x0 y0) (mkPoint x1 y1).

Definition Dx (r : Rectangle) : Z := GoInt.sub (X (Max r)) (X (Min r)).
Definition Dy (r : Rectangle) : Z := GoInt.sub (Y (Max r)) (Y (Min r)).

Definition Empty (r : Rectangle) : bool :=
  (X (Max r) <=? X (Min r)) || (Y (Max r) <=? Y (Min r)).

Definition In (x y : Z) (r : Rectangle) : bool :=
  (X (Min r) <=? x) && (x <? X (Max r)) && (Y (Min r) <=? y) && (y <? Y (Max r)).

Definition Intersect (r s : Rectangle) : Rectangle :=
  let r' :=
    mkRectangle
      (mkPoint (Z.max (X (Min r)) (X (Min s))) (Z.max (Y (Min r)) (Y (Min s))))
      (mkPoint (Z.min (X (Max r)) (X (Max s))) (Z.min (Y (Max r)) (Y (Max s))))
  in
  if Empty r' then ZR else r'.

(** [r.Add(p)]. *)
Definition Add (r : Rectangle) (dx dy : Z) : Rectangle :=
  mkRectangle (mkPoint (X (Min r) + dx) (Y (Min r) + dy))
              (mkPoint (X (Max r) + dx) (Y (Max r) + dy)).

(** An [*image.RGBA]: its bounds and the colour stored at each point. *)
Record RGBA : Type := mkRGBA { Pix : Z -> Z -> color.RGBA; Bounds : Rectangle }.

(** The [At] method: the zero colour outside the bounds. *)
Definition At (p : RGBA) (x y : Z) : color.RGBA :=
  if In x y (Bounds p) then Pix p x y else color.zero.

(** The overflow-checked product of [pixelBufferLength]. *)
Definition mul3NonNeg (x y z : Z) : Z :=
  if (x <? 0) || (y <? 0) || (z <? 0) then -1
  else if 2 ^ 64 <=? x * y then -1
  else if 2 ^ 63 <=? x * y * z then -1
  else x * y * z.

(** [image.NewRGBA]: a transparent black bitmap; panics when the pixel buffer
    length does not fit an [int]. *)
Definition NewRGBA (r : Rectangle) : option RGBA :=
  if mul3NonNeg 4 (Dx r) (Dy r) <? 0 then None
  else Some (mkRGBA (fun _ _ => color.zero) r).

End image.

Module draw.

Inductive Op : Type := Over | Src.

(** The sources the program draws from. *)
Inductive Source : Type :=
| Uniform (c : color.RGBA)
| Bitmap (b : image.RGBA).

Definition SourceBounds (s : Source) : image.Rectangle :=
  match s with
  | Uniform _ =>
      image.mkRectangle (image.mkPoint (-1000000000) (-1000000000))
                        (image.mkPoint 1000000000 1000000000)
  | Bitmap b => image.Bounds b
  end.

Definition SourceAt (s : Source) (x y : Z) : color.RGBA :=
  match s with
  | Uniform c => c
  | Bitmap b => image.At b x y
  end.

(** One channel of [drawCopyOver]: 8-bit channels widened to 16 bits,
    blended with the source alpha [sa], and narrowed to [uint8]. *)
Definition overChannel (d s sa : Z) : Z :=
  let m := 65535 in
  let a := (m - sa * 257) * 257 in
  ((d * a / m + s * 257) / 256) mod 256.

Definition compose (op : Op) (d s : color.RGBA) : color.RGBA :=
  match op with
  | Src => s
  | Over =>
      color.mkRGBA (overChannel (color.R d) (color.R s) (color.A s))
                   (overChannel (color.G d) (color.G s) (color.A s))
                   (overChannel (color.B d) (color.B s) (color.A s))
                   (overChannel (color.A d) (color.A s) (color.A s))
  end.

(** The rectangle [draw.Draw] really touches: [r] clipped to the destination
    and to the source aligned at [sp]. *)
Definition clip (dst : image.RGBA) (r : image.Rectangle) (src : Source)
    (sp : image.Point) : image.Rectangle :=
  let orig := image.Min r in
  image.Intersect
    (image.Intersect r (image.Bounds dst))
    (image.Add (SourceBounds src)
       (image.X orig - image.X sp) (image.Y orig - image.Y sp)).

(** [draw.Draw dst r src sp op]: [r.Min] in [dst] is aligned with [sp] in
    [src] and every point of the clipped rectangle is composed. *)
Definition Draw (dst : image.RGBA) (r : image.Rectangle) (src : Source)
    (sp : image.Point) (op : Op) : image.RGBA :=
  let orig := image.Min r in
  let r' := clip dst r src sp in
  if image.Empty r' then dst
  else
    image.mkRGBA
      (fun x y =>
         if image.In x y r' then
           compose op (image.Pix dst x y)
             (SourceAt src (x - image.X orig + image.X sp)
                           (y - image.Y orig + image.Y sp))
         else image.Pix dst x y)
      (image.Bounds dst).

End draw.

(** ** Frame fitter *)

(** The size [scaleToFit] computes for a [width] by [height] bitmap. *)
Definition fitSize (width height maxWidth maxHeight : Z) : Z * Z :=
  let scale :=
    F64.Min (F64.of_int maxWidth / F64.of_int width)
            (F64.of_int maxHeight / F64.of_int height) in
  let scale :=
    if (scale <=? 0)%float || F64.IsInf scale 0 || F64.IsNaN scale then 1%float
    else scale in
  let newWidth := F64.to_int (F64.Round (F64.of_int width * scale)) in
  let newHeight := F64.to_int (F64.Round (F64.of_int height * scale)) in
  let newWidth := if newWidth <=? 0 then 1 else newWidth in
  let newHeight := if newHeight <=? 0 then 1 else newHeight in
  (newWidth, newHeight).

Section Resample.

(** The interpolation kernel of [xdraw.ApproxBiLinear]: the colour given to
    destination point [(x, y)] when rectangle [sr] of [src] is scaled onto
    [dr]. *)
Variable approxBiLinear :
  image.RGBA -> image.Rectangle -> image.Rectangle -> Z -> Z -> color.RGBA.

(** [ApproxBiLinear.Scale] without options: the affected pixels are those of
    [dr] inside the destination, and nothing is drawn when they or the source
    rectangle are empty. *)
Definition Scale (dst : image.RGBA) (dr : image.Rectangle) (src : image.RGBA)
    (sr : image.Rectangle) (op : draw.Op) : image.RGBA :=
  let adr := image.Intersect (image.Bounds dst) dr in
  if image.Empty adr || image.Empty sr then dst
  else
    image.mkRGBA
      (fun x y =>
         if image.In x y adr then
           draw.compose op (image.Pix dst x y) (approxBiLinear src sr dr x y)
         else image.Pix dst x y)
      (image.Bounds dst).

Definition scaleToFit (img : image.RGBA) (maxWidth maxHeight : Z)
    : option image.RGBA :=
  let bounds := image.Bounds img in
  let width := image.Dx bounds in
  let height := image.Dy bounds in
  let '(newWidth, newHeight) := fitSize width height maxWidth maxHeight in
  dst ← image.NewRGBA (image.Rect 0 0 newWidth newHeight);
  Some (Scale dst (image.Bounds dst) img bounds draw.Over).

End Resample.

(** ** Configuration *)

Record gridConfig : Type := mkGridConfig {
  input : string;
  output : string;
  rows : Z;
  cols : Z;
  cellWidth : Z;
  cellHeight : Z;
  margin : Z;
  jpegQuality : Z;
  background : color.RGBA
}.

(** ** Strings

    A Go string is a sequence of bytes; [len] and slicing count bytes. *)

Module strings.

Definition byte (c : ascii) : Z := Z.of_N (N_of_ascii c).

Definition ofBytes (l : list Z) : list ascii :=
  (fun z => ascii_of_N (Z.to_N z)) <$> l.

(** The UTF-8 encodings of the runes [unicode.IsSpace] accepts: tab to
    carriage return, space, U+0085, U+00A0, U+1680, U+2000 to U+200A,
    U+2028, U+2029, U+202F, U+205F and U+3000. *)
Definition spaceRunes : list (list ascii) :=
  ofBytes <$>
    [ [9]; [10]; [11]; [12]; [13]; [32]; [194; 133]; [194; 160];
      [225; 154; 128];
      [226; 128; 128]; [226; 128; 129]; [226; 128; 130]; [226; 128; 131];
      [226; 128; 132]; [226; 128; 133]; [226; 128; 134]; [226; 128; 135];
      [226; 128; 136]; [226; 128; 137]; [226; 128; 138];
      [226; 128; 168]; [226; 128; 169]; [226; 128; 175]; [226; 129; 159];
      [227; 128; 128] ].

(** [stripPrefix p s] is the rest of [s] after its prefix [p], if any. *)
Fixpoint stripPrefix (p s : list ascii) : option (list ascii) :=
  match p, s with
  | [], _ => Some s
  | a :: p', b :: s' => if Ascii.eqb a b then stripPrefix p' s' else None
  | _ :: _, [] => None
  end.

Fixpoint stripAny (ps : list (list ascii)) (s : list ascii)
    : option (list ascii) :=
  match ps with
  | [] => None
  | p :: ps' =>
      match stripPrefix p s with
      | Some r => Some r
      | None => stripAny ps' s
      end
  end.

(** Drop leading runes of [ps], one per unit of [fuel]. *)
Fixpoint trimLeft (fuel : nat) (ps : list (list ascii)) (s : list ascii)
    : list ascii :=
  match fuel with
  | O => s
  | S fuel' =>
      match stripAny ps s with
      | Some r => trimLeft fuel' ps r
      | None => s
      end
  end.

(** [strings.TrimSpace]: leading, then trailing white space is removed.  A
    rune is trailing exactly when the string ends with its encoding. *)
Definition TrimSpace (s : string) : string :=
  let l := list_ascii_of_string s in
  let l := trimLeft (length l) spaceRunes l in
  string_of_list_ascii
    (reverse (trimLeft (length l) (reverse <$> spaceRunes) (reverse l))).

(** [strings.TrimPrefix]. *)
Definition TrimPrefix (s prefix : string) : string :=
  match stripPrefix (list_ascii_of_string prefix) (list_ascii_of_string s) with
  | Some r => string_of_list_ascii r
  | None => s
  end.

Definition lowerByte (c : ascii) : ascii :=
  if (65 <=? byte c) && (byte c <=? 90) then ascii_of_N (Z.to_N (byte c + 32))
  else c.

(** [strings.ToLower] on the ASCII letters; other bytes are kept.  Go maps
    the runes outside ASCII through the Unicode tables, and none of them
    lowers to a letter of the extensions compared below (only U+212A and
    U+0130 lower into ASCII, to [k] and [i]): the branch [saveImage] takes is
    the program's for every path, and only the text of the unsupported-format
    error can differ, for an extension with letters outside ASCII. *)
Fixpoint ToLower (s : string) : string :=
  match s with
  | EmptyString => EmptyString
  | String c s' => String (lowerByte c) (ToLower s')
  end.

(** The field collected so far, if any; it is kept reversed. *)
Definition flush (cur : list ascii) : list (list ascii) :=
  match cur with
  | [] => []
  | _ => [reverse cur]
  end.

(** The scan of [Fields]: a white-space rune ends the current field. *)
Fixpoint fieldsLoop (fuel : nat) (s cur : list ascii) : list (list ascii) :=
  match fuel with
  | O => []
  | S fuel' =>
      match s with
      | [] => flush cur
      | c :: rest =>
          match stripAny spaceRunes s with
          | Some r => flush cur ++ fieldsLoop fuel' r []
          | None => fieldsLoop fuel' rest (c :: cur)
          end
      end
  end.

(** [strings.Fields]: the maximal runs of bytes between white-space runes;
    empty when there is none. *)
Definition Fields (s : string) : list string :=
  string_of_list_ascii
    <$> fieldsLoop (S (String.length s)) (list_ascii_of_string s) [].

(** The scan of [Split]: the leftmost occurrence of [sep] ends a piece. *)
Fixpoint splitLoop (fuel : nat) (sep s cur : list ascii)
    : list (list ascii) :=
  match fuel with
  | O => []
  | S fuel' =>
      match s with
      | [] => [reverse cur]
      | c :: rest =>
          match stripPrefix sep s with
          | Some r => reverse cur :: splitLoop fuel' sep r []
          | None => splitLoop fuel' sep rest (c :: cur)
          end
      end
  end.

(** [strings.Split s sep] for a non-empty [sep], which is how the program
    calls it: the pieces of [s] between the occurrences of [sep], one more
    than there are occurrences. *)
Definition Split (s sep : string) : list string :=
  string_of_list_ascii
    <$> splitLoop (S (String.length s)) (list_ascii_of_string sep)
          (list_ascii_of_string s) [].

End strings.

Module strconv.

Inductive NumError : Type := ErrSyntax | ErrRange.

(** [lower(c)] of [strconv]: [c | ('x' - 'X')]. *)
Definition lower (c : Z) : Z := Z.lor c 32.

Definition digit (c : Z) : option Z :=
  if (48 <=? c) && (c <=? 57) then Some (c - 48)
  else if (97 <=? lower c) && (lower c <=? 122) then Some (lower c - 97 + 10)
  else None.

(** The digit loop of [ParseUint]; [n] is a [uint64]. *)
Fixpoint parseDigits (base cutoff maxVal : Z) (s : string) (n : Z)
    : Z + NumError :=
  match s with
  | EmptyString => inl n
  | String c rest =>
      match digit (strings.byte c) with
      | None => inr ErrSyntax
      | Some d =>
          if base <=? d then inr ErrSyntax
          else if cutoff <=? n then inr ErrRange
          else
            let n := (n * base) mod 2 ^ 64 in
            let n1 := (n + d) mod 2 ^ 64 in
            if (n1 <? n) || (maxVal <? n1) then inr ErrRange
            else parseDigits base cutoff maxVal rest n1
      end
  end.

(** [strconv.ParseUint s base bitSize] for an explicit base between 2 and 36
    and a bit size between 1 and 64, which is how the program calls it. *)
Definition ParseUint (s : string) (base bitSize : Z) : Z + NumError :=
  if String.eqb s "" then inr ErrSyntax
  else
    parseDigits base ((2 ^ 64 - 1) / base + 1) (2 ^ bitSize - 1) s 0.

Definition isSign (c : ascii) : bool := Ascii.eqb c "+" || Ascii.eqb c "-".

(** [strconv.ParseInt s base bitSize], same bases and bit sizes: the sign is
    picked off, the rest goes through [ParseUint], and the range of a signed
    integer is checked.  A range error of [ParseUint] comes with the largest
    unsigned value and so fails that check as well. *)
Definition ParseInt (s : string) (base bitSize : Z) : Z + NumError :=
  match s with
  | EmptyString => inr ErrSyntax
  | String c rest =>
      let neg := Ascii.eqb c "-" in
      let body := if isSign c then rest else s in
      match ParseUint body base bitSize with
      | inr e => inr e
      | inl un =>
          let cutoff := 2 ^ (bitSize - 1) in
          if negb neg && (cutoff <=? un) then inr ErrRange
          else if neg && (cutoff <? un) then inr ErrRange
          else inl (if neg then - un else un)
      end
  end.

(** The digit loop of the fast path of [Atoi]; [ch -= '0'] is a byte
    subtraction. *)
Fixpoint atoiLoop (s : string) (n : Z) : option Z :=
  match s with
  | EmptyString => Some n
  | String c rest =>
      let ch := (strings.byte c - 48) mod 256 in
      if 9 <? ch then None
      else atoiLoop rest (GoInt.add (GoInt.mul n 10) ch)
  end.

(** [strconv.Atoi] on a 64-bit platform: strings of 1 to 18 bytes take the
    fast path, all others go through [ParseInt]. *)
Definition Atoi (s : string) : Z + NumError :=
  let sLen := Z.of_nat (String.length s) in
  if (0 <? sLen) && (sLen <? 19) then
    match s with
    | EmptyString => inr ErrSyntax
    | String c rest =>
        let body := if isSign c then rest else s in
        if (String.length body <? 1)%nat then inr ErrSyntax
        else
          match atoiLoop body 0 with
          | None => inr ErrSyntax
          | Some n => inl (if Ascii.eqb c "-" then GoInt.sub 0 n else n)
          end
    end
  else ParseInt s 10 64.

End strconv.

(** ** Errors *)

Inductive error : Type :=
| ErrInputRequired
| ErrRowsCols
| ErrCellWidth
| ErrMargin
| ErrQuality
| ErrParseColor (e : strconv.NumError)
| ErrColorFormat (value : string)
| ErrUnsupportedFormat (ext : string)
| ErrOutputDir (path : string)
| ErrCreateFile (path : string)
| ErrEncode.

(** ** Colour parser *)

Definition uint8 (z : Z) : Z := z mod 256.

Definition parseHexColor (value : string) : color.RGBA + error :=
  let hex := strings.TrimPrefix (strings.TrimSpace value) "#" in
  match String.length hex with
  | 6%nat =>
      match strconv.ParseUint (substring 0 2 hex) 16 8 with
      | inr e => inr (ErrParseColor e)
      | inl r =>
      match strconv.ParseUint (substring 2 2 hex) 16 8 with
      | inr e => inr (ErrParseColor e)
      | inl g =>
      match strconv.ParseUint (substring 4 2 hex) 16 8 with
      | inr e => inr (ErrParseColor e)
      | inl b => inl (color.mkRGBA (uint8 r) (uint8 g) (uint8 b) 255)
      end end end
  | 8%nat =>
      match strconv.ParseUint (substring 0 2 hex) 16 8 with
      | inr e => inr (ErrParseColor e)
      | inl r =>
      match strconv.ParseUint (substring 2 2 hex) 16 8 with
      | inr e => inr (ErrParseColor e)
      | inl g =>
      match strconv.ParseUint (substring 4 2 hex) 16 8 with
      | inr e => inr (ErrParseColor e)
      | inl b =>
      match strconv.ParseUint (substring 6 2 hex) 16 8 with
      | inr e => inr (ErrParseColor e)
      | inl a => inl (color.mkRGBA (uint8 r) (uint8 g) (uint8 b) (uint8 a))
      end end end end
  | _ => inr (ErrColorFormat value)
  end.

(** *** The accepted colours, as the specification words them *)

Definition isHexDigit (c : ascii) : bool :=
  let b := strings.byte c in
  (48 <=? b) && (b <=? 57) || (65 <=? b) && (b <=? 70)
  || (97 <=? b) && (b <=? 102).

Definition hexDigitValue (c : ascii) : Z :=
  let b := strings.byte c in
  if b <=? 57 then b - 48 else if b <=? 70 then b - 55 else b - 87.

Definition hexPair (hi lo : ascii) : Z :=
  16 * hexDigitValue hi + hexDigitValue lo.

(** The colour a string of hex digits denotes, when it has 6 or 8 of them. *)
Definition hexColor (digits : list ascii) : option color.RGBA :=
  if forallb isHexDigit digits then
    match digits with
    | [r1; r2; g1; g2; b1; b2] =>
        Some (color.mkRGBA (hexPair r1 r2) (hexPair g1 g2) (hexPair b1 b2) 255)
    | [r1; r2; g1; g2; b1; b2; a1; a2] =>
        Some (color.mkRGBA (hexPair r1 r2) (hexPair g1 g2) (hexPair b1 b2)
                (hexPair a1 a2))
    | _ => None
    end
  else None.

(** The specification's reading: an optional leading [#] is removed and the
    remainder must be 6 or 8 hex digits. *)
Definition specColor (value : string) : option color.RGBA :=
  hexColor (list_ascii_of_string (strings.TrimPrefix value "#")).

(** ** Flag validation

    [flagValues] holds what the [flag] package stored after [flag.Parse]. *)

Record flagValues : Type := mkFlagValues {
  flagInput : string;
  flagOutput : string;
  flagRows : Z;
  flagCols : Z;
  flagCellWidth : Z;
  flagCellHeight : Z;
  flagMargin : Z;
  flagQuality : Z;
  flagBackground : string
}.

Definition flagDefaults : flagValues :=
  mkFlagValues "" "preview.png" 3 3 320 0 8 90 "#FFFFFF".

Definition parseFlags (fl : flagValues) : gridConfig + error :=
  if String.eqb (flagInput fl) "" then inr ErrInputRequired
  else if (flagRows fl <=? 0) || (flagCols fl <=? 0) then inr ErrRowsCols
  else if flagCellWidth fl <=? 0 then inr ErrCellWidth
  else if flagMargin fl <? 0 then inr ErrMargin
  else if (flagQuality fl <? 1) || (100 <? flagQuality fl) then inr ErrQuality
  else
    match parseHexColor (flagBackground fl) with
    | inr e => inr e
    | inl colorValue =>
        inl (mkGridConfig (flagInput fl) (flagOutput fl) (flagRows fl)
               (flagCols fl) (flagCellWidth fl) (flagCellHeight fl)
               (flagMargin fl) (flagQuality fl) colorValue)
    end.

(** ** Grid compositor *)

(** The [for idx, frame := range frames] loop of [composeGrid]; a [nil] frame
    is [None].  The result is [None] when the loop panics (a zero [cols]). *)
Fixpoint composeLoop (cfg : gridConfig) (frames : list (option image.RGBA))
    (idx : Z) (canvas : image.RGBA) : option image.RGBA :=
  match frames with
  | [] => Some canvas
  | None :: rest => composeLoop cfg rest (idx + 1) canvas
  | Some frame :: rest =>
      row ← GoInt.quo idx (cols cfg);
      col ← GoInt.rem idx (cols cfg);
      let cellX :=
        GoInt.add (margin cfg)
          (GoInt.mul col (GoInt.add (cellWidth cfg) (margin cfg))) in
      let cellY :=
        GoInt.add (margin cfg)
          (GoInt.mul row (GoInt.add (cellHeight cfg) (margin cfg))) in
      let frameBounds := image.Bounds frame in
      dx ← GoInt.quo (GoInt.sub (cellWidth cfg) (image.Dx frameBounds)) 2;
      dy ← GoInt.quo (GoInt.sub (cellHeight cfg) (image.Dy frameBounds)) 2;
      let offsetX := GoInt.add cellX dx in
      let offsetY := GoInt.add cellY dy in
      composeLoop cfg rest (idx + 1)
        (draw.Draw canvas
           (image.Rect offsetX offsetY
              (GoInt.add offsetX (image.Dx frameBounds))
              (GoInt.add offsetY (image.Dy frameBounds)))
           (draw.Bitmap frame) (image.Min frameBounds) draw.Over)
  end.

Definition composeGrid (frames : list (option image.RGBA)) (cfg : gridConfig)
    : option image.RGBA :=
  let totalWidth :=
    GoInt.add (GoInt.mul (cols cfg) (cellWidth cfg))
              (GoInt.mul (GoInt.add (cols cfg) 1) (margin cfg)) in
  let totalHeight :=
    GoInt.add (GoInt.mul (rows cfg) (cellHeight cfg))
              (GoInt.mul (GoInt.add (rows cfg) 1) (margin cfg)) in
  canvas ← image.NewRGBA (image.Rect 0 0 totalWidth totalHeight);
  composeLoop cfg frames 0
    (draw.Draw canvas (image.Bounds canvas) (draw.Uniform (background cfg))
       (image.mkPoint 0 0) draw.Src).

(** *** The layout, as the specification words it

    These follow the specification's formulas over exact integers, with
    truncating division, and are compared with [composeGrid] below. *)

Definition frameWidth (f : image.RGBA) : Z :=
  image.X (image.Max (image.Bounds f)) - image.X (image.Min (image.Bounds f)).

Definition frameHeight (f : image.RGBA) : Z :=
  image.Y (image.Max (image.Bounds f)) - image.Y (image.Min (image.Bounds f)).

Definition canvasWidth (cfg : gridConfig) : Z :=
  cols cfg * cellWidth cfg + (cols cfg + 1) * margin cfg.

Definition canvasHeight (cfg : gridConfig) : Z :=
  rows cfg * cellHeight cfg + (rows cfg + 1) * margin cfg.

Definition cellX (cfg : gridConfig) (i : Z) : Z :=
  margin cfg + Z.rem i (cols cfg) * (cellWidth cfg + margin cfg).

Definition cellY (cfg : gridConfig) (i : Z) : Z :=
  margin cfg + Z.quot i (cols cfg) * (cellHeight cfg + margin cfg).

Definition cellRect (cfg : gridConfig) (i : Z) : image.Rectangle :=
  image.mkRectangle
    (image.mkPoint (cellX cfg i) (cellY cfg i))
    (image.mkPoint (cellX cfg i + cellWidth cfg) (cellY cfg i + cellHeight cfg)).

Definition offsetX (cfg : gridConfig) (i : Z) (f : image.RGBA) : Z :=
  cellX cfg i + Z.quot (cellWidth cfg - frameWidth f) 2.

Definition offsetY (cfg : gridConfig) (i : Z) (f : image.RGBA) : Z :=
  cellY cfg i + Z.quot (cellHeight cfg - frameHeight f) 2.

Definition placedRect (cfg : gridConfig) (i : Z) (f : image.RGBA)
    : image.Rectangle :=
  image.mkRectangle
    (image.mkPoint (offsetX cfg i f) (offsetY cfg i f))
    (image.mkPoint (offsetX cfg i f + frameWidth f)
                   (offsetY cfg i f + frameHeight f)).

(** A frame entry fits its cell: absent, or a well-formed bitmap no larger
    than the cell. *)
Definition fitsCell (cfg : gridConfig) (e : option image.RGBA) : Prop :=
  match e with
  | None => True
  | Some f =>
      0 <= frameWidth f <= cellWidth cfg /\ 0 <= frameHeight f <= cellHeight cfg
  end.

(** The source pixel of frame [f] that lands on canvas point [(x, y)]. *)
Definition framePixel (cfg : gridConfig) (i : Z) (f : image.RGBA) (x y : Z)
    : color.RGBA :=
  image.At f (x - offsetX cfg i f + image.X (image.Min (image.Bounds f)))
             (y - offsetY cfg i f + image.Y (image.Min (image.Bounds f))).

(** ** Paths and the file system

    [path/filepath] on a Unix system (separator [/], no volume names), and
    a small in-memory file system for the effects of [os.MkdirAll] and
    [os.Create]: a finite map from cleaned paths to directories and files,
    in which ["."], ["/"] and the directories above the working directory
    ([".."], ["../.."], ...) always exist.  There are no symbolic links and
    no permissions. *)

Module filepath.

Definition isSep (c : ascii) : bool := Ascii.eqb c "/".
Definition isDot (c : ascii) : bool := Ascii.eqb c ".".

(** The output buffer of [Clean] is kept reversed, last byte first. *)

(** Backtracking over one element: bytes are popped until the byte just
    popped is a separator or only [dotdot] bytes are left. *)
Fixpoint popElem (out : list ascii) (last : ascii) (dotdot : nat)
    : list ascii :=
  match out with
  | c :: out' =>
      if (dotdot <? length out)%nat && negb (isSep last) then
        popElem out' c dotdot
      else out
  | [] => []
  end.

Definition endsElem (rest : list ascii) : bool :=
  match rest with
  | [] => true
  | c :: _ => isSep c
  end.

Fixpoint span (f : ascii -> bool) (l : list ascii)
    : list ascii * list ascii :=
  match l with
  | c :: l' =>
      if f c then let '(a, b) := span f l' in (c :: a, b) else ([], l)
  | [] => ([], [])
  end.

(** The main loop of [Clean] over the unread part of the path. *)
Fixpoint cleanLoop (fuel : nat) (rooted : bool) (path out : list ascii)
    (dotdot : nat) : list ascii :=
  match fuel with
  | O => out
  | S fuel' =>
      match path with
      | [] => out
      | c :: rest =>
          if isSep c then cleanLoop fuel' rooted rest out dotdot
          else if isDot c && endsElem rest then
            cleanLoop fuel' rooted rest out dotdot
          else if isDot c && match rest with
                             | d :: rest2 => isDot d && endsElem rest2
                             | [] => false
                             end then
            let rest2 := tail rest in
            if (dotdot <? length out)%nat then
              let out' := match out with
                          | l :: o => popElem o l dotdot
                          | [] => []
                          end in
              cleanLoop fuel' rooted rest2 out' dotdot
            else if negb rooted then
              let out1 := if (0 <? length out)%nat then "/"%char :: out
                          else out in
              let out2 := "."%char :: "."%char :: out1 in
              cleanLoop fuel' rooted rest2 out2 (length out2)
            else cleanLoop fuel' rooted rest2 out dotdot
          else
            let out1 :=
              if rooted && negb (length out =? 1)%nat
                 || negb rooted && negb (length out =? 0)%nat
              then "/"%char :: out else out in
            let '(elem, rest') := span (fun c => negb (isSep c)) path in
            cleanLoop fuel' rooted rest' (reverse elem ++ out1) dotdot
      end
  end.

(** [filepath.Clean]. *)
Definition Clean (path : string) : string :=
  match list_ascii_of_string path with
  | [] => "."
  | (c :: rest) as l =>
      let rooted := isSep c in
      let out :=
        if rooted then cleanLoop (S (length l)) true rest ["/"%char] 1
        else cleanLoop (S (length l)) false l [] 0 in
      match out with
      | [] => "."
      | _ => string_of_list_ascii (reverse out)
      end
  end.

(** [filepath.Dir]: everything up to the last separator, cleaned. *)
Definition Dir (path : string) : string :=
  let l := reverse (list_ascii_of_string path) in
  Clean (string_of_list_ascii
           (reverse (snd (span (fun c => negb (isSep c)) l)))).

(** The scan of [Ext], from the last byte backwards. *)
Fixpoint extLoop (rpath acc : list ascii) : list ascii :=
  match rpath with
  | [] => []
  | c :: rest =>
      if isSep c then []
      else if isDot c then c :: acc
      else extLoop rest (c :: acc)
  end.

(** [filepath.Ext]: the suffix from the last dot of the last element. *)
Definition Ext (path : string) : string :=
  string_of_list_ascii (extLoop (reverse (list_ascii_of_string path)) []).

End filepath.

Module os.

Inductive node : Type := Directory | File (content : string).

Definition FS : Type := gmap string node.

Inductive errno : Type := ENOTDIR | EISDIR | ENOENT.

(** The cleaned paths of the directories above the working directory. *)
Fixpoint isUp (p : string) : bool :=
  match p with
  | String a (String b rest) =>
      filepath.isDot a && filepath.isDot b
      && match rest with
         | EmptyString => true
         | String c rest' => filepath.isSep c && isUp rest'
         end
  | _ => false
  end.

Definition isDir (fs : FS) (p : string) : bool :=
  String.eqb p "." || String.eqb p "/" || isUp p
  || match fs !! p with
     | Some Directory => true
     | _ => false
     end.

(** [os.MkdirAll]: the directory and its missing parents are created; a
    file in the way is an error. *)
Fixpoint mkdirAll (fuel : nat) (p : string) (fs : FS) : FS * option errno :=
  if isDir fs p then (fs, None)
  else
    match fs !! p with
    | Some _ => (fs, Some ENOTDIR)
    | None =>
        match fuel with
        | O => (fs, Some ENOENT)
        | S fuel' =>
            match mkdirAll fuel' (filepath.Dir p) fs with
            | (fs', Some e) => (fs', Some e)
            | (fs', None) => (<[p := Directory]> fs', None)
            end
        end
    end.

Definition MkdirAll (path : string) (fs : FS) : FS * option errno :=
  mkdirAll (String.length path) (filepath.Clean path) fs.

(** The directory reached from the directory [cur] through the path
    elements [elems], the way the system resolves a path: an empty element
    and [.] stay, [..] goes to the parent, and a name must be an existing
    directory.  Directories are named by their cleaned paths. *)
Fixpoint walk (fs : FS) (cur : string) (elems : list string)
    : string + errno :=
  match elems with
  | [] => inl cur
  | e :: rest =>
      if String.eqb e "" || String.eqb e "." then walk fs cur rest
      else
        let next := filepath.Clean (cur +:+ "/" +:+ e) in
        if isDir fs next then walk fs next rest
        else
          match fs !! next with
          | Some _ => inr ENOTDIR
          | None => inr ENOENT
          end
  end.

(** [os.Create]: every element of the path before the last must lead to an
    existing directory and the last must not name a directory; the file is
    then created, or truncated when it exists, and the open file is returned
    (here the cleaned path that names it, which is where the walk ends when
    there are no symbolic links).  The program wraps the error without
    looking at its kind. *)
Definition Create (path : string) (fs : FS) : FS * (string + errno) :=
  let elems := strings.Split path "/" in
  let root := if String.prefix "/" path then "/"%string else "."%string in
  match walk fs root (removelast elems) with
  | inr e => (fs, inr e)
  | inl _ =>
      let name := List.last elems ""%string in
      if String.eqb name "" then
        (fs, inr (if String.eqb path "" then ENOENT else EISDIR))
      else
        let p := filepath.Clean path in
        if isDir fs p then (fs, inr EISDIR)
        else (<[p := File ""]> fs, inl p)
  end.

(** [Write] of an [os.File]: the bytes are appended to the open file. *)
Definition Write (file : string) (data : string) (fs : FS) : FS :=
  match fs !! file with
  | Some (File content) => <[file := File (content +:+ data)]> fs
  | _ => fs
  end.

End os.

(** ** Saving the image *)

Definition ensureOutputDir (path : string) (fs : os.FS)
    : os.FS * option error :=
  let dir := filepath.Dir path in
  if String.eqb dir "." || String.eqb dir "" then (fs, None)
  else
    match os.MkdirAll dir fs with
    | (fs', Some _) => (fs', Some (ErrOutputDir dir))
    | (fs', None) => (fs', None)
    end.

Section SaveImage.

(** The codecs: the bytes they write, and whether they report an error. *)
Variable pngEncode : image.RGBA -> string * option error.
Variable jpegEncode : image.RGBA -> Z -> string * option error.

Definition saveImage (img : image.RGBA) (path : string) (quality : Z)
    (fs : os.FS) : os.FS * option error :=
  match ensureOutputDir path fs with
  | (fs, Some e) => (fs, Some e)
  | (fs, None) =>
      match os.Create path fs with
      | (fs, inr _) => (fs, Some (ErrCreateFile path))
      | (fs, inl file) =>
          let ext := strings.ToLower (filepath.Ext path) in
          if String.eqb ext ".jpg" || String.eqb ext ".jpeg" then
            let '(data, err) := jpegEncode img quality in
            (os.Write file data fs, err)
          else if String.eqb ext ".png" || String.eqb ext "" then
            let '(data, err) := pngEncode img in
            (os.Write file data fs, err)
          else (fs, Some (ErrUnsupportedFormat ext))
      end
  end.

End SaveImage.

(** A colour whose four channels are bytes. *)
Definition byteColor (c : color.RGBA) : Prop :=
  0 <= color.R c <= 255 /\ 0 <= color.G c <= 255
  /\ 0 <= color.B c <= 255 /\ 0 <= color.A c <= 255.

(** ** Probing the video, capturing frames, and the program

    The external commands and the parsers and decoders of the standard
    library that are not modelled are parameters: whether [exec.LookPath]
    finds a program, the standard output of a command run to its end ([None]
    when it fails), [strconv.ParseFloat], the ["%.3f"] formatting of a
    timestamp and the PNG decoder.  Memory exhaustion is not modelled. *)

Inductive probeError : Type :=
| ErrDurationCommand
| ErrDurationParse (e : strconv.NumError)
| ErrResolutionCommand
| ErrResolutionEmpty
| ErrResolutionFormat (output : string)
| ErrWidthParse (e : strconv.NumError)
| ErrHeightParse (e : strconv.NumError)
| ErrDurationNotPositive.

Inductive captureError : Type :=
| ErrStart
| ErrDecode
| ErrWait.

Record videoMetadata : Type := mkVideoMetadata {
  duration : float;
  width : Z;
  height : Z
}.

(** How [main] ends: [exitWithError] with the error of one of its steps, a
    run-time panic, or the final message. *)
Inductive ending : Type :=
| ExitFlags (e : error)
| ExitExecutable (name : string)
| ExitProbe (e : probeError)
| ExitCapture (index : Z) (e : captureError)
| ExitSave (e : error)
| Panics
| Finished (output : string).

Section Program.

Variable lookPath : string -> bool.
Variable commandOutput : string -> list string -> option string.
Variable ParseFloat : string -> float + strconv.NumError.
Variable formatTimestamp : float -> string.
Variable ffmpegPipe : list string -> option (string * bool).
Variable pngDecode : string -> option image.RGBA.
Variable approxBiLinear :
  image.RGBA -> image.Rectangle -> image.Rectangle -> Z -> Z -> color.RGBA.
Variable pngEncode : image.RGBA -> string * option error.
Variable jpegEncode : image.RGBA -> Z -> string * option error.

(** [None] when both programs are found, else the one that is missing. *)
Definition ensureExecutables : option string :=
  if negb (lookPath "ffmpeg") then Some "ffmpeg"%string
  else if negb (lookPath "ffprobe") then Some "ffprobe"%string
  else None.

Definition probeDuration (path : string) : float + probeError :=
  match commandOutput "ffprobe"
          ["-v"; "error"; "-show_entries"; "format=duration"; "-of";
           "default=noprint_wrappers=1:nokey=1"; path]%string with
  | None => inr ErrDurationCommand
  | Some output =>
      match ParseFloat (strings.TrimSpace output) with
      | inr e => inr (ErrDurationParse e)
      | inl value => inl value
      end
  end.

(** What [probeResolution] makes of the output of [ffprobe]. *)
Definition parseResolution (output : string) : Z * Z + probeError :=
  let tokens := strings.Fields (strings.TrimSpace output) in
  match tokens with
  | [] => inr ErrResolutionEmpty
  | token :: _ =>
      match strings.Split token "x" with
      | [widthText; heightText] =>
          match strconv.Atoi widthText with
          | inr e => inr (ErrWidthParse e)
          | inl width =>
              match strconv.Atoi heightText with
              | inr e => inr (ErrHeightParse e)
              | inl height => inl (width, height)
              end
          end
      | _ => inr (ErrResolutionFormat (strings.TrimSpace output))
      end
  end.

Definition probeResolution (path : string) : Z * Z + probeError :=
  match commandOutput "ffprobe"
          ["-v"; "error"; "-select_streams"; "v:0"; "-show_entries";
           "stream=width,height"; "-of"; "csv=s=x:p=0"; path]%string with
  | None => inr ErrResolutionCommand
  | Some output => parseResolution output
  end.

Definition probeVideo (path : string) : videoMetadata + probeError :=
  match probeDuration path with
  | inr e => inr e
  | inl duration =>
      match probeResolution path with
      | inr e => inr e
      | inl (width, height) =>
          if (duration <=? 0)%float then inr ErrDurationNotPositive
          else inl (mkVideoMetadata duration width height)
      end
  end.

(** [ffmpegPipe] gives the bytes the command writes to its pipe and whether
    it exits successfully, or [None] when it cannot be started. *)
Definition captureFrame (videoPath : string) (timestamp : float)
    : image.RGBA + captureError :=
  let ts := formatTimestamp timestamp in
  match ffmpegPipe
          ["-loglevel"; "error"; "-ss"; ts; "-i"; videoPath; "-frames:v"; "1";
           "-f"; "image2pipe"; "-vcodec"; "png"; "-"]%string with
  | None => inr ErrStart
  | Some (stdout, exited) =>
      match pngDecode stdout with
      | None => inr ErrDecode
      | Some img => if exited then inl img else inr ErrWait
      end
  end.

(** The capture loop of [main]: [frames[i]] receives the fitted frame of
    the [i]-th timestamp; the error of a failed capture carries [i + 1]. *)
Fixpoint captureLoop (cfg : gridConfig) (timestamps : list float) (i : Z)
    (frames : list (option image.RGBA))
    : list (option image.RGBA) + ending :=
  match timestamps with
  | [] => inl frames
  | ts :: rest =>
      match captureFrame (input cfg) ts with
      | inr e => inr (ExitCapture (i + 1) e)
      | inl frame =>
          match scaleToFit approxBiLinear frame (cellWidth cfg)
                  (cellHeight cfg) with
          | None => inr Panics
          | Some fitted =>
              if (Z.to_nat i <? length frames)%nat then
                captureLoop cfg rest (i + 1)
                  (<[Z.to_nat i := Some fitted]> frames)
              else inr Panics
          end
      end
  end.

(** The configuration [main] works with once the cell height is known. *)
Definition withCellHeight (cfg : gridConfig) (meta : videoMetadata)
    : gridConfig :=
  if cellHeight cfg =? 0 then
    mkGridConfig (input cfg) (output cfg) (rows cfg) (cols cfg)
      (cellWidth cfg)
      (inferCellHeight (cellWidth cfg) (width meta) (height meta))
      (margin cfg) (jpegQuality cfg) (background cfg)
  else cfg.

(** [main], from the values of the flags and the file system to the file
    system it leaves and the way it ends. *)
Definition main (fl : flagValues) (fs : os.FS) : os.FS * ending :=
  match parseFlags fl with
  | inr e => (fs, ExitFlags e)
  | inl cfg =>
      match ensureExecutables with
      | Some name => (fs, ExitExecutable name)
      | None =>
          match probeVideo (input cfg) with
          | inr e => (fs, ExitProbe e)
          | inl meta =>
              let cfg := withCellHeight cfg meta in
              let totalFrames := GoInt.mul (rows cfg) (cols cfg) in
              let timestamps := sampleTimestamps (duration meta) totalFrames in
              if totalFrames <? 0 then (fs, Panics)
              else
                let frames := replicate (Z.to_nat totalFrames) None in
                match captureLoop cfg timestamps 0 frames with
                | inr e => (fs, e)
                | inl frames =>
                    match composeGrid frames cfg with
                    | None => (fs, Panics)
                    | Some collage =>
                        match saveImage pngEncode jpegEncode collage
                                (output cfg) (jpegQuality cfg) fs with
                        | (fs', Some e) => (fs', ExitSave e)
                        | (fs', None) => (fs', Finished (output cfg))
                        end
                    end
                end
          end
      end
  end.

End Program.

(** *** File-system relations used to state what saving preserves *)

(** [addsDirs fs fs']: every entry of [fs] is still in [fs'], unchanged, and
    every other entry of [fs'] is a directory. *)
Definition addsDirs (fs fs' : os.FS) : Prop :=
  forall q : string,
    match fs !! q with
    | Some n => fs' !! q = Some n
    | None => fs' !! q = None \/ fs' !! q = Some os.Directory
    end.

Definition noSeparator (path : string) : bool :=
  forallb (fun c => negb (filepath.isSep c)) (list_ascii_of_string path).

(** Stand-ins for the codecs: the bytes written, and no error. *)
Definition samplePng (img : image.RGBA) : string * option error :=
  ("PNG"%string, None).

Definition sampleJpeg (img : image.RGBA) (quality : Z)
    : string * option error :=
  ("JPEG"%string, None).

(** A source with no pixels. *)
Definition emptyFrame : image.RGBA :=
  image.mkRGBA (fun _ _ => color.zero) (image.Rect 0 0 0 0).

(** *** Plain ASCII text, used to state what the resolution parser reads *)

Definition isAscii (c : ascii) : bool := strings.byte c <? 128.

Definition isAsciiSpace (c : ascii) : bool :=
  let b := strings.byte c in (9 <=? b) && (b <=? 13) || (b =? 32).

Definition isDecimal (c : ascii) : bool :=
  let b := strings.byte c in (48 <=? b) && (b <=? 57).

(** An ASCII byte that is not white space. *)
Definition isPlain (c : ascii) : bool := isAscii c && negb (isAsciiSpace c).

(** The text without its leading ASCII white space. *)
Fixpoint dropSpaces (l : list ascii) : list ascii :=
  match l with
  | c :: rest => if isAsciiSpace c then dropSpaces rest else l
  | [] => []
  end.

Definition asciiText (s : string) : bool :=
  forallb isAscii (list_ascii_of_string s).

Definition blankText (s : string) : bool :=
  forallb (fun c => isAscii c && isAsciiSpace c) (list_ascii_of_string s).

(** One to eighteen decimal digits, and the number they denote. *)
Definition decimalText (s : string) : bool :=
  (1 <=? String.length s)%nat && (String.length s <=? 18)%nat
  && forallb isDecimal (list_ascii_of_string s).

Fixpoint decimalFrom (n : Z) (l : list ascii) : Z :=
  match l with
  | c :: rest => decimalFrom (10 * n + (strings.byte c - 48)) rest
  | [] => n
  end.

Definition decimalValue (s : string) : Z :=
  decimalFrom 0 (list_ascii_of_string s).

(** *** A sample run

    Both programs are installed, [ffprobe] reports 12.5 seconds and 640 by
    360 pixels, and every capture yields a 640 by 360 frame. *)

Definition sampleLookPath (name : string) : bool := true.

Definition lineFeed : string := String "010"%char EmptyString.

Definition sampleCommandOutput (name : string) (args : list string)
    : option string :=
  if (length args =? 7)%nat then Some ("12.500000" +:+ lineFeed)
  else Some ("640x360" +:+ lineFeed).

Definition sampleParseFloat (s : string) : float + strconv.NumError :=
  inl 0x1.9p+3%float.

Definition sampleFormatTimestamp (t : float) : string := "0.000".

Definition sampleFfmpegPipe (args : list string) : option (string * bool) :=
  Some ("PNG"%string, true).

Definition samplePngDecode (data : string) : option image.RGBA :=
  Some (image.mkRGBA (fun _ _ => color.mkRGBA 200 100 50 255)
          (image.Rect 0 0 640 360)).

(** A duration that parses as NaN. *)
Definition nanParseFloat (s : string) : float + strconv.NumError := inl nan.

(** An [ffmpeg] that cannot be started. *)
Definition failingFfmpegPipe (args : list string) : option (string * bool) :=
  None.

(** An [ffprobe] that prints an empty line only. *)
Definition blankCommandOutput (name : string) (args : list string)
    : option string :=
  Some lineFeed.

(** A run whose second capture fails: the timestamps before five seconds
    are captured, and [ffmpeg] cannot be started for the later ones. *)
Definition stagedFormatTimestamp (t : float) : string :=
  if (t <? 5)%float then "4.167" else "8.333".

Definition stagedFfmpegPipe (args : list string) : option (string * bool) :=
  match args !! 3%nat with
  | Some ts => if String.eqb ts "8.333" then None else Some ("PNG"%string, true)
  | None => None
  end.

(** One row of two cells, 4 pixels wide, the height left to inference. *)
Definition sampleFlags : flagValues :=
  mkFlagValues "in.mp4" "preview.png" 1 2 4 0 1 90 "#FFFFFF".

(** *** Sample grids *)

(** A one-cell grid two thousand million pixels wide and one pixel high. *)
Definition wideConfig : gridConfig :=
  mkGridConfig "in.mp4" "preview.png" 1 1 2000000000 1 0 90
    (color.mkRGBA 255 255 255 255).

(** A 1 by 2 grid of 2 by 2 cells with a one-pixel margin, and a 1 by 2
    opaque frame for its first cell. *)
Definition smallConfig : gridConfig :=
  mkGridConfig "in.mp4" "preview.png" 1 2 2 2 1 90 (color.mkRGBA 10 20 30 255).

Definition smallFrame : image.RGBA :=
  image.mkRGBA (fun _ _ => color.mkRGBA 200 100 50 255) (image.Rect 0 0 1 2).

(** *** A sample frame *)

(** A kernel that copies the source pixel at the same coordinates, and a
    640 by 360 frame. *)
Definition sampleKernel (src : image.RGBA) (sr dr : image.Rectangle)
    (x y : Z) : color.RGBA := image.At src x y.

Definition sampleFrame : image.RGBA :=
  image.mkRGBA (fun _ _ => color.mkRGBA 200 100 50 255)
    (image.Rect 0 0 640 360).

(** A single opaque pixel. *)
Definition unitFrame : image.RGBA :=
  image.mkRGBA (fun _ _ => color.mkRGBA 200 100 50 255) (image.Rect 0 0 1 1).

(** * Properties *)

(** ** Integers *)

Lemma wrap_in_range (z : Z) : GoInt.in_range z -> GoInt.wrap z = z.
Proof.
  unfold GoInt.in_range, GoInt.wrap, GoInt.min_int, GoInt.max_int. intros H.
  rewrite Z.mod_small; lia.
Qed.

Lemma wrap_nonneg (z : Z) : 0 <= z <= GoInt.max_int -> GoInt.wrap z = z.
Proof.
  intros H. apply wrap_in_range. unfold GoInt.in_range, GoInt.min_int. lia.
Qed.

(** ** Floating-point rounding

    The operations of [SpecFloat] round a real known by an integer part and a
    location; the lemmas below follow that value through the shifts. *)

Lemma bpow_pos e : (0 < bpow e)%R.
Proof. apply powerRZ_lt. lra. Qed.

Lemma bpow_add a b : bpow (a + b) = (bpow a * bpow b)%R.
Proof. apply powerRZ_add. lra. Qed.

Lemma bpow_0 : bpow 0 = 1%R.
Proof. reflexivity. Qed.

Lemma bpow_1 : bpow 1 = 2%R.
Proof. unfold bpow. simpl. lra. Qed.

Lemma bpow_m1 : bpow (-1) = (1 / 2)%R.
Proof. unfold bpow. simpl. lra. Qed.

Lemma bpow_opp e : bpow (- e) = (/ bpow e)%R.
Proof. apply powerRZ_neg'. Qed.

Lemma bpow_IZR (k : Z) : 0 <= k -> bpow k = IZR (2 ^ k).
Proof.
  intros Hk. unfold bpow. rewrite <- (Z2Nat.id k) by lia.
  rewrite <- pow_powerRZ. rewrite <- pow_IZR. reflexivity.
Qed.

Lemma bpow_le a b : a <= b -> (bpow a <= bpow b)%R.
Proof.
  intros H. replace b with (a + (b - a)) by lia. rewrite bpow_add.
  rewrite (bpow_IZR (b - a)) by lia.
  assert (1 <= 2 ^ (b - a)) by (apply Z.lt_pred_le, Z.pow_pos_nonneg; lia).
  apply IZR_le in H0. pose proof (bpow_pos a). nra.
Qed.

Lemma bpow_lt a b : a < b -> (bpow a < bpow b)%R.
Proof.
  intros H. replace b with (a + (b - a)) by lia. rewrite bpow_add.
  rewrite (bpow_IZR (b - a)) by lia.
  assert (2 <= 2 ^ (b - a)).
  { replace (b - a) with (1 + (b - a - 1)) by lia. rewrite Z.pow_add_r by lia.
    assert (1 <= 2 ^ (b - a - 1)) by (apply Z.lt_pred_le, Z.pow_pos_nonneg; lia). lia. }
  apply IZR_le in H0. pose proof (bpow_pos a). nra.
Qed.

Lemma IZR_xI p : IZR (Z.pos p~1) = (2 * IZR (Z.pos p) + 1)%R.
Proof. rewrite Pos2Z.inj_xI, plus_IZR, mult_IZR. reflexivity. Qed.

Lemma IZR_xO p : IZR (Z.pos p~0) = (2 * IZR (Z.pos p))%R.
Proof. rewrite Pos2Z.inj_xO, mult_IZR. reflexivity. Qed.

Lemma shr_1_inbetween (mrs : shr_record) (x : R) :
  0 <= shr_m mrs ->
  inbetween (shr_m mrs) (loc_of_shr_record mrs) x ->
  inbetween (shr_m (shr_1 mrs)) (loc_of_shr_record (shr_1 mrs)) (x / 2)
  /\ shr_m (shr_1 mrs) = shr_m mrs / 2.
Proof.
  destruct mrs as [m r s]. cbn [shr_m]. intros Hm.
  destruct m as [|[p|p|]|p]; try lia.
  - destruct r, s; cbn; intros H; (split; [lra|reflexivity]).
  - assert (E : Z.pos p~1 / 2 = Z.pos p).
    { symmetry. apply Z.div_unique with 1; lia. }
    rewrite E. pose proof (IZR_xI p) as Ep.
    destruct r, s; cbn -[IZR]; intros H; (split; [lra|reflexivity]).
  - assert (E : Z.pos p~0 / 2 = Z.pos p).
    { symmetry. apply Z.div_unique with 0; lia. }
    rewrite E. pose proof (IZR_xO p) as Ep.
    destruct r, s; cbn -[IZR]; intros H; (split; [lra|reflexivity]).
  - destruct r, s; cbn; intros H; (split; [lra|reflexivity]).
Qed.

Lemma iter_pos_nat {A : Type} (f : A -> A) (n : positive) (a : A) :
  SpecFloat.iter_pos f n a = @Nat.iter (Pos.to_nat n) A f a.
Proof.
  revert a. induction n as [n IH|n IH|]; intros a; cbn [SpecFloat.iter_pos].
  - rewrite !IH, Pos2Nat.inj_xI.
    replace (S (2 * Pos.to_nat n))
      with (Pos.to_nat n + S (Pos.to_nat n))%nat by lia.
    rewrite Nat.iter_add, Nat.iter_succ_r. reflexivity.
  - rewrite !IH, Pos2Nat.inj_xO.
    replace (2 * Pos.to_nat n)%nat
      with (Pos.to_nat n + Pos.to_nat n)%nat by lia.
    rewrite Nat.iter_add. reflexivity.
  - reflexivity.
Qed.

Lemma shr_iter_inbetween (k : nat) :
  forall (mrs : shr_record) (x : R),
    0 <= shr_m mrs ->
    inbetween (shr_m mrs) (loc_of_shr_record mrs) x ->
    let mrs' := @Nat.iter k _ shr_1 mrs in
    inbetween (shr_m mrs') (loc_of_shr_record mrs')
      (x * bpow (- Z.of_nat k))
    /\ shr_m mrs' = shr_m mrs / 2 ^ Z.of_nat k.
Proof.
  induction k as [|k IH]; intros mrs x Hm Hx.
  - cbn [Nat.iter]. change (bpow (- Z.of_nat 0)) with 1%R.
    rewrite Rmult_1_r, Z.div_1_r. done.
  - cbn zeta. rewrite Nat.iter_succ.
    destruct (IH mrs x Hm Hx) as [H1 H2].
    set (mrs1 := @Nat.iter k _ shr_1 mrs) in *.
    assert (H0 : 0 <= shr_m mrs1).
    { rewrite H2. apply Z.div_pos; [lia|]. apply Z.pow_pos_nonneg; lia. }
    destruct (shr_1_inbetween mrs1 _ H0 H1) as [H3 H4].
    split.
    + replace (x * bpow (- Z.of_nat (S k)))%R
        with (x * bpow (- Z.of_nat k) / 2)%R; [done|].
      replace (- Z.of_nat (S k)) with (- Z.of_nat k + - (1)) by lia.
      rewrite bpow_add, (bpow_opp 1), bpow_1. field.
    + rewrite H4, H2, Z.div_div by (try apply Z.pow_pos_nonneg; lia).
      f_equal. rewrite Nat2Z.inj_succ, Z.pow_succ_r by lia. lia.
Qed.

Lemma loc_of_shr_record_of_loc m l :
  loc_of_shr_record (shr_record_of_loc m l) = l.
Proof. by destruct l as [|[]]. Qed.

Lemma shr_m_shr_record_of_loc m l : shr_m (shr_record_of_loc m l) = m.
Proof. by destruct l as [|[]]. Qed.

Lemma shr_spec (m : Z) (l : location) (e n : Z) (x : R) :
  0 <= m -> 0 <= n -> inbetween m l x ->
  exists mrs',
    shr (shr_record_of_loc m l) e n = (mrs', e + n)
    /\ shr_m mrs' = m / 2 ^ n
    /\ inbetween (shr_m mrs') (loc_of_shr_record mrs') (x * bpow (- n)).
Proof.
  intros Hm Hn Hx. destruct n as [|p|p]; [| |lia].
  - exists (shr_record_of_loc m l). cbn [shr].
    rewrite Z.add_0_r, shr_m_shr_record_of_loc, loc_of_shr_record_of_loc.
    change (bpow (- 0)) with 1%R. rewrite Rmult_1_r, Z.div_1_r. done.
  - eexists. cbn [shr]. split; [reflexivity|]. rewrite iter_pos_nat.
    destruct (shr_iter_inbetween (Pos.to_nat p) (shr_record_of_loc m l) x)
      as [H1 H2].
    + by rewrite shr_m_shr_record_of_loc.
    + by rewrite shr_m_shr_record_of_loc, loc_of_shr_record_of_loc.
    + rewrite positive_nat_Z, shr_m_shr_record_of_loc in *. done.
Qed.

(** Number of binary digits. *)
Lemma digits2_pos_bounds (p : positive) :
  2 ^ (Z.pos (digits2_pos p) - 1) <= Z.pos p < 2 ^ Z.pos (digits2_pos p).
Proof.
  induction p as [p IH|p IH|]; cbn [digits2_pos].
  - rewrite Pos2Z.inj_succ.
    replace (Z.succ (Z.pos (digits2_pos p)) - 1)
      with (Z.succ (Z.pos (digits2_pos p) - 1)) by lia.
    rewrite !Z.pow_succ_r by lia. lia.
  - rewrite Pos2Z.inj_succ.
    replace (Z.succ (Z.pos (digits2_pos p)) - 1)
      with (Z.succ (Z.pos (digits2_pos p) - 1)) by lia.
    rewrite !Z.pow_succ_r by lia. lia.
  - done.
Qed.

Lemma digits2_pos_unique (p : positive) (d : Z) :
  2 ^ (d - 1) <= Z.pos p < 2 ^ d -> Z.pos (digits2_pos p) = d.
Proof.
  intros [H1 H2]. pose proof (digits2_pos_bounds p) as [H3 H4].
  assert (0 < d).
  { destruct (Z.ltb_spec 0 d); [done|]. 
    assert (2 ^ d <= 2 ^ 0) by (apply Z.pow_le_mono_r; lia). simpl in *. lia. }
  destruct (Z.lt_trichotomy (Z.pos (digits2_pos p)) d) as [Hlt|[->|Hgt]];
    [|done|].
  - assert (2 ^ Z.pos (digits2_pos p) <= 2 ^ (d - 1))
      by (apply Z.pow_le_mono_r; lia). lia.
  - assert (2 ^ d <= 2 ^ (Z.pos (digits2_pos p) - 1))
      by (apply Z.pow_le_mono_r; lia). lia.
Qed.

Lemma fexp_normal (e : Z) : -1074 <= e - 53 -> fexp prec emax e = e - 53.
Proof. unfold fexp, SpecFloat.emin, prec, emax. lia. Qed.

Lemma round_nearest_even_spec (m : Z) (l : location) (x : R) :
  inbetween m l x ->
  let m2 := round_nearest_even m l in
  (m2 = m \/ m2 = m + 1)
  /\ (Rabs (IZR m2 - x) <= 1 / 2)%R
  /\ (forall k : Z, x = IZR k -> m2 = k).
Proof.
  intros Hx m2. subst m2.
  assert (Hm1 : IZR (m + 1) = (IZR m + 1)%R) by (rewrite plus_IZR; done).
  destruct l as [|[]]; cbn [round_nearest_even inbetween] in *.
  - subst x. split; [by left|]. split.
    + rewrite Rminus_diag, Rabs_R0. lra.
    + intros k Hk. by apply eq_IZR.
  - split; [destruct (Z.even m); tauto|]. split.
    + destruct (Z.even m); rewrite ?Hm1; apply Rabs_le; lra.
    + intros k Hk. exfalso. subst x.
      assert (IZR (2 * k) = IZR (2 * m + 1)) as Hc.
      { rewrite plus_IZR, !mult_IZR. lra. }
      apply eq_IZR in Hc. lia.
  - split; [by left|]. split.
    + apply Rabs_le; lra.
    + intros k Hk. exfalso. subst x. destruct Hx as [H1 H2].
      apply lt_IZR in H1.
      assert (IZR k < IZR (m + 1))%R as H3 by (rewrite Hm1; lra).
      apply lt_IZR in H3. lia.
  - split; [by right|]. split.
    + rewrite Hm1. apply Rabs_le; lra.
    + intros k Hk. exfalso. subst x. destruct Hx as [H1 H2].
      assert (IZR m < IZR k)%R as H3 by lra. apply lt_IZR in H3.
      assert (IZR k < IZR (m + 1))%R as H4 by (rewrite Hm1; lra).
      apply lt_IZR in H4. lia.
Qed.

Lemma inbetween_lower (m : Z) (l : location) (x : R) :
  inbetween m l x -> (IZR m <= x < IZR m + 1)%R.
Proof. destruct l as [|[]]; cbn; lra. Qed.

Lemma BRA_normal (s : bool) (p : positive) (e : Z) (l : location) (x : R) :
  inbetween (Z.pos p) l x ->
  let d := Z.pos (digits2_pos p) in
  53 <= d -> -1074 <= d + e - 53 -> d + e <= 1023 ->
  exists m' e',
    binary_round_aux prec emax s (Z.pos p) e l = S754_finite s m' e'
    /\ Z.pos (digits2_pos m') = 53
    /\ -1074 <= e' <= 971
    /\ (Rabs (IZR (Z.pos m') * bpow e' - x * bpow e) <= bpow (d + e - 54))%R
    /\ (bpow (d + e - 1) <= x * bpow e)%R
    /\ (forall k : Z, (x * bpow (53 - d))%R = IZR k ->
        (IZR (Z.pos m') * bpow e')%R = (x * bpow e)%R).
Proof.
  intros Hx d Hd Hlo Hhi.
  pose proof (digits2_pos_bounds p) as [Hp1 Hp2]. fold d in Hp1, Hp2.
  unfold binary_round_aux, shr_fexp. cbn [Zdigits2]. fold d.
  rewrite fexp_normal by lia.
  replace (d + e - 53 - e) with (d - 53) by lia.
  destruct (shr_spec (Z.pos p) l e (d - 53) x) as (mrs1 & Hs & Hm1 & Hx1);
    [lia|lia|done|].
  rewrite Hs. set (e1 := e + (d - 53)).
  set (m1 := shr_m mrs1) in *. set (l1 := loc_of_shr_record mrs1) in *.
  assert (Hpow : 2 ^ d = 2 ^ 53 * 2 ^ (d - 53)).
  { rewrite <- Z.pow_add_r by lia. f_equal. lia. }
  assert (Hpow' : 2 ^ (d - 1) = 2 ^ 52 * 2 ^ (d - 53)).
  { rewrite <- Z.pow_add_r by lia. f_equal. lia. }
  assert (H2n : 0 < 2 ^ (d - 53)) by (apply Z.pow_pos_nonneg; lia).
  assert (Hm1b : 2 ^ 52 <= m1 < 2 ^ 53).
  { rewrite Hm1. split.
    - apply Z.div_le_lower_bound; lia.
    - apply Z.div_lt_upper_bound; lia. }
  destruct (round_nearest_even_spec m1 l1 _ Hx1) as (Hm2 & Herr & Hex).
  set (m2 := round_nearest_even m1 l1) in *.
  assert (Hval : (x * bpow e = x * bpow (- (d - 53)) * bpow e1)%R).
  { unfold e1. rewrite Rmult_assoc, <- bpow_add. f_equal. f_equal. lia. }
  assert (Herr' : (Rabs (IZR m2 * bpow e1 - x * bpow e) <= bpow (d + e - 54))%R).
  { rewrite Hval, <- Rmult_minus_distr_r, Rabs_mult.
    rewrite (Rabs_pos_eq (bpow e1)) by (left; apply bpow_pos).
    replace (d + e - 54) with (-1 + e1) by (unfold e1; lia).
    rewrite bpow_add, bpow_m1. pose proof (bpow_pos e1). nra. }
  assert (Hlow : (bpow (d + e - 1) <= x * bpow e)%R).
  { apply inbetween_lower in Hx. replace (d + e - 1) with ((d - 1) + e) by lia.
    rewrite bpow_add, (bpow_IZR (d - 1)) by lia.
    apply IZR_le in Hp1. pose proof (bpow_pos e). nra. }
  assert (Hexact : forall k : Z, (x * bpow (53 - d))%R = IZR k ->
                     (IZR m2 * bpow e1)%R = (x * bpow e)%R).
  { intros k Hk. rewrite Hval. f_equal.
    replace (- (d - 53)) with (53 - d) by lia. rewrite Hk. f_equal.
    apply Hex. rewrite <- Hk. f_equal. f_equal. lia. }
  destruct (Z.eq_dec m2 (2 ^ 53)) as [E53|N53].
  - (* the rounding carried into the next binade *)
    rewrite E53 in *. change (2 ^ 53) with 9007199254740992 in *.
    change (Zdigits2 9007199254740992) with 54.
    assert (Ef : fexp prec emax (54 + e1) - e1 = 1).
    { unfold fexp, SpecFloat.emin, prec, emax, e1. lia. }
    rewrite Ef.
    cbn [shr shr_record_of_loc SpecFloat.iter_pos shr_1 shr_m].
    exists 4503599627370496%positive, (e1 + 1).
    assert (e1 + 1 <= 971) by (unfold e1; lia).
    destruct (Z.leb_spec (e1 + 1) (emax - prec)) as [_|Hbad];
      [|unfold emax, prec in Hbad; lia].
    split; [done|]. split; [done|]. split; [unfold e1; lia|].
    assert (Ev : (IZR 4503599627370496 * bpow (e1 + 1)
                  = IZR 9007199254740992 * bpow e1)%R).
    { rewrite bpow_add, bpow_1.
      change 9007199254740992 with (4503599627370496 * 2).
      rewrite mult_IZR. lra. }
    rewrite Ev. split; [done|]. split; [done|]. done.
  - assert (Hm2b : 2 ^ 52 <= m2 < 2 ^ 53) by lia.
    destruct m2 as [|q|q] eqn:Eq; [lia| |lia].
    assert (Hdq : Z.pos (digits2_pos q) = 53)
      by (apply digits2_pos_unique; lia).
    cbn [Zdigits2]. rewrite Hdq.
    assert (Ef : fexp prec emax (53 + e1) - e1 = 0).
    { unfold fexp, SpecFloat.emin, prec, emax, e1. lia. }
    rewrite Ef. cbn [shr shr_record_of_loc shr_m].
    exists q, e1.
    destruct (Z.leb_spec e1 (emax - prec)) as [_|Hbad];
      [|unfold emax, prec, e1 in Hbad; lia].
    split; [done|]. split; [done|]. split; [unfold e1; lia|].
    split; [done|]. split; [done|]. done.
Qed.

Lemma bpow_lt_inv a b : (bpow a < bpow b)%R -> a < b.
Proof.
  intros H. destruct (Z.lt_ge_cases a b) as [|Hge]; [done|].
  apply bpow_le in Hge. lra.
Qed.

Lemma bpow_le_inv a b : (bpow a <= bpow b)%R -> a <= b.
Proof.
  intros H. destruct (Z.le_gt_cases a b) as [|Hgt]; [done|].
  apply bpow_lt in Hgt. lra.
Qed.

Lemma normal_B2R f m e : normal f m e -> B2R f = (IZR (Z.pos m) * bpow e)%R.
Proof. intros [H _]. unfold B2R. rewrite H. cbn. lra. Qed.

Lemma normal_bounds f m e :
  normal f m e -> (bpow (e + 52) <= B2R f < bpow (e + 53))%R.
Proof.
  intros H. rewrite (normal_B2R f m e H). destruct H as [_ Hd].
  pose proof (digits2_pos_bounds m) as [H1 H2]. rewrite Hd in H1, H2.
  apply IZR_le in H1. apply IZR_lt in H2.
  rewrite !(Z.add_comm e), !bpow_add, (bpow_IZR 52), (bpow_IZR 53) by lia.
  pose proof (bpow_pos e). change (53 - 1) with 52 in H1. nra.
Qed.

Lemma normal_exponent f m e : normal f m e -> -1074 <= e <= 971.
Proof.
  intros [H Hd]. pose proof (Prim2SF_valid f) as Hv. rewrite H in Hv.
  unfold SpecFloat.valid_binary, SpecFloat.bounded in Hv.
  apply andb_prop in Hv as [H1 H2]. unfold SpecFloat.canonical_mantissa in H1.
  rewrite Hd in H1.
  apply Z.eqb_eq in H1. apply Z.leb_le in H2.
  unfold fexp, SpecFloat.emin, prec, emax in *. lia.
Qed.

Lemma mul_correct (x y : float) mx ex my ey :
  normal x mx ex -> normal y my ey ->
  (bpow (-1021) <= B2R x * B2R y < bpow 1023)%R ->
  exists m e,
    normal (x * y)%float m e
    /\ (Rabs (B2R (x * y)%float - B2R x * B2R y)
        <= bpow (-53) * (B2R x * B2R y))%R
    /\ (forall k j : Z,
          (B2R x * B2R y)%R = (IZR k * bpow j)%R -> 0 < k < 2 ^ 53 ->
          B2R (x * y)%float = (B2R x * B2R y)%R).
Proof.
  intros Hx Hy Hr.
  rewrite (normal_B2R x mx ex Hx), (normal_B2R y my ey Hy) in *.
  set (e := ex + ey).
  assert (EP : (IZR (Z.pos mx) * bpow ex * (IZR (Z.pos my) * bpow ey)
                = IZR (Z.pos (mx * my)) * bpow e)%R).
  { unfold e. rewrite bpow_add, Pos2Z.inj_mul, mult_IZR. ring. }
  rewrite EP in *. set (P := (IZR (Z.pos (mx * my)) * bpow e)%R) in *.
  pose proof (digits2_pos_bounds (mx * my)) as [Hp1 Hp2].
  set (d := Z.pos (digits2_pos (mx * my))) in *.
  assert (Hd53 : 53 <= d).
  { destruct Hx as [_ Hdx], Hy as [_ Hdy].
    pose proof (digits2_pos_bounds mx) as [Hx1 _].
    pose proof (digits2_pos_bounds my) as [Hy1 _].
    rewrite Hdx in Hx1. rewrite Hdy in Hy1.
    change (2 ^ (53 - 1)) with 4503599627370496 in *.
    assert (2 ^ 53 <= Z.pos (mx * my)) by (change (2 ^ 53) with 9007199254740992; nia).
    destruct (Z.lt_ge_cases d 53) as [Hlt|]; [|done].
    assert (2 ^ d <= 2 ^ 53) by (apply Z.pow_le_mono_r; lia). lia. }
  assert (HP1 : (bpow (d - 1 + e) <= P)%R).
  { unfold P. rewrite bpow_add, (bpow_IZR (d - 1)) by lia. apply IZR_le in Hp1.
    pose proof (bpow_pos e). nra. }
  assert (HP2 : (P < bpow (d + e))%R).
  { unfold P. rewrite bpow_add, (bpow_IZR d) by lia. apply IZR_lt in Hp2.
    pose proof (bpow_pos e). nra. }
  assert (Hlo : -1021 < d + e) by (apply bpow_lt_inv; lra).
  assert (Hhi : d - 1 + e < 1023) by (apply bpow_lt_inv; lra).
  destruct (BRA_normal false (mx * my) e loc_Exact (IZR (Z.pos (mx * my))))
    as (m' & e' & Hres & Hdm & He' & Herr & _ & Hex);
    [done|fold d; lia|fold d; lia|fold d; lia|]. fold d in Herr, Hex.
  assert (Hn : normal (x * y)%float m' e').
  { split; [|done]. rewrite FloatAxioms.mul_spec. destruct Hx as [-> _], Hy as [-> _].
    exact Hres. }
  exists m', e'. split; [done|].
  rewrite (normal_B2R _ m' e' Hn). fold P in Herr. split.
  - eapply Rle_trans; [exact Herr|].
    replace (d + e - 54) with (-53 + (d - 1 + e)) by lia.
    rewrite bpow_add. pose proof (bpow_pos (-53)). nra.
  - intros k j HP Hk. fold P in Hex.
    assert (Hj : d + e - 53 <= j).
    { assert (bpow (d - 1 + e) < bpow (53 + j))%R as Hb.
      { eapply Rle_lt_trans; [exact HP1|]. rewrite HP, bpow_add.
        rewrite (bpow_IZR 53) by lia.
        assert (IZR k < IZR (2 ^ 53))%R by (apply IZR_lt; lia).
        pose proof (bpow_pos j). nra. }
      apply bpow_lt_inv in Hb. lia. }
    apply (Hex (k * 2 ^ (j - (d + e - 53)))).
    rewrite mult_IZR, <- bpow_IZR by lia.
    assert (IZR (Z.pos (mx * my)) = IZR k * bpow (j - e))%R as ->.
    { replace (j - e) with (j + - e) by lia. rewrite bpow_add, bpow_opp.
      unfold P in HP. pose proof (bpow_pos e). 
      apply (Rmult_eq_reg_r (bpow e)); [|lra]. rewrite HP. field. lra. }
    rewrite Rmult_assoc, <- bpow_add. f_equal. f_equal. lia.
Qed.

Lemma new_location_spec (n r q : Z) :
  0 < n -> 0 <= r < n ->
  inbetween q (new_location n r) (IZR q + IZR r / IZR n).
Proof.
  intros Hn Hr. set (t := (IZR r / IZR n)%R).
  assert (Hn' : (0 < IZR n)%R) by (apply IZR_lt; lia).
  assert (Et : (IZR r = t * IZR n)%R) by (unfold t; field; lra).
  assert (Ht0 : r = 0 -> t = 0%R).
  { intros ->. unfold t. lra. }
  assert (Htpos : r <> 0 -> (0 < t)%R).
  { intros H. assert (0 < IZR r)%R by (apply IZR_lt; lia).
    unfold t. apply Rdiv_lt_0_compat; lra. }
  assert (Hlt : 2 * r < n -> (t < 1 / 2)%R).
  { intros H. apply IZR_lt in H. rewrite mult_IZR in H. nra. }
  assert (Heq : 2 * r = n -> t = (1 / 2)%R).
  { intros H. apply (f_equal IZR) in H. rewrite mult_IZR in H. nra. }
  assert (Hgt : n < 2 * r -> (1 / 2 < t < 1)%R).
  { intros H. apply IZR_lt in H. rewrite mult_IZR in H.
    assert (IZR r < IZR n)%R by (apply IZR_lt; lia). nra. }
  unfold new_location. destruct (Z.even n) eqn:Ev.
  - unfold new_location_even. destruct (Z.eqb_spec r 0) as [E0|N0].
    + cbn. rewrite (Ht0 E0). lra.
    + specialize (Htpos N0).
      destruct (Z.compare_spec (2 * r) n) as [E|E|E]; cbn.
      * rewrite (Heq E). lra.
      * specialize (Hlt E). lra.
      * specialize (Hgt E). lra.
  - unfold new_location_odd. destruct (Z.eqb_spec r 0) as [E0|N0].
    + cbn. rewrite (Ht0 E0). lra.
    + specialize (Htpos N0).
      assert (Hodd : 2 * r <> n).
      { intros <-. rewrite Z.even_mul in Ev. done. }
      destruct (Z.compare_spec (2 * r + 1) n) as [E|E|E]; cbn.
      * assert (2 * r < n) as H by lia. specialize (Hlt H). lra.
      * assert (2 * r < n) as H by lia. specialize (Hlt H). lra.
      * assert (n < 2 * r) as H by lia. specialize (Hgt H). lra.
Qed.

Lemma div_correct (x y : float) mx ex my ey :
  normal x mx ex -> normal y my ey ->
  (bpow (-1021) <= B2R x / B2R y < bpow 1023)%R ->
  exists m e,
    normal (x / y)%float m e
    /\ (Rabs (B2R (x / y)%float - B2R x / B2R y)
        <= bpow (-53) * (B2R x / B2R y))%R
    /\ (forall k j : Z,
          (B2R x / B2R y)%R = (IZR k * bpow j)%R -> 0 < k < 2 ^ 53 ->
          B2R (x / y)%float = (B2R x / B2R y)%R).
Proof.
  intros Hx Hy Hr.
  pose proof (normal_bounds x mx ex Hx) as Hbx.
  pose proof (normal_bounds y my ey Hy) as Hby.
  rewrite (normal_B2R x mx ex Hx), (normal_B2R y my ey Hy) in *.
  pose proof (bpow_pos ex) as Hpx. pose proof (bpow_pos ey) as Hpy.
  pose proof (digits2_pos_bounds mx) as [Hx1 Hx2].
  pose proof (digits2_pos_bounds my) as [Hy1 Hy2].
  destruct Hx as [Ex Hdx], Hy as [Ey Hdy]. rewrite Hdx in *. rewrite Hdy in *.
  change (2 ^ (53 - 1)) with 4503599627370496 in *.
  change (2 ^ 53) with 9007199254740992 in *.
  set (P := (IZR (Z.pos mx) * bpow ex / (IZR (Z.pos my) * bpow ey))%R) in *.
  assert (Hmy : (0 < IZR (Z.pos my))%R) by (apply IZR_lt; lia).
  assert (Hmx : (0 < IZR (Z.pos mx))%R) by (apply IZR_lt; lia).
  (* the exponent chosen by the division *)
  assert (EPq : (P = IZR (Z.pos mx) / IZR (Z.pos my) * bpow (ex - ey))%R).
  { unfold P. replace (ex - ey) with (ex + - ey) by lia.
    rewrite bpow_add, bpow_opp. field. lra. }
  assert (Hq2 : (IZR (Z.pos mx) / IZR (Z.pos my) < 2)%R).
  { apply IZR_lt in Hx2. apply IZR_le in Hy1.
    apply (Rmult_lt_reg_r (IZR (Z.pos my))); [done|].
    unfold Rdiv. rewrite Rmult_assoc, Rinv_l by lra. lra. }
  assert (Hee : -1021 <= ex - ey).
  { assert (bpow (-1021) < bpow (ex - ey + 1))%R as Hb.
    { rewrite bpow_add, bpow_1. pose proof (bpow_pos (ex - ey)). nra. }
    apply bpow_lt_inv in Hb. lia. }
  set (e' := ex - ey - 53).
  assert (Ecore : SFdiv_core_binary prec emax (Z.pos mx) ex (Z.pos my) ey
                  = (Z.pos mx * 2 ^ 53 / Z.pos my, e',
                     new_location (Z.pos my)
                       ((Z.pos mx * 2 ^ 53) mod Z.pos my))).
  { unfold SFdiv_core_binary. cbn [Zdigits2]. rewrite Hdx, Hdy.
    replace (53 + ex - (53 + ey)) with (ex - ey) by lia.
    rewrite fexp_normal by lia.
    rewrite Z.min_l by lia. fold e'.
    replace (ex - ey - e') with 53 by (unfold e'; lia).
    rewrite Z.shiftl_mul_pow2 by lia.
    unfold Z.div, Z.modulo.
    by destruct (Z.div_eucl (Z.pos mx * 2 ^ 53) (Z.pos my)). }
  set (q := Z.pos mx * 2 ^ 53 / Z.pos my) in *.
  set (r := (Z.pos mx * 2 ^ 53) mod Z.pos my) in *.
  assert (Hqr : Z.pos mx * 2 ^ 53 = Z.pos my * q + r)
    by (apply Z.div_mod; lia).
  assert (Hrb : 0 <= r < Z.pos my) by (apply Z.mod_pos_bound; lia).
  change (2 ^ 53) with 9007199254740992 in *.
  assert (Hqb : 2 ^ 52 <= q < 2 ^ 54).
  { change (2 ^ 52) with 4503599627370496.
    change (2 ^ 54) with 18014398509481984. nia. }
  destruct q as [|pq|pq] eqn:Eq; [lia| |lia]. rewrite <- Eq in *.
  set (xq := (IZR q + IZR r / IZR (Z.pos my))%R).
  assert (Exq : (xq * bpow e' = P)%R).
  { unfold xq. rewrite EPq. unfold e'.
    replace (ex - ey - 53) with (ex - ey + - (53)) by lia.
    rewrite bpow_add, bpow_opp, (bpow_IZR 53) by lia.
    change (2 ^ 53) with 9007199254740992.
    apply (f_equal IZR) in Hqr. rewrite plus_IZR, !mult_IZR in Hqr.
    assert (IZR q + IZR r / IZR (Z.pos my)
            = IZR (Z.pos mx) * IZR 9007199254740992 / IZR (Z.pos my))%R as ->.
    { rewrite Hqr. field. lra. }
    field. lra. }
  pose proof (new_location_spec (Z.pos my) r q ltac:(lia) Hrb) as Hin.
  fold xq in Hin.
  pose proof (digits2_pos_bounds pq) as [Hp1 Hp2].
  set (d := Z.pos (digits2_pos pq)) in *.
  assert (Hd53 : 53 <= d).
  { destruct (Z.lt_ge_cases d 53) as [Hlt|]; [|done].
    assert (2 ^ d <= 2 ^ 52) by (apply Z.pow_le_mono_r; lia). lia. }
  pose proof (inbetween_lower _ _ _ Hin) as Hxq.
  assert (HP1 : (bpow (d - 1 + e') <= P)%R).
  { rewrite <- Exq, bpow_add, (bpow_IZR (d - 1)) by lia.
    rewrite Eq in Hxq. apply IZR_le in Hp1. pose proof (bpow_pos e'). nra. }
  assert (HP2 : (P < bpow (d + e'))%R).
  { rewrite <- Exq, bpow_add, (bpow_IZR d) by lia.
    assert (IZR q + 1 <= IZR (2 ^ d))%R.
    { rewrite <- (plus_IZR q 1). apply IZR_le. lia. }
    pose proof (bpow_pos e'). nra. }
  assert (Hlo : -1021 < d + e') by (apply bpow_lt_inv; lra).
  assert (Hhi : d - 1 + e' < 1023) by (apply bpow_lt_inv; lra).
  rewrite Eq in Hin.
  destruct (BRA_normal false pq e' _ xq Hin)
    as (m' & e'' & Hres & Hdm & He' & Herr & _ & Hex);
    [fold d; lia|fold d; lia|fold d; lia|]. fold d in Herr, Hex.
  rewrite Exq in Herr, Hex.
  assert (Hn : normal (x / y)%float m' e'').
  { split; [|done]. rewrite FloatAxioms.div_spec, Ex, Ey. unfold SF64div, SFdiv.
    rewrite Ecore, Eq. exact Hres. }
  exists m', e''. split; [done|].
  rewrite (normal_B2R _ m' e'' Hn). split.
  - eapply Rle_trans; [exact Herr|].
    replace (d + e' - 54) with (-53 + (d - 1 + e')) by lia.
    rewrite bpow_add. pose proof (bpow_pos (-53)). nra.
  - intros k j HP Hk.
    assert (Hj : d + e' - 53 <= j).
    { assert (bpow (d - 1 + e') < bpow (53 + j))%R as Hb.
      { eapply Rle_lt_trans; [exact HP1|]. rewrite HP, bpow_add.
        rewrite (bpow_IZR 53) by lia.
        assert (IZR k < IZR (2 ^ 53))%R by (apply IZR_lt; lia).
        pose proof (bpow_pos j). nra. }
      apply bpow_lt_inv in Hb. lia. }
    apply (Hex (k * 2 ^ (j - (d + e' - 53)))).
    rewrite mult_IZR, <- bpow_IZR by lia.
    assert (xq = IZR k * bpow (j - e'))%R as ->.
    { replace (j - e') with (j + - e') by lia. rewrite bpow_add, bpow_opp.
      pose proof (bpow_pos e').
      apply (Rmult_eq_reg_r (bpow e')); [|lra]. rewrite Exq, HP. field. lra. }
    rewrite Rmult_assoc, <- bpow_add. f_equal. f_equal. lia.
Qed.

(** ** Conversions from integers *)

Lemma iter_xO (p d : positive) :
  Z.pos (Pos.iter xO p d) = Z.pos p * 2 ^ Z.pos d.
Proof.
  induction d as [|d IH] using Pos.peano_ind.
  - cbn [Pos.iter]. lia.
  - rewrite Pos.iter_succ, Pos2Z.inj_xO, IH, Pos2Z.inj_succ, Z.pow_succ_r by lia.
    lia.
Qed.

Lemma valid_normal (m : positive) (e : Z) (s : bool) :
  Z.pos (digits2_pos m) = 53 -> -1074 <= e <= 971 ->
  SpecFloat.valid_binary prec emax (S754_finite s m e) = true.
Proof.
  intros Hd He.
  unfold SpecFloat.valid_binary, SpecFloat.bounded, SpecFloat.canonical_mantissa.
  rewrite Hd. apply andb_true_intro. split.
  - apply Z.eqb_eq. unfold fexp, SpecFloat.emin, prec, emax. lia.
  - apply Z.leb_le. unfold prec, emax. lia.
Qed.

Lemma of_int_correct (z : Z) :
  0 < z < 2 ^ 53 ->
  exists m e, normal (F64.of_int z) m e /\ B2R (F64.of_int z) = IZR z.
Proof.
  intros Hz. destruct z as [|p|p]; [lia| |lia].
  pose proof (digits2_pos_bounds p) as [Hp1 Hp2].
  set (dp := Z.pos (digits2_pos p)) in *.
  assert (Hdp : 1 <= dp <= 53).
  { split; [unfold dp; lia|].
    destruct (Z.le_gt_cases dp 53) as [|Hgt]; [done|].
    assert (2 ^ 53 <= 2 ^ (dp - 1)) by (apply Z.pow_le_mono_r; lia). lia. }
  assert (exists mz,
            shl_align p 0 (fexp prec emax (dp + 0)) = (mz, dp - 53)
            /\ Z.pos mz = Z.pos p * 2 ^ (53 - dp)) as (mz & Hal & Hmz).
  { unfold shl_align. rewrite Z.add_0_r, fexp_normal, Z.sub_0_r by lia.
    destruct (dp - 53) as [|k|k] eqn:Ek; [|lia|].
    - exists p. split; [done|]. replace (53 - dp) with 0 by lia. lia.
    - exists (Pos.iter xO p k). split; [done|].
      rewrite iter_xO. do 2 f_equal. lia. }
  assert (Hmzb : 2 ^ 52 <= Z.pos mz < 2 ^ 53).
  { rewrite Hmz.
    assert (E52 : 2 ^ 52 = 2 ^ (dp - 1) * 2 ^ (53 - dp)).
    { rewrite <- Z.pow_add_r by lia. f_equal. lia. }
    assert (E53 : 2 ^ 53 = 2 ^ dp * 2 ^ (53 - dp)).
    { rewrite <- Z.pow_add_r by lia. f_equal. lia. }
    rewrite E52, E53.
    assert (0 < 2 ^ (53 - dp)) by (apply Z.pow_pos_nonneg; lia). nia. }
  assert (Hdz : Z.pos (digits2_pos mz) = 53)
    by (apply digits2_pos_unique; lia).
  destruct (BRA_normal false mz (dp - 53) loc_Exact (IZR (Z.pos mz)))
    as (m' & e' & Hres & Hdm & He' & _ & _ & Hex);
    [done|rewrite Hdz; lia|rewrite Hdz; lia|rewrite Hdz; lia|].
  assert (Hsf : Prim2SF (F64.of_int (Z.pos p)) = S754_finite false m' e').
  { unfold F64.of_int. cbn [binary_normalize]. unfold binary_round.
    fold dp. rewrite Hal, Hres. apply Prim2SF_SF2Prim.
    by apply valid_normal. }
  exists m', e'. split; [by split|].
  unfold B2R. rewrite Hsf. cbn [SF2R]. rewrite Rmult_1_l.
  rewrite (Hex (Z.pos mz)).
  - rewrite Hmz, mult_IZR, Rmult_assoc, <- bpow_IZR, <- bpow_add by lia.
    replace (53 - dp + (dp - 53)) with 0 by lia. rewrite bpow_0. lra.
  - rewrite Hdz. change (53 - 53) with 0. rewrite bpow_0. lra.
Qed.

(** ** Comparisons *)

Lemma SFcompare_normal (x y : float) mx ex my ey :
  normal x mx ex -> normal y my ey ->
  match SFcompare (Prim2SF x) (Prim2SF y) with
  | Some Lt => (B2R x < B2R y)%R
  | Some Eq => B2R x = B2R y
  | Some Gt => (B2R y < B2R x)%R
  | None => False
  end.
Proof.
  intros Hx Hy.
  pose proof (normal_bounds x mx ex Hx) as Hbx.
  pose proof (normal_bounds y my ey Hy) as Hby.
  rewrite (normal_B2R x mx ex Hx), (normal_B2R y my ey Hy) in *.
  destruct Hx as [-> _], Hy as [-> _]. cbn [SFcompare].
  destruct (Z.compare_spec ex ey) as [->|Hlt|Hgt].
  - change (Pos.compare_cont Eq mx my) with (Pos.compare mx my).
    pose proof (bpow_pos ey).
    destruct (Pos.compare_spec mx my) as [->|H1|H1].
    + done.
    + assert (IZR (Z.pos mx) < IZR (Z.pos my))%R by (apply IZR_lt; lia). nra.
    + assert (IZR (Z.pos my) < IZR (Z.pos mx))%R by (apply IZR_lt; lia). nra.
  - assert (bpow (ex + 53) <= bpow (ey + 52))%R by (apply bpow_le; lia). lra.
  - assert (bpow (ey + 53) <= bpow (ex + 52))%R by (apply bpow_le; lia). lra.
Qed.

Lemma ltb_normal (x y : float) mx ex my ey :
  normal x mx ex -> normal y my ey ->
  if (x <? y)%float then (B2R x < B2R y)%R else (B2R y <= B2R x)%R.
Proof.
  intros Hx Hy. pose proof (SFcompare_normal x y _ _ _ _ Hx Hy) as H.
  rewrite FloatAxioms.ltb_spec. unfold SFltb.
  destruct (SFcompare _ _) as [[]|]; try done; lra.
Qed.

Lemma leb_normal (x y : float) mx ex my ey :
  normal x mx ex -> normal y my ey ->
  if (x <=? y)%float then (B2R x <= B2R y)%R else (B2R y < B2R x)%R.
Proof.
  intros Hx Hy. pose proof (SFcompare_normal x y _ _ _ _ Hx Hy) as H.
  rewrite FloatAxioms.leb_spec. unfold SFleb.
  destruct (SFcompare _ _) as [[]|]; try done; lra.
Qed.

Lemma eqb_refl_normal (x : float) m e : normal x m e -> (x =? x)%float = true.
Proof.
  intros [H _]. rewrite FloatAxioms.eqb_spec, H. unfold SFeqb. cbn [SFcompare].
  by rewrite Z.compare_refl, Pos.compare_cont_refl.
Qed.

Lemma Prim2SF_zero : Prim2SF 0 = S754_zero false.
Proof. reflexivity. Qed.

Lemma Prim2SF_MaxFloat64 :
  Prim2SF F64.MaxFloat64 = S754_finite false 9007199254740991 971.
Proof. reflexivity. Qed.

Lemma Prim2SF_neg_MaxFloat64 :
  Prim2SF (- F64.MaxFloat64) = S754_finite true 9007199254740991 971.
Proof. reflexivity. Qed.

Lemma normal_MaxFloat64 : normal F64.MaxFloat64 9007199254740991 971.
Proof. split; reflexivity. Qed.

Lemma normal_le_Max (x : float) m e :
  normal x m e -> (B2R x <= B2R F64.MaxFloat64)%R.
Proof.
  intros Hx. pose proof (normal_exponent x m e Hx) as He.
  rewrite (normal_B2R x m e Hx), (normal_B2R _ _ _ normal_MaxFloat64).
  destruct Hx as [_ Hd]. pose proof (digits2_pos_bounds m) as [_ H2].
  rewrite Hd in H2. change (2 ^ 53) with 9007199254740992 in H2.
  assert (IZR (Z.pos m) <= IZR 9007199254740991)%R by (apply IZR_le; lia).
  assert (bpow e <= bpow 971)%R by (apply bpow_le; lia).
  assert (0 < IZR (Z.pos m))%R by (apply IZR_lt; lia).
  pose proof (bpow_pos e). nra.
Qed.

(** A positive normal float passes every test of a "bad" scale. *)
Lemma normal_not_special (x : float) m e :
  normal x m e ->
  (x <=? 0)%float = false /\ (x =? 0)%float = false
  /\ F64.IsInf x 0 = false /\ F64.IsInf x (-1) = false
  /\ F64.IsNaN x = false /\ F64.Signbit x = false.
Proof.
  intros Hx. pose proof (normal_le_Max x m e Hx) as Hmax.
  pose proof (ltb_normal _ _ _ _ _ _ normal_MaxFloat64 Hx) as Hlt.
  pose proof (eqb_refl_normal x m e Hx) as Heq.
  destruct Hx as [Hx Hd].
  assert (Hneg : (x <? - F64.MaxFloat64)%float = false).
  { by rewrite FloatAxioms.ltb_spec, Hx, Prim2SF_neg_MaxFloat64. }
  assert (Hpos : (F64.MaxFloat64 <? x)%float = false).
  { destruct (F64.MaxFloat64 <? x)%float; [lra|done]. }
  repeat split.
  - by rewrite FloatAxioms.leb_spec, Hx, Prim2SF_zero.
  - by rewrite FloatAxioms.eqb_spec, Hx, Prim2SF_zero.
  - unfold F64.IsInf. by rewrite Hneg, Hpos.
  - unfold F64.IsInf. by rewrite Hneg, Hpos.
  - unfold F64.IsNaN. by rewrite Heq.
  - unfold F64.Signbit. by rewrite Hx.
Qed.

Lemma Min_normal (x y : float) mx ex my ey :
  normal x mx ex -> normal y my ey ->
  F64.Min x y = (if (x <? y)%float then x else y)
  /\ B2R (F64.Min x y) = Rmin (B2R x) (B2R y).
Proof.
  intros Hx Hy.
  destruct (normal_not_special x mx ex Hx) as (_ & Hx0 & _ & Hxi & Hxn & _).
  destruct (normal_not_special y my ey Hy) as (_ & _ & _ & Hyi & Hyn & _).
  pose proof (ltb_normal x y _ _ _ _ Hx Hy) as Hlt.
  assert (E : F64.Min x y = if (x <? y)%float then x else y).
  { unfold F64.Min. by rewrite Hxi, Hyi, Hxn, Hyn, Hx0. }
  split; [done|]. rewrite E.
  destruct (x <? y)%float.
  - by rewrite Rmin_left by lra.
  - by rewrite Rmin_right by lra.
Qed.

(** ** Conversions to integers *)

Lemma to_int_floor (f : float) m e :
  Prim2SF f = S754_finite false m e -> (B2R f < IZR (2 ^ 63))%R ->
  (IZR (F64.to_int f) <= B2R f < IZR (F64.to_int f) + 1)%R
  /\ 0 <= F64.to_int f.
Proof.
  intros Hf Hlt. unfold B2R in *. unfold F64.to_int. rewrite Hf in *.
  cbn [SF2R] in *. rewrite Rmult_1_l in *.
  set (a := if 0 <=? e then Z.pos m * 2 ^ e else Z.pos m / 2 ^ (- e)).
  assert (Ha : (IZR a <= IZR (Z.pos m) * bpow e < IZR a + 1)%R /\ 0 <= a).
  { unfold a. destruct (Z.leb_spec 0 e) as [He|He].
    - rewrite mult_IZR, <- bpow_IZR by lia. split; [lra|].
      assert (0 < 2 ^ e) by (apply Z.pow_pos_nonneg; lia). lia.
    - set (D := 2 ^ (- e)).
      assert (HD : 0 < D) by (apply Z.pow_pos_nonneg; lia).
      assert (Eb : bpow e = (/ IZR D)%R).
      { unfold D. rewrite <- bpow_IZR, <- bpow_opp by lia. f_equal. lia. }
      pose proof (Z.div_mod (Z.pos m) D ltac:(lia)) as Hdm.
      pose proof (Z.mod_pos_bound (Z.pos m) D HD) as Hmod.
      set (q := Z.pos m / D) in *. set (r := Z.pos m mod D) in *.
      assert (HD' : (0 < IZR D)%R) by (apply IZR_lt; lia).
      assert (Hr1 : (0 <= IZR r)%R) by (apply IZR_le; lia).
      assert (Hr2 : (IZR r < IZR D)%R) by (apply IZR_lt; lia).
      apply (f_equal IZR) in Hdm. rewrite plus_IZR, mult_IZR in Hdm.
      rewrite Eb, Hdm. split.
      + split.
        * apply (Rmult_le_reg_r (IZR D)); [done|]. field_simplify; [|lra]. lra.
        * apply (Rmult_lt_reg_r (IZR D)); [done|]. field_simplify; [|lra]. lra.
      + apply Z.div_pos; lia. }
  destruct Ha as [Ha Ha0].
  assert (a <= GoInt.max_int).
  { assert (IZR a < IZR (2 ^ 63))%R as H by lra. apply lt_IZR in H.
    unfold GoInt.max_int. lia. }
  destruct (Z.leb_spec GoInt.min_int a) as [_|Hb];
    [|unfold GoInt.min_int in Hb; lia].
  destruct (Z.leb_spec a GoInt.max_int) as [_|Hb]; [|lia].
  cbn [andb]. done.
Qed.

Lemma to_int_exact (f : float) m e (n : Z) :
  Prim2SF f = S754_finite false m e -> B2R f = IZR n -> n < 2 ^ 63 ->
  F64.to_int f = n.
Proof.
  intros Hf Hn Hlt.
  destruct (to_int_floor f m e Hf) as [[H1 H2] _].
  { rewrite Hn. by apply IZR_lt. }
  rewrite Hn in H1, H2. apply le_IZR in H1.
  rewrite <- (plus_IZR _ 1) in H2. apply lt_IZR in H2. lia.
Qed.

Lemma to_int_Round (f : float) m e :
  normal f m e -> (B2R f < IZR (2 ^ 62))%R ->
  (IZR (F64.to_int (F64.Round f)) - 1 / 2 <= B2R f
   < IZR (F64.to_int (F64.Round f)) + 1 / 2)%R
  /\ 0 <= F64.to_int (F64.Round f).
Proof.
  intros Hn Hlt. pose proof Hn as [Hf Hd].
  pose proof (digits2_pos_bounds m) as [Hm1 Hm2]. rewrite Hd in Hm1, Hm2.
  change (2 ^ (53 - 1)) with 4503599627370496 in Hm1.
  change (2 ^ 53) with 9007199254740992 in Hm2.
  unfold F64.Round. rewrite Hf.
  destruct (Z.leb_spec 0 e) as [He|He].
  - (* already an integer *)
    assert (E : B2R f = IZR (Z.pos m * 2 ^ e)).
    { rewrite (normal_B2R f m e Hn), mult_IZR, <- bpow_IZR by lia. done. }
    assert (Z.pos m * 2 ^ e < 2 ^ 62).
    { apply lt_IZR. by rewrite <- E. }
    rewrite (to_int_exact f m e _ Hf E) by lia. rewrite <- E. split; [lra|].
    assert (0 < 2 ^ e) by (apply Z.pow_pos_nonneg; lia). lia.
  - set (D := 2 ^ (- e)).
    assert (HD : 2 <= D).
    { unfold D. replace (- e) with (1 + (- e - 1)) by lia.
      rewrite Z.pow_add_r by lia.
      assert (0 < 2 ^ (- e - 1)) by (apply Z.pow_pos_nonneg; lia). lia. }
    assert (Eb : bpow e = (/ IZR D)%R).
    { unfold D. rewrite <- bpow_IZR, <- bpow_opp by lia. f_equal. lia. }
    pose proof (Z.div_mod (Z.pos m) D ltac:(lia)) as Hdm.
    pose proof (Z.mod_pos_bound (Z.pos m) D ltac:(lia)) as Hmod.
    set (q := Z.pos m / D) in *. set (r := Z.pos m mod D) in *.
    set (N := if D <=? 2 * r then q + 1 else q).
    assert (Hq : 0 <= q < 2 ^ 52).
    { change (2 ^ 52) with 4503599627370496. split.
      - apply Z.div_pos; lia.
      - apply Z.div_lt_upper_bound; lia. }
    change (2 ^ 52) with 4503599627370496 in Hq.
    assert (HD' : (0 < IZR D)%R) by (apply IZR_lt; lia).
    assert (Hval : B2R f = (IZR q + IZR r / IZR D)%R).
    { rewrite (normal_B2R f m e Hn), Eb, Hdm, plus_IZR, mult_IZR.
      field. lra. }
    assert (HN : (IZR N - 1 / 2 <= B2R f < IZR N + 1 / 2)%R /\ 0 <= N < 2 ^ 53).
    { rewrite Hval. change (2 ^ 53) with 9007199254740992.
      assert (Er : (IZR r = IZR r / IZR D * IZR D)%R) by (field; lra).
      assert (Hr0 : (0 <= IZR r)%R) by (apply IZR_le; lia).
      assert (Hr1 : (IZR r < IZR D)%R) by (apply IZR_lt; lia).
      unfold N. destruct (Z.leb_spec D (2 * r)) as [H|H].
      - apply IZR_le in H. rewrite mult_IZR in H. rewrite plus_IZR.
        split; [|lia]. split; nra.
      - apply IZR_lt in H. rewrite mult_IZR in H.
        split; [|lia]. split; nra. }
    destruct HN as [HN HNb].
    destruct (Z.eq_dec N 0) as [E0|N0].
    + rewrite E0 in *.
      change (F64.to_int (SF2Prim (binary_normalize prec emax 0 0 false)))
        with 0. split; [lra|done].
    + destruct (of_int_correct N ltac:(lia)) as (m' & e' & Hn' & EN).
      fold (F64.of_int N).
      rewrite (to_int_exact (F64.of_int N) m' e' N (proj1 Hn') EN) by lia.
      split; [done|lia].
Qed.

(** ** Ratios and scaled dimensions *)

Lemma Rabs_le_inv (x a : R) : (Rabs x <= a)%R -> (- a <= x <= a)%R.
Proof. unfold Rabs. destruct (Rcase_abs x); lra. Qed.

Lemma bpow_m53 : bpow (-53) = (/ 9007199254740992)%R.
Proof.
  change (bpow (-53)) with (bpow (- (53))).
  rewrite (bpow_opp 53), (bpow_IZR 53) by lia. reflexivity.
Qed.

Lemma ratio_correct (a b : Z) :
  0 < a < 2 ^ 53 -> 0 < b < 2 ^ 53 ->
  exists m e,
    normal (F64.of_int a / F64.of_int b)%float m e
    /\ (Rabs (B2R (F64.of_int a / F64.of_int b)%float - IZR a / IZR b)
        <= bpow (-53) * (IZR a / IZR b))%R.
Proof.
  intros Ha Hb.
  destruct (of_int_correct a Ha) as (ma & ea & Hna & Ea).
  destruct (of_int_correct b Hb) as (mb & eb & Hnb & Eb).
  assert (Ha1 : (1 <= IZR a)%R) by (apply IZR_le; lia).
  assert (Ha2 : (IZR a < 9007199254740992)%R).
  { apply (IZR_lt a (2 ^ 53)). lia. }
  assert (Hb1 : (1 <= IZR b)%R) by (apply IZR_le; lia).
  assert (Hb2 : (IZR b < 9007199254740992)%R).
  { apply (IZR_lt b (2 ^ 53)). lia. }
  destruct (div_correct _ _ _ _ _ _ Hna Hnb) as (m & e & Hn & Herr & _).
  - rewrite Ea, Eb. split.
    + apply Rle_trans with (bpow (-53)); [apply bpow_le; lia|].
      rewrite bpow_m53. apply (Rmult_le_reg_r (IZR b)); [lra|].
      unfold Rdiv. rewrite Rmult_assoc, Rinv_l by lra. 
      apply (Rmult_le_reg_l 9007199254740992); [lra|].
      rewrite <- Rmult_assoc, Rinv_r by lra. lra.
    + apply Rlt_le_trans with (bpow 53); [|apply bpow_le; lia].
      rewrite (bpow_IZR 53) by lia. change (2 ^ 53) with 9007199254740992.
      apply (Rmult_lt_reg_r (IZR b)); [lra|].
      unfold Rdiv. rewrite Rmult_assoc, Rinv_l by lra. nra.
  - exists m, e. split; [done|]. by rewrite Ea, Eb in Herr.
Qed.

(** The dimension [D] scaled by a factor of at most [M / D], up to one
    rounding, rounds to at most [M]; and to [M] exactly when the factor is
    [M / D] up to one rounding. *)
Lemma scaled_dim (D M : Z) (s : float) ms es :
  0 < D < 2 ^ 31 -> 0 < M < 2 ^ 31 -> normal s ms es ->
  (bpow (-40) <= B2R s)%R ->
  (B2R s <= IZR M / IZR D * (1 + bpow (-53)))%R ->
  let n := F64.to_int (F64.Round (F64.of_int D * s)%float) in
  0 <= n <= M
  /\ ((IZR M / IZR D * (1 - bpow (-53)) <= B2R s)%R -> n = M).
Proof.
  intros HD HM Hs Hlo Hup n.
  destruct (of_int_correct D ltac:(lia)) as (md & ed & Hnd & Ed).
  assert (HD1 : (1 <= IZR D)%R) by (apply IZR_le; lia).
  assert (HD2 : (IZR D < 2147483648)%R) by (apply (IZR_lt D (2 ^ 31)); lia).
  assert (HM1 : (1 <= IZR M)%R) by (apply IZR_le; lia).
  assert (HM2 : (IZR M < 2147483648)%R) by (apply (IZR_lt M (2 ^ 31)); lia).
  pose proof (bpow_pos (-40)) as H40.
  set (u := bpow (-53)) in *.
  assert (Hu : u = (/ 9007199254740992)%R) by apply bpow_m53.
  assert (Hu0 : (0 < u)%R) by apply bpow_pos.
  assert (Hu1 : (u * 9007199254740992 = 1)%R) by (rewrite Hu; field).
  set (r := (IZR M / IZR D)%R) in *.
  assert (Er : (r * IZR D = IZR M)%R) by (unfold r; field; lra).
  assert (Hr0 : (0 < r)%R) by (unfold r; apply Rdiv_lt_0_compat; lra).
  set (P := (IZR D * B2R s)%R).
  assert (HP0 : (bpow (-40) <= P)%R) by (unfold P; nra).
  assert (HPup : (P <= IZR M * (1 + u))%R) by (unfold P; nra).
  destruct (mul_correct _ _ _ _ _ _ Hnd Hs) as (m & e & Hn & Herr & _).
  { rewrite Ed. fold P. split.
    - apply Rle_trans with (bpow (-40)); [apply bpow_le; lia|done].
    - apply Rlt_le_trans with (bpow 32); [|apply bpow_le; lia].
      rewrite (bpow_IZR 32) by lia. change (2 ^ 32) with 4294967296. nra. }
  rewrite Ed in Herr. fold P in Herr. fold u in Herr.
  set (y := B2R (F64.of_int D * s)%float) in *.
  apply Rabs_le_inv in Herr.
  assert (Hy : (y <= IZR M * (1 + u) * (1 + u))%R) by nra.
  destruct (to_int_Round _ m e Hn) as [Hrnd Hn0].
  { fold y. apply Rle_lt_trans with (IZR M * (1 + u) * (1 + u))%R; [done|].
    change (2 ^ 62) with 4611686018427387904. nra. }
  fold y in Hrnd. fold n in Hrnd, Hn0.
  split.
  - split; [done|].
    assert (IZR n < IZR (M + 1))%R as H; [|apply lt_IZR in H; lia].
    rewrite plus_IZR. nra.
  - intros Hlow.
    assert (HPlo : (IZR M * (1 - u) <= P)%R) by (unfold P; nra).
    assert (Hy' : (IZR M * (1 - u) * (1 - u) <= y)%R) by nra.
    assert (IZR n < IZR (M + 1))%R as H1 by (rewrite plus_IZR; nra).
    assert (IZR (M - 1) < IZR n)%R as H2 by (rewrite minus_IZR; nra).
    apply lt_IZR in H1, H2. lia.
Qed.

Lemma ratio_bounds (a b : Z) :
  0 < a < 2 ^ 31 -> 0 < b < 2 ^ 31 ->
  exists m e,
    normal (F64.of_int a / F64.of_int b)%float m e
    /\ (IZR a / IZR b * (1 - bpow (-53))
        <= B2R (F64.of_int a / F64.of_int b)%float
        <= IZR a / IZR b * (1 + bpow (-53)))%R
    /\ (bpow (-40) <= B2R (F64.of_int a / F64.of_int b)%float)%R.
Proof.
  intros Ha Hb.
  destruct (ratio_correct a b ltac:(lia) ltac:(lia)) as (m & e & Hn & Herr).
  exists m, e. split; [done|].
  apply Rabs_le_inv in Herr.
  assert (Ha1 : (1 <= IZR a)%R) by (apply IZR_le; lia).
  assert (Hb1 : (1 <= IZR b)%R) by (apply IZR_le; lia).
  assert (Hb2 : (IZR b < 2147483648)%R) by (apply (IZR_lt b (2 ^ 31)); lia).
  set (r := (IZR a / IZR b)%R) in *.
  assert (Er : (r * IZR b = IZR a)%R) by (unfold r; field; lra).
  assert (Hu : bpow (-53) = (/ 9007199254740992)%R) by apply bpow_m53.
  set (u := bpow (-53)) in *.
  assert (Hu1 : (u * 9007199254740992 = 1)%R) by (rewrite Hu; field).
  assert (Hu0 : (0 < u)%R) by apply bpow_pos.
  split; [split; lra|].
  assert (E40 : bpow (-40) = (/ 1099511627776)%R).
  { change (bpow (-40)) with (bpow (- (40))).
    rewrite (bpow_opp 40), (bpow_IZR 40) by lia. reflexivity. }
  rewrite E40.
  assert (Hr : (/ 2147483648 < r)%R).
  { apply (Rmult_lt_reg_r (IZR b)); [lra|]. rewrite Er.
    apply (Rmult_lt_reg_l 2147483648); [lra|].
    rewrite <- Rmult_assoc, Rinv_r by lra. lra. }
  assert (/ 1099511627776 <= / 2147483648 * (1 / 2))%R by lra.
  nra.
Qed.

(** A factor within one rounding of [b / c], applied to [a] and rounded to
    an integer, gives an integer nearest to the exact [a * b / c]. *)
Lemma scaled_nearest (a b c : Z) (s : float) ms es :
  0 < a < 2 ^ 31 -> 0 < b < 2 ^ 31 -> 0 < c < 2 ^ 31 -> a * b < 2 ^ 50 ->
  normal s ms es ->
  (bpow (-40) <= B2R s)%R ->
  (IZR b / IZR c * (1 - bpow (-53)) <= B2R s
   <= IZR b / IZR c * (1 + bpow (-53)))%R ->
  let n := F64.to_int (F64.Round (F64.of_int a * s)%float) in
  0 <= n /\ 2 * Z.abs (n * c - a * b) <= c.
Proof.
  intros Ha Hb Hc Hab Hns Hs40 [Hs1 Hs2] n.
  destruct (of_int_correct a ltac:(lia)) as (ma & ea & Hna & Ea).
  assert (Ha1 : (1 <= IZR a)%R) by (apply IZR_le; lia).
  assert (Hb1 : (1 <= IZR b)%R) by (apply IZR_le; lia).
  assert (Hc1 : (1 <= IZR c)%R) by (apply IZR_le; lia).
  assert (HAB : (IZR a * IZR b < 1125899906842624)%R).
  { rewrite <- mult_IZR. apply (IZR_lt (a * b) (2 ^ 50)). lia. }
  assert (Hu : bpow (-53) = (/ 9007199254740992)%R) by apply bpow_m53.
  set (u := bpow (-53)) in *.
  assert (Hu1 : (u * 9007199254740992 = 1)%R) by (rewrite Hu; field).
  assert (Hu0 : (0 < u)%R) by apply bpow_pos.
  assert (Hu2 : (u < 1)%R) by lra.
  set (r := (IZR b / IZR c)%R) in *.
  assert (Er : (r * IZR c = IZR b)%R) by (unfold r; field; lra).
  assert (Hr0 : (0 < r)%R) by (unfold r; apply Rdiv_lt_0_compat; lra).
  pose proof (bpow_pos (-40)) as H40.
  assert (Hs0 : (0 < B2R s)%R) by lra.
  set (P := (IZR a * B2R s)%R).
  assert (HP0 : (0 < P)%R) by (unfold P; nra).
  assert (Sc1 : (B2R s * IZR c <= IZR b * (1 + u))%R) by (rewrite <- Er; nra).
  assert (Sc2 : (IZR b * (1 - u) <= B2R s * IZR c)%R) by (rewrite <- Er; nra).
  assert (HPc1 : (P * IZR c <= IZR a * IZR b * (1 + u))%R) by (unfold P; nra).
  assert (HPc2 : (IZR a * IZR b * (1 - u) <= P * IZR c)%R) by (unfold P; nra).
  assert (HPc : (P <= P * IZR c)%R) by nra.
  destruct (mul_correct _ _ _ _ _ _ Hna Hns) as (m & e & Hn & Herr & _).
  { rewrite Ea. fold P. split.
    - apply Rle_trans with (bpow (-40)); [apply bpow_le; lia|]. unfold P. nra.
    - apply Rlt_le_trans with (bpow 51); [|apply bpow_le; lia].
      rewrite (bpow_IZR 51) by lia. change (2 ^ 51) with 2251799813685248.
      nra. }
  rewrite Ea in Herr. fold P in Herr. fold u in Herr.
  set (y := B2R (F64.of_int a * s)%float) in *.
  apply Rabs_le_inv in Herr.
  assert (Hyc1 : (y * IZR c <= IZR a * IZR b * (1 + u) * (1 + u))%R).
  { apply Rle_trans with (P * (1 + u) * IZR c)%R.
    - apply Rmult_le_compat_r; lra.
    - replace (P * (1 + u) * IZR c)%R with (P * IZR c * (1 + u))%R by ring.
      apply Rmult_le_compat_r; lra. }
  assert (Hyc2 : (IZR a * IZR b * (1 - u) * (1 - u) <= y * IZR c)%R).
  { apply Rle_trans with (P * (1 - u) * IZR c)%R.
    - replace (P * (1 - u) * IZR c)%R with (P * IZR c * (1 - u))%R by ring.
      apply Rmult_le_compat_r; lra.
    - apply Rmult_le_compat_r; lra. }
  assert (Hy0 : (0 <= y)%R) by nra.
  assert (Hyc : (y <= y * IZR c)%R) by nra.
  assert (Habu : (IZR a * IZR b * u < 1 / 8)%R) by nra.
  assert (Habuu : (IZR a * IZR b * u * u < 1 / 8)%R) by nra.
  destruct (to_int_Round _ m e Hn) as [[Hr1 Hr2] Hn0].
  { fold y. change (2 ^ 62) with 4611686018427387904. nra. }
  fold y in Hr1, Hr2. fold n in Hr1, Hr2, Hn0.
  split; [done|].
  assert (Hnc1 : (IZR n * IZR c <= y * IZR c + IZR c / 2)%R) by nra.
  assert (Hnc2 : (y * IZR c - IZR c / 2 < IZR n * IZR c)%R) by nra.
  assert (IZR (2 * (n * c - a * b)) < IZR (c + 1))%R as Hup.
  { rewrite plus_IZR, mult_IZR, minus_IZR, !mult_IZR. nra. }
  assert (IZR (2 * (a * b - n * c)) < IZR (c + 1))%R as Hdn.
  { rewrite plus_IZR, mult_IZR, minus_IZR, !mult_IZR. nra. }
  apply lt_IZR in Hup, Hdn. lia.
Qed.

(** The same in the reals: the integer is within one half of the exact
    quotient. *)
Lemma nearest_quotient (n a b c : Z) :
  0 < c -> 2 * Z.abs (n * c - a * b) <= c ->
  (Rabs (IZR n - IZR a * (IZR b / IZR c)) <= 1 / 2)%R.
Proof.
  intros Hc H.
  assert (Hc' : (0 < IZR c)%R) by (apply IZR_lt; lia).
  assert (H1 : (IZR (2 * (n * c - a * b)) <= IZR c)%R) by (apply IZR_le; lia).
  assert (H2 : (IZR (2 * (a * b - n * c)) <= IZR c)%R) by (apply IZR_le; lia).
  rewrite mult_IZR, minus_IZR, !mult_IZR in H1, H2.
  replace (IZR n - IZR a * (IZR b / IZR c))%R
    with ((IZR n * IZR c - IZR a * IZR b) / IZR c)%R by (field; lra).
  apply Rabs_le. split.
  - apply (Rmult_le_reg_r (IZR c)); [done|].
    unfold Rdiv. rewrite Rmult_assoc, Rinv_l by lra. lra.
  - apply (Rmult_le_reg_r (IZR c)); [done|].
    unfold Rdiv. rewrite Rmult_assoc, Rinv_l by lra. lra.
Qed.

(** The sizes the fitter computes: within the stated range the guard on the
    scale never fires, each side is the rounded product floored at one
    pixel, no side exceeds its bound, and one side meets its bound exactly. *)
Lemma fitSize_spec (w h maxW maxH : Z) :
  0 < w < 2 ^ 31 -> 0 < h < 2 ^ 31 ->
  0 < maxW < 2 ^ 31 -> 0 < maxH < 2 ^ 31 ->
  let scale :=
    F64.Min (F64.of_int maxW / F64.of_int w) (F64.of_int maxH / F64.of_int h) in
  let newW := F64.to_int (F64.Round (F64.of_int w * scale)) in
  let newH := F64.to_int (F64.Round (F64.of_int h * scale)) in
  fitSize w h maxW maxH = (Z.max 1 newW, Z.max 1 newH)
  /\ 0 <= newW <= maxW /\ 0 <= newH <= maxH
  /\ (newW = maxW \/ newH = maxH).
Proof.
  intros Hw Hh HmW HmH scale newW newH.
  destruct (ratio_bounds maxW w HmW Hw) as (m1 & e1 & Hn1 & Hb1 & Hl1).
  destruct (ratio_bounds maxH h HmH Hh) as (m2 & e2 & Hn2 & Hb2 & Hl2).
  set (sw := (F64.of_int maxW / F64.of_int w)%float) in *.
  set (sh := (F64.of_int maxH / F64.of_int h)%float) in *.
  destruct (Min_normal sw sh _ _ _ _ Hn1 Hn2) as [Emin Ermin].
  fold scale in Emin, Ermin.
  assert (exists m e, normal scale m e) as (ms & es & Hns).
  { rewrite Emin. destruct (sw <? sh)%float; eauto. }
  destruct (normal_not_special scale ms es Hns)
    as (Hg1 & _ & Hg2 & _ & Hg3 & _).
  assert (Hsw : (B2R scale <= B2R sw)%R) by (rewrite Ermin; apply Rmin_l).
  assert (Hsh : (B2R scale <= B2R sh)%R) by (rewrite Ermin; apply Rmin_r).
  assert (Hlo : (bpow (-40) <= B2R scale)%R).
  { rewrite Ermin. by apply Rmin_glb. }
  destruct (scaled_dim w maxW scale ms es Hw HmW Hns Hlo) as [HW HWeq];
    [lra|].
  destruct (scaled_dim h maxH scale ms es Hh HmH Hns Hlo) as [HH HHeq];
    [lra|].
  fold newW in HW, HWeq. fold newH in HH, HHeq.
  split; [|split; [done|split; [done|]]].
  - unfold fitSize. fold sw sh scale. rewrite Hg1, Hg2, Hg3. cbn [orb].
    fold newW newH. f_equal.
    + destruct (Z.leb_spec newW 0); lia.
    + destruct (Z.leb_spec newH 0); lia.
  - destruct (Rle_dec (B2R sw) (B2R sh)) as [Hle|Hgt].
    + left. apply HWeq. rewrite Ermin, Rmin_left by done. lra.
    + right. apply HHeq. rewrite Ermin, Rmin_right by lra. lra.
Qed.

(** While the cross products stay below 2^50, each rounded product is an
    integer nearest to the exact one, [d * min(maxW / w, maxH / h)] over the
    reals. *)
Lemma fitSize_nearest (w h maxW maxH : Z) :
  0 < w < 2 ^ 31 -> 0 < h < 2 ^ 31 ->
  0 < maxW < 2 ^ 31 -> 0 < maxH < 2 ^ 31 ->
  w * maxH < 2 ^ 50 -> h * maxW < 2 ^ 50 ->
  let scale :=
    F64.Min (F64.of_int maxW / F64.of_int w) (F64.of_int maxH / F64.of_int h) in
  let newW := F64.to_int (F64.Round (F64.of_int w * scale)) in
  let newH := F64.to_int (F64.Round (F64.of_int h * scale)) in
  let exact := Rmin (IZR maxW / IZR w) (IZR maxH / IZR h) in
  (Rabs (IZR newW - IZR w * exact) <= 1 / 2)%R
  /\ (Rabs (IZR newH - IZR h * exact) <= 1 / 2)%R.
Proof.
  intros Hw Hh HmW HmH HwH HhW scale newW newH exact.
  destruct (ratio_bounds maxW w HmW Hw) as (m1 & e1 & Hn1 & Hb1 & Hl1).
  destruct (ratio_bounds maxH h HmH Hh) as (m2 & e2 & Hn2 & Hb2 & Hl2).
  set (sw := (F64.of_int maxW / F64.of_int w)%float) in *.
  set (sh := (F64.of_int maxH / F64.of_int h)%float) in *.
  destruct (Min_normal sw sh _ _ _ _ Hn1 Hn2) as [Emin Ermin].
  fold scale in Emin, Ermin.
  assert (exists m e, normal scale m e) as (ms & es & Hns).
  { rewrite Emin. destruct (sw <? sh)%float; eauto. }
  assert (Hlo : (bpow (-40) <= B2R scale)%R).
  { rewrite Ermin. by apply Rmin_glb. }
  pose proof (bpow_pos (-53)) as Hu0.
  assert (Hu : bpow (-53) = (/ 9007199254740992)%R) by apply bpow_m53.
  set (u := bpow (-53)) in *.
  assert (Hu1 : (u < 1)%R) by (rewrite Hu; lra).
  assert (Hw1 : (0 < IZR w)%R) by (apply IZR_lt; lia).
  assert (Hh1 : (0 < IZR h)%R) by (apply IZR_lt; lia).
  set (r1 := (IZR maxW / IZR w)%R) in *.
  set (r2 := (IZR maxH / IZR h)%R) in *.
  assert (Hscale : (exact * (1 - u) <= B2R scale <= exact * (1 + u))%R).
  { rewrite Ermin. unfold exact, Rmin.
    destruct (Rle_dec r1 r2); destruct (Rle_dec (B2R sw) (B2R sh)); nra. }
  unfold exact, Rmin in *. destruct (Rle_dec r1 r2) as [Hle|Hgt].
  - (* the width ratio is the scale *)
    destruct (scaled_dim w maxW scale ms es Hw HmW Hns Hlo) as [_ HWeq];
      [fold r1 u; lra|].
    destruct (scaled_nearest h maxW w scale ms es) as [_ HHn];
      [lia|lia|lia|lia|done|done|fold r1 u; lra|].
    fold newW r1 u in HWeq. fold newH in HHn. split.
    + rewrite HWeq by lra. unfold r1.
      replace (IZR maxW - IZR w * (IZR maxW / IZR w))%R with 0%R
        by (field; lra).
      rewrite Rabs_R0. lra.
    + apply nearest_quotient; [lia|done].
  - (* the height ratio is the scale *)
    destruct (scaled_dim h maxH scale ms es Hh HmH Hns Hlo) as [_ HHeq];
      [fold r2 u; lra|].
    destruct (scaled_nearest w maxH h scale ms es) as [_ HWn];
      [lia|lia|lia|lia|done|done|fold r2 u; lra|].
    fold newH r2 u in HHeq. fold newW in HWn. split.
    + apply nearest_quotient; [lia|done].
    + rewrite HHeq by lra. unfold r2.
      replace (IZR maxH - IZR h * (IZR maxH / IZR h))%R with 0%R
        by (field; lra).
      rewrite Rabs_R0. lra.
Qed.

(** ** Timestamp sampler *)

Lemma sampleLoop_spec (interval : float) (count : Z) (n : nat) :
  forall (i : Z) (ts : list float),
    0 <= i -> i + Z.of_nat n = count -> count <= GoInt.max_int ->
    length ts = Z.to_nat count ->
    sampleLoop interval count n i ts
    = take (Z.to_nat i) ts
      ++ ((fun k => (interval * F64.of_int k)%float) <$> seqZ (i + 1) (Z.of_nat n)).
Proof.
  induction n as [|n IH]; intros i ts Hi Hn Hmax Hlen; cbn [sampleLoop].
  - rewrite take_ge by lia. by rewrite app_nil_r.
  - destruct (Z.ltb_spec i count) as [Hlt|]; [|exfalso; lia].
    assert (Hw : GoInt.add i 1 = i + 1).
    { apply wrap_in_range. unfold GoInt.in_range, GoInt.min_int in *.
      unfold GoInt.max_int in *. lia. }
    rewrite Hw, IH; [|lia|lia|lia|by rewrite length_insert].
    replace (Z.to_nat (i + 1)) with (S (Z.to_nat i)) by lia.
    rewrite (seqZ_cons (i + 1) (Z.of_nat (S n))) by lia. rewrite fmap_cons.
    replace (Z.pred (Z.of_nat (S n))) with (Z.of_nat n) by lia.
    replace (Z.succ (i + 1)) with (i + 1 + 1) by lia.
    rewrite (take_S_r _ _ (interval * F64.of_int (i + 1))%float).
    + rewrite take_insert_ge by lia. by rewrite <- app_assoc.
    + apply list_lookup_insert_eq. lia.
Qed.

(** C1. For a count that leaves room for [count + 1] in an [int],
    [sampleTimestamps] returns the single midpoint [duration / 2] when
    [count = 1], and otherwise the [count] products
    [interval * 1, ..., interval * count] with
    [interval = duration / (count + 1)]. *)
Theorem sampleTimestamps_spec (duration : float) (count : Z) :
  1 <= count < GoInt.max_int ->
  sampleTimestamps duration count
  = if count =? 1 then [(duration / 2)%float]
    else (fun k => (duration / F64.of_int (count + 1) * F64.of_int k)%float)
           <$> seqZ 1 count.
Proof.
  intros [H1 Hmax]. unfold sampleTimestamps.
  destruct (Z.leb_spec count 0); [lia|].
  destruct (Z.eqb_spec count 1); [done|].
  assert (Hw : GoInt.add count 1 = count + 1).
  { apply wrap_in_range. unfold GoInt.in_range, GoInt.min_int in *.
    unfold GoInt.max_int in *. lia. }
  rewrite Hw, sampleLoop_spec; [|lia|lia|lia|by rewrite length_replicate].
  simpl. by rewrite Z2Nat.id by lia.
Qed.

Lemma sampleTimestamps_spec_witness :
  1 <= 9 < GoInt.max_int
  /\ sampleTimestamps 10 9 = [1; 2; 3; 4; 5; 6; 7; 8; 9]%float.
Proof.
  split; [unfold GoInt.max_int; lia|].
  rewrite (sampleTimestamps_spec 10 9); [|unfold GoInt.max_int; lia].
  vm_compute. reflexivity.
Defined.

Lemma sampleTimestamps_map (duration : float) (count : Z) :
  2 <= count < GoInt.max_int ->
  sampleTimestamps duration count
  = (fun k => (duration / F64.of_int (count + 1) * F64.of_int k)%float)
      <$> seqZ 1 count.
Proof.
  intros [H1 Hmax]. unfold sampleTimestamps.
  destruct (Z.leb_spec count 0); [lia|].
  destruct (Z.eqb_spec count 1); [lia|].
  assert (Hw : GoInt.add count 1 = count + 1).
  { apply wrap_nonneg. lia. }
  rewrite Hw, sampleLoop_spec; [|lia|lia|lia|by rewrite length_replicate].
  simpl. by rewrite Z2Nat.id by lia.
Qed.

Lemma normal_minDuration : normal minDuration 4503599627370496 (-952).
Proof. split; reflexivity. Qed.

Lemma normal_maxDuration : normal maxDuration 4503599627370496 848.
Proof. split; reflexivity. Qed.

Lemma duration_normal (d : float) :
  (minDuration <=? d)%float = true -> (d <=? maxDuration)%float = true ->
  exists m e, normal d m e /\ (bpow (-900) <= B2R d <= bpow 900)%R.
Proof.
  intros Hlo Hhi.
  assert (exists m e, normal d m e) as (m & e & Hn).
  { pose proof (Prim2SF_valid d) as Hv.
    rewrite FloatAxioms.leb_spec in Hlo, Hhi.
    rewrite (proj1 normal_minDuration) in Hlo.
    rewrite (proj1 normal_maxDuration) in Hhi.
    destruct (Prim2SF d) as [s|s| |s m e] eqn:E;
      try (by destruct s); try done.
    destruct s; [done|].
    exists m, e. split; [done|].
    unfold SpecFloat.valid_binary, SpecFloat.bounded,
      SpecFloat.canonical_mantissa in Hv.
    apply andb_prop in Hv as [H1 H2]. apply Z.eqb_eq in H1.
    unfold fexp, SpecFloat.emin, prec, emax in H1.
    unfold SFleb in Hlo. cbn [SFcompare] in Hlo.
    destruct (Z.compare_spec (-952) e) as [He|He|He]; [lia|lia|].
    lia. }
  exists m, e. split; [done|].
  pose proof (leb_normal _ _ _ _ _ _ normal_minDuration Hn) as H1.
  pose proof (leb_normal _ _ _ _ _ _ Hn normal_maxDuration) as H2.
  rewrite Hlo in H1. rewrite Hhi in H2.
  rewrite (normal_B2R _ _ _ normal_minDuration) in H1.
  rewrite (normal_B2R _ _ _ normal_maxDuration) in H2.
  change (IZR (Z.pos 4503599627370496)) with (IZR (2 ^ 52)) in H1, H2.
  rewrite <- (bpow_IZR 52), <- bpow_add in H1, H2 by lia.
  done.
Qed.

Lemma bpow_m51 : bpow (-51) = (/ 2251799813685248)%R.
Proof.
  change (bpow (-51)) with (bpow (- (51))).
  rewrite (bpow_opp 51), (bpow_IZR 51) by lia. reflexivity.
Qed.

(** The interval [duration / float64(count+1)] is the exact quotient up to
    one rounding. *)
Lemma interval_correct (d : float) (c : Z) md ed :
  normal d md ed -> (bpow (-900) <= B2R d <= bpow 900)%R ->
  0 < c < 2 ^ 32 ->
  exists m e,
    normal (d / F64.of_int c)%float m e
    /\ (B2R d / IZR c * (1 - bpow (-53)) <= B2R (d / F64.of_int c)%float
        <= B2R d / IZR c * (1 + bpow (-53)))%R
    /\ (bpow (-932) <= B2R d / IZR c <= bpow 900)%R.
Proof.
  intros Hd Hr Hc.
  destruct (of_int_correct c ltac:(lia)) as (mc & ec & Hnc & Ec).
  assert (Hc1 : (1 <= IZR c)%R) by (apply IZR_le; lia).
  assert (Hc2 : (IZR c < 4294967296)%R) by (apply (IZR_lt c (2 ^ 32)); lia).
  set (E := (B2R d / IZR c)%R).
  assert (EE : (E * IZR c = B2R d)%R) by (unfold E; field; lra).
  pose proof (bpow_pos (-900)) as H900.
  assert (HE0 : (0 < E)%R) by (unfold E; apply Rdiv_lt_0_compat; lra).
  assert (HE : (bpow (-932) <= E <= bpow 900)%R).
  { split.
    - assert (bpow (-900) = bpow (-932) * 4294967296)%R as Eb.
      { replace (-900) with (-932 + 32) by lia.
        rewrite bpow_add, (bpow_IZR 32) by lia. done. }
      pose proof (bpow_pos (-932)). nra.
    - nra. }
  destruct (div_correct _ _ _ _ _ _ Hd Hnc) as (m & e & Hn & Herr & _).
  { rewrite Ec. fold E. split.
    - apply Rle_trans with (bpow (-932)); [apply bpow_le; lia|lra].
    - apply Rle_lt_trans with (bpow 900); [lra|apply bpow_lt; lia]. }
  rewrite Ec in Herr. fold E in Herr. apply Rabs_le_inv in Herr.
  exists m, e. split; [done|]. split; [|done]. lra.
Qed.

(** The [k]-th timestamp [interval * float64(k)]. *)
Lemma stamp_correct (I : float) (k : Z) mi ei :
  normal I mi ei -> (bpow (-940) <= B2R I <= bpow 901)%R ->
  0 < k < 2 ^ 32 ->
  exists m e,
    normal (I * F64.of_int k)%float m e
    /\ (B2R I * IZR k * (1 - bpow (-53)) <= B2R (I * F64.of_int k)%float
        <= B2R I * IZR k * (1 + bpow (-53)))%R.
Proof.
  intros HI Hr Hk.
  destruct (of_int_correct k ltac:(lia)) as (mk & ek & Hnk & Ek).
  assert (Hk1 : (1 <= IZR k)%R) by (apply IZR_le; lia).
  assert (Hk2 : (IZR k < 4294967296)%R) by (apply (IZR_lt k (2 ^ 32)); lia).
  pose proof (bpow_pos (-940)) as H940.
  destruct (mul_correct _ _ _ _ _ _ HI Hnk) as (m & e & Hn & Herr & _).
  { rewrite Ek. split.
    - apply Rle_trans with (bpow (-940)); [apply bpow_le; lia|nra].
    - apply Rlt_le_trans with (bpow 933); [|apply bpow_le; lia].
      replace 933 with (901 + 32) by lia.
      rewrite bpow_add, (bpow_IZR 32) by lia.
      change (2 ^ 32) with 4294967296. pose proof (bpow_pos 901). nra. }
  rewrite Ek in Herr. apply Rabs_le_inv in Herr.
  exists m, e. split; [done|]. lra.
Qed.

Lemma ltb_zero_normal (t : float) m e : normal t m e -> (0 <? t)%float = true.
Proof.
  intros [Ht _]. by rewrite FloatAxioms.ltb_spec, Prim2SF_zero, Ht.
Qed.

(** C5, as amended.  For a duration between 2^-900 and 2^900 seconds and
    [2 <= count < 2^31], [sampleTimestamps] returns exactly [count] values,
    each strictly between 0 and the duration, strictly increasing, and every
    adjacent difference is [duration / (count+1)] up to float64 rounding:
    it differs from the exact quotient by at most [(k+2) * 2^-51] of it. *)
Theorem sampleTimestamps_ordered (duration : float) (count : Z) :
  (minDuration <=? duration)%float = true ->
  (duration <=? maxDuration)%float = true ->
  2 <= count < 2 ^ 31 ->
  let ts := sampleTimestamps duration count in
  let E := (B2R duration / IZR (count + 1))%R in
  length ts = Z.to_nat count
  /\ (forall (i : nat) t,
        ts !! i = Some t ->
        (0 <? t)%float = true /\ (t <? duration)%float = true)
  /\ (forall (i : nat) t t',
        ts !! i = Some t -> ts !! S i = Some t' ->
        (t <? t')%float = true
        /\ (Rabs (B2R t' - B2R t - E)
            <= E * IZR (Z.of_nat i + 2) * bpow (-51))%R).
Proof.
  intros Hlo Hhi Hc ts E.
  destruct (duration_normal duration Hlo Hhi) as (md & ed & Hd & Hdr).
  destruct (interval_correct duration (count + 1) md ed Hd Hdr ltac:(lia))
    as (mi & ei & HI & HIb & HE).
  fold E in HIb, HE.
  set (I := (duration / F64.of_int (count + 1))%float) in *.
  assert (Hu : bpow (-53) = (/ 9007199254740992)%R) by apply bpow_m53.
  pose proof bpow_m51 as Hu51.
  set (u := bpow (-53)) in *.
  pose proof (bpow_pos (-932)) as H932.
  assert (HE0 : (0 < E)%R) by lra.
  assert (HIr : (bpow (-940) <= B2R I <= bpow 901)%R).
  { split.
    - apply Rle_trans with (bpow (-932) * (1 / 2))%R.
      + rewrite <- bpow_m1, <- bpow_add. apply bpow_le. lia.
      + rewrite Hu in HIb. nra.
    - apply Rle_trans with (bpow 900 * 2)%R.
      + rewrite Hu in HIb. pose proof (bpow_pos 900). nra.
      + rewrite <- bpow_1, <- bpow_add. apply bpow_le. lia. }
  assert (Ets : ts = (fun k => (I * F64.of_int k)%float) <$> seqZ 1 count).
  { unfold ts, I. apply sampleTimestamps_map. unfold GoInt.max_int. lia. }
  assert (Hlook : forall (i : nat) t,
            ts !! i = Some t ->
            Z.of_nat i < count /\ t = (I * F64.of_int (1 + Z.of_nat i))%float).
  { intros i t Hi. rewrite Ets, list_lookup_fmap in Hi.
    destruct (seqZ 1 count !! i) as [k|] eqn:Ek; [|done].
    apply lookup_seqZ in Ek as [-> Hlt]. injection Hi as <-. done. }
  assert (Hstamp : forall k : Z,
            0 < k <= count ->
            exists m e,
              normal (I * F64.of_int k)%float m e
              /\ (E * IZR k * (1 - u) * (1 - u)
                  <= B2R (I * F64.of_int k)%float
                  <= E * IZR k * (1 + u) * (1 + u))%R).
  { intros k Hk.
    destruct (stamp_correct I k mi ei HI HIr ltac:(lia))
      as (m & e & Hn & Hb).
    fold u in Hb. exists m, e. split; [done|].
    assert (Hk1 : (1 <= IZR k)%R) by (apply IZR_le; lia).
    assert (Hu0 : (0 < u < 1)%R) by (rewrite Hu; lra).
    assert (HIk1 : (E * IZR k * (1 - u) <= B2R I * IZR k)%R).
    { replace (E * IZR k * (1 - u))%R with (E * (1 - u) * IZR k)%R by ring.
      apply Rmult_le_compat_r; lra. }
    assert (HIk2 : (B2R I * IZR k <= E * IZR k * (1 + u))%R).
    { replace (E * IZR k * (1 + u))%R with (E * (1 + u) * IZR k)%R by ring.
      apply Rmult_le_compat_r; lra. }
    split.
    - apply Rle_trans with (B2R I * IZR k * (1 - u))%R; [|lra].
      apply Rmult_le_compat_r; lra.
    - apply Rle_trans with (B2R I * IZR k * (1 + u))%R; [lra|].
      apply Rmult_le_compat_r; lra. }
  assert (Hcnt : (2 <= IZR count < 2147483648)%R).
  { split; [apply (IZR_le 2); lia|apply (IZR_lt count (2 ^ 31)); lia]. }
  assert (EE : (E * (IZR count + 1) = B2R duration)%R).
  { unfold E. rewrite plus_IZR. field. lra. }
  split; [|split].
  - rewrite Ets, length_fmap, length_seqZ. done.
  - intros i t Hi. destruct (Hlook i t Hi) as [Hlt ->].
    destruct (Hstamp (1 + Z.of_nat i) ltac:(lia)) as (m & e & Hn & Hb).
    split; [by eapply ltb_zero_normal|].
    pose proof (ltb_normal _ _ _ _ _ _ Hn Hd) as Hcmp.
    destruct (_ <? duration)%float; [done|]. exfalso.
    set (K := IZR (1 + Z.of_nat i)) in *.
    assert (HK : (1 <= K <= IZR count)%R).
    { unfold K. split; apply IZR_le; lia. }
    set (X := (E * K)%R) in *.
    assert (HX : (0 < X <= E * IZR count)%R) by (unfold X; nra).
    rewrite Hu in Hb. rewrite <- EE in Hcmp.
    assert (E * IZR count * (1 + / 9007199254740992)
            * (1 + / 9007199254740992) < E * (IZR count + 1))%R; [|nra].
    assert (IZR count * (1 + / 9007199254740992) * (1 + / 9007199254740992)
            < IZR count + 1)%R as Hk by lra.
    apply (Rmult_lt_compat_l E) in Hk; [|done]. lra.
  - intros i t t' Hi Hi'.
    destruct (Hlook i t Hi) as [Hlt ->].
    destruct (Hlook (S i) t' Hi') as [Hlt' ->].
    replace (1 + Z.of_nat (S i)) with (1 + Z.of_nat i + 1) by lia.
    destruct (Hstamp (1 + Z.of_nat i) ltac:(lia)) as (m & e & Hn & Hb).
    destruct (Hstamp (1 + Z.of_nat i + 1) ltac:(lia)) as (m' & e' & Hn' & Hb').
    rewrite plus_IZR in Hb'.
    replace (Z.of_nat i + 2) with (1 + Z.of_nat i + 1) by lia.
    rewrite (plus_IZR _ 1).
    set (K := IZR (1 + Z.of_nat i)) in *.
    assert (HK : (1 <= K < 2147483648)%R).
    { unfold K. split; [apply IZR_le; lia|].
      apply (IZR_lt _ (2 ^ 31)). lia. }
    set (X := (E * K)%R) in *.
    assert (HX : (0 < X)%R) by (unfold X; nra).
    replace (E * (K + 1))%R with (X + E)%R in * by (unfold X; ring).
    rewrite Hu in Hb, Hb'. rewrite Hu51.
    set (a := B2R (I * F64.of_int (1 + Z.of_nat i))%float) in *.
    set (b := B2R (I * F64.of_int (1 + Z.of_nat i + 1))%float) in *.
    assert (HXE : (X < E * 2147483648)%R) by (unfold X; nra).
    split.
    + pose proof (ltb_normal _ _ _ _ _ _ Hn Hn') as Hcmp.
      destruct (_ <? _)%float; [done|]. exfalso. fold a b in Hcmp. lra.
    + apply Rabs_le. split; lra.
Qed.

Lemma sampleTimestamps_ordered_witness :
  let ts := sampleTimestamps 10 9 in
  length ts = 9%nat
  /\ (forall (i : nat) t,
        ts !! i = Some t -> (0 <? t)%float = true /\ (t <? 10)%float = true).
Proof.
  destruct (sampleTimestamps_ordered 10 9) as (Hlen & Hin & _).
  - reflexivity.
  - reflexivity.
  - lia.
  - split; [exact Hlen|exact Hin].
Defined.

(** C5 fails as stated.  For a one-second video and nine samples the
    interval is 0.1 (0x1.999999999999ap-4), yet the third sample is
    0.30000000000000004 and its distance to the second, 0.10000000000000003,
    is not the interval.  For the smallest positive
    duration the interval underflows to 0 and the samples are neither
    positive nor increasing; for an infinite duration they are not below it. *)
Lemma sampleTimestamps_spacing_inexact :
  (1 / F64.of_int (9 + 1))%float = 0x1.999999999999ap-4%float
  /\ sampleTimestamps 1 9 !! 2%nat = Some 0x1.3333333333334p-2%float
  /\ spacing (sampleTimestamps 1 9) 1 = Some 0x1.999999999999cp-4%float
  /\ spacing (sampleTimestamps 1 9) 1 <> Some (1 / F64.of_int (9 + 1))%float
  /\ sampleTimestamps 0x1p-1074 2 = [0; 0]%float
  /\ sampleTimestamps infinity 2 = [infinity; infinity].
Proof. vm_compute. repeat split; discriminate. Qed.

(** ** Cell-height inference *)

(** C10. The inferred height can be zero: a one-pixel cell width with no
    usable source dimensions takes the truncating fallback, and
    [int(1 * 9 / 16)] is 0. *)
Theorem inferCellHeight_not_positive :
  inferCellHeight 1 0 0 = 0 /\ inferCellHeight 1 (-1) 1080 = 0
  /\ inferCellHeight 1 1920 0 = 0.
Proof. vm_compute. done. Qed.

Lemma normal_9 : normal 9 5066549580791808 (-49).
Proof. split; reflexivity. Qed.

Lemma normal_16 : normal 16 4503599627370496 (-48).
Proof. split; reflexivity. Qed.

Lemma B2R_9 : B2R 9 = 9%R.
Proof.
  rewrite (normal_B2R _ _ _ normal_9).
  change (bpow (-49)) with (bpow (- (49))).
  rewrite bpow_opp, (bpow_IZR 49) by lia.
  change (2 ^ 49) with 562949953421312. field.
Qed.

Lemma B2R_16 : B2R 16 = 16%R.
Proof.
  rewrite (normal_B2R _ _ _ normal_16).
  change (bpow (-48)) with (bpow (- (48))).
  rewrite bpow_opp, (bpow_IZR 48) by lia.
  change (2 ^ 48) with 281474976710656. field.
Qed.

(** The fallback [int(float64(cellWidth) * 9.0 / 16.0)] is exact: both
    operations are, and the conversion truncates. *)
Lemma fallback_exact (cw : Z) :
  0 < cw < 2 ^ 49 ->
  F64.to_int (F64.of_int cw * 9 / 16)%float = 9 * cw / 16.
Proof.
  intros Hcw.
  destruct (of_int_correct cw ltac:(lia)) as (m & e & Hn & Ecw).
  assert (H1 : (1 <= IZR cw)%R) by (apply IZR_le; lia).
  assert (H2 : (IZR cw < 562949953421312)%R)
    by (apply (IZR_lt cw (2 ^ 49)); lia).
  destruct (mul_correct _ _ _ _ _ _ Hn normal_9) as (m1 & e1 & Hn1 & _ & Hex1).
  { rewrite Ecw, B2R_9. split.
    - apply Rle_trans with (bpow 0); [apply bpow_le; lia|]. rewrite bpow_0. lra.
    - apply Rlt_le_trans with (bpow 53); [|apply bpow_le; lia].
      rewrite (bpow_IZR 53) by lia.
      change (2 ^ 53) with 9007199254740992. lra. }
  assert (E1 : B2R (F64.of_int cw * 9)%float = IZR (9 * cw)).
  { rewrite (Hex1 (9 * cw) 0).
    - rewrite Ecw, B2R_9, mult_IZR. lra.
    - rewrite Ecw, B2R_9, mult_IZR, bpow_0. lra.
    - lia. }
  destruct (div_correct _ _ _ _ _ _ Hn1 normal_16)
    as (m2 & e2 & Hn2 & _ & Hex2).
  { rewrite E1, B2R_16, mult_IZR. split.
    - apply Rle_trans with (bpow (-1)); [apply bpow_le; lia|].
      rewrite bpow_m1. lra.
    - apply Rlt_le_trans with (bpow 53); [|apply bpow_le; lia].
      rewrite (bpow_IZR 53) by lia.
      change (2 ^ 53) with 9007199254740992. lra. }
  assert (E2 : B2R (F64.of_int cw * 9 / 16)%float = (IZR (9 * cw) / 16)%R).
  { rewrite (Hex2 (9 * cw) (-4)).
    - by rewrite E1, B2R_16.
    - rewrite E1, B2R_16. change (bpow (-4)) with (bpow (- (4))).
      rewrite bpow_opp, (bpow_IZR 4) by lia. change (2 ^ 4) with 16. done.
    - lia. }
  destruct (to_int_floor _ m2 e2 (proj1 Hn2)) as [[Hf1 Hf2] Hf0].
  { rewrite E2, mult_IZR. change (2 ^ 63) with 9223372036854775808. lra. }
  rewrite E2 in Hf1, Hf2.
  set (n := F64.to_int (F64.of_int cw * 9 / 16)%float) in *.
  assert (IZR (16 * n) <= IZR (9 * cw))%R as Ha by (rewrite (mult_IZR 16); lra).
  assert (IZR (9 * cw) < IZR (16 * n + 16))%R as Hb.
  { rewrite plus_IZR, (mult_IZR 16). lra. }
  apply le_IZR in Ha. apply lt_IZR in Hb.
  apply Z.div_unique with (9 * cw - 16 * n); lia.
Qed.

(** [a * (b / c)] in float64, rounded, is an integer nearest to the exact
    [a * b / c]. *)
Lemma round_mul_div_nearest (a b c : Z) :
  0 < a < 2 ^ 24 -> 0 < b < 2 ^ 24 -> 0 < c < 2 ^ 24 ->
  let n :=
    F64.to_int (F64.Round (F64.of_int a * (F64.of_int b / F64.of_int c))%float)
  in
  0 <= n /\ 2 * Z.abs (n * c - a * b) <= c.
Proof.
  intros Ha Hb Hc.
  destruct (ratio_bounds b c ltac:(lia) ltac:(lia))
    as (ms & es & Hns & Hs & Hs40).
  apply (scaled_nearest a b c _ ms es); [lia|lia|lia|nia|done|done|done].
Qed.

(** The two paths together.  For a cell width below 2^24 and source
    dimensions below 2^24: with positive source dimensions the result is the
    float64 value [round(cellWidth * (videoHeight / videoWidth))], an integer
    nearest to the exact [cellWidth * videoHeight / videoWidth] (an exact
    half may go either way), whenever that value is positive; in every other
    case it is the integer quotient [9 * cellWidth / 16]. *)
Theorem inferCellHeight_spec (cw vw vh : Z) :
  0 < cw < 2 ^ 24 -> vw < 2 ^ 24 -> vh < 2 ^ 24 ->
  if (0 <? vw) && (0 <? vh) then
    let h :=
      F64.to_int
        (F64.Round (F64.of_int cw * (F64.of_int vh / F64.of_int vw))%float) in
    0 <= h /\ 2 * Z.abs (h * vw - cw * vh) <= vw
    /\ inferCellHeight cw vw vh = (if 0 <? h then h else 9 * cw / 16)
  else inferCellHeight cw vw vh = 9 * cw / 16.
Proof.
  intros Hcw Hvw Hvh. unfold inferCellHeight.
  rewrite (fallback_exact cw) by lia.
  destruct (Z.ltb_spec 0 vw) as [Hw|Hw]; destruct (Z.ltb_spec 0 vh) as [Hh|Hh];
    destruct (Z.leb_spec vw 0); destruct (Z.leb_spec vh 0);
    try lia; cbn [andb orb]; try reflexivity.
  destruct (round_mul_div_nearest cw vh vw) as [Hpos Hnear]; [lia..|].
  cbn zeta. split; [done|]. split; [done|].
  set (h := F64.to_int _) in *.
  destruct (Z.leb_spec h 0); destruct (Z.ltb_spec 0 h); lia || reflexivity.
Qed.

Lemma inferCellHeight_spec_witness :
  inferCellHeight 320 1920 1080 = 180 /\ inferCellHeight 320 0 0 = 180
  /\ inferCellHeight 100 640 360 = 56.
Proof.
  pose proof (inferCellHeight_spec 320 1920 1080
                ltac:(lia) ltac:(lia) ltac:(lia)) as H1.
  pose proof (inferCellHeight_spec 320 0 0
                ltac:(lia) ltac:(lia) ltac:(lia)) as H2.
  pose proof (inferCellHeight_spec 100 640 360
                ltac:(lia) ltac:(lia) ltac:(lia)) as H3.
  cbn [Z.ltb Z.compare andb] in H1, H2, H3.
  destruct H1 as (_ & _ & ->). destruct H3 as (_ & _ & ->). rewrite H2.
  vm_compute. done.
Defined.

(** Sample values.  For a cell width of 3 and no source dimensions the
    result is [int(1.6875) = 1], while the rounded 16:9 height is 2, both as
    an exact quotient and as [math.Round] of the float64 product.  On the
    main path an exact half can round down: [27 * 13 / 6 = 58.5] gives 58. *)
Lemma inferCellHeight_fallback_truncates :
  inferCellHeight 3 0 0 = 1
  /\ roundDiv (3 * 9) 16 = 2
  /\ F64.to_int (F64.Round (F64.of_int 3 * 9 / 16)%float) = 2
  /\ inferCellHeight 27 6 13 = 58
  /\ roundDiv (27 * 13) 6 = 59.
Proof. vm_compute. done. Qed.

(** C4 (the code departs from it).  Whenever the 16:9 fallback is taken,
    for lack of a positive source dimension or because the rounded height
    is not positive, the result is the quotient [9 * cellWidth / 16] with
    its fraction dropped, where the main path rounds: it is the rounded
    height [round(cellWidth * 9 / 16)] only when the remainder of
    [9 * cellWidth] by 16 is below 8, and one less otherwise. *)
Theorem inferCellHeight_fallback_floor (cw vw vh : Z) :
  0 < cw < 2 ^ 49 ->
  vw <= 0 \/ vh <= 0
  \/ F64.to_int
       (F64.Round (F64.of_int cw * (F64.of_int vh / F64.of_int vw))%float)
     <= 0 ->
  inferCellHeight cw vw vh = 9 * cw / 16
  /\ inferCellHeight cw vw vh
     = roundDiv (9 * cw) 16 - (if (9 * cw) mod 16 <? 8 then 0 else 1).
Proof.
  intros Hcw Hfall.
  assert (E : inferCellHeight cw vw vh = 9 * cw / 16).
  { unfold inferCellHeight. rewrite (fallback_exact cw) by lia.
    destruct (Z.leb_spec vw 0); [done|]. destruct (Z.leb_spec vh 0); [done|].
    cbn [orb]. cbv zeta. set (h := F64.to_int _) in *.
    destruct (Z.leb_spec h 0); [done|lia]. }
  split; [exact E|]. rewrite E. unfold roundDiv.
  destruct (Z.ltb_spec ((9 * cw) mod 16) 8); Z.div_mod_to_equations; lia.
Qed.

Lemma inferCellHeight_fallback_floor_witness :
  inferCellHeight 3 0 0 = 1 /\ roundDiv (9 * 3) 16 = 2
  /\ inferCellHeight 3 1920 1 = 1.
Proof.
  assert (H0 : 0 < 3 < 2 ^ 49) by lia.
  assert (H1 : 0 <= 0 \/ 0 <= 0
               \/ F64.to_int
                    (F64.Round
                       (F64.of_int 3 * (F64.of_int 0 / F64.of_int 0))%float)
                  <= 0) by (left; lia).
  assert (H2 : 1920 <= 0 \/ 1 <= 0
               \/ F64.to_int
                    (F64.Round
                       (F64.of_int 3 * (F64.of_int 1 / F64.of_int 1920))%float)
                  <= 0) by (right; right; vm_compute; discriminate).
  destruct (inferCellHeight_fallback_floor 3 0 0 H0 H1) as [E1 _].
  destruct (inferCellHeight_fallback_floor 3 1920 1 H0 H2) as [E2 _].
  rewrite E1, E2. clear. vm_compute. done.
Defined.

(** ** Rectangles and drawing *)

Ltac cmp_cases :=
  repeat match goal with
    | |- context [?a <=? ?b] => destruct (Z.leb_spec a b)
    | |- context [?a <? ?b] => destruct (Z.ltb_spec a b)
    end.

Lemma In_Empty (x y : Z) (r : image.Rectangle) :
  image.Empty r = true -> image.In x y r = false.
Proof.
  destruct r as [[x0 y0] [x1 y1]]. unfold image.Empty, image.In. simpl.
  cmp_cases; simpl; intros; try done; lia.
Qed.

Lemma In_ZR (x y : Z) : image.In x y image.ZR = false.
Proof. by apply In_Empty. Qed.

Lemma In_Intersect (x y : Z) (r s : image.Rectangle) :
  image.In x y (image.Intersect r s) = image.In x y r && image.In x y s.
Proof.
  unfold image.Intersect.
  match goal with |- context [image.Empty ?r'] =>
    destruct (image.Empty r') eqn:He; [apply (In_Empty x y) in He|];
    revert He end.
  - rewrite In_ZR. destruct r as [[x0 y0] [x1 y1]], s as [[a0 b0] [a1 b1]].
    unfold image.In. simpl.
    cmp_cases; simpl; intros; try done; lia.
  - intros _. destruct r as [[x0 y0] [x1 y1]], s as [[a0 b0] [a1 b1]].
    unfold image.In. simpl.
    cmp_cases; simpl; try done; lia.
Qed.

Lemma Draw_Bounds dst r src sp op :
  image.Bounds (draw.Draw dst r src sp op) = image.Bounds dst.
Proof. unfold draw.Draw. by destruct (image.Empty _). Qed.

Lemma Draw_Pix dst r src sp op (x y : Z) :
  image.Pix (draw.Draw dst r src sp op) x y
  = if image.In x y (draw.clip dst r src sp) then
      draw.compose op (image.Pix dst x y)
        (draw.SourceAt src (x - image.X (image.Min r) + image.X sp)
                           (y - image.Y (image.Min r) + image.Y sp))
    else image.Pix dst x y.
Proof.
  unfold draw.Draw. destruct (image.Empty _) eqn:He; [|done].
  by rewrite (In_Empty x y _ He).
Qed.

(** ** Grid compositor *)

Section Compositor.

Variable cfg : gridConfig.

Hypothesis rows_pos : 0 < rows cfg.
Hypothesis cols_pos : 0 < cols cfg.
Hypothesis cellWidth_pos : 0 < cellWidth cfg.
Hypothesis cellHeight_nonneg : 0 <= cellHeight cfg.
Hypothesis margin_nonneg : 0 <= margin cfg.
Hypothesis width_fits : canvasWidth cfg <= GoInt.max_int.
Hypothesis height_fits : canvasHeight cfg <= GoInt.max_int.
Hypothesis rows_fits : rows cfg <= GoInt.max_int.

Let canvasRect : image.Rectangle :=
  image.mkRectangle (image.mkPoint 0 0)
    (image.mkPoint (canvasWidth cfg) (canvasHeight cfg)).

Lemma quot_rem_bounds (i : Z) :
  0 <= i < rows cfg * cols cfg ->
  0 <= Z.quot i (cols cfg) < rows cfg /\ 0 <= Z.rem i (cols cfg) < cols cfg.
Proof.
  intros Hi. rewrite Z.quot_div_nonneg, Z.rem_mod_nonneg by lia.
  split; [|apply Z.mod_pos_bound; lia].
  split; [apply Z.div_pos; lia|].
  apply Z.div_lt_upper_bound; [lia|]. rewrite Z.mul_comm. lia.
Qed.

Lemma cell_in_canvas (i : Z) :
  0 <= i < rows cfg * cols cfg ->
  margin cfg <= cellX cfg i
  /\ cellX cfg i + cellWidth cfg + margin cfg <= canvasWidth cfg
  /\ margin cfg <= cellY cfg i
  /\ cellY cfg i + cellHeight cfg + margin cfg <= canvasHeight cfg.
Proof.
  intros Hi. destruct (quot_rem_bounds i Hi) as [Hq Hr].
  unfold cellX, cellY, canvasWidth, canvasHeight.
  set (q := Z.quot i (cols cfg)) in *. set (r := Z.rem i (cols cfg)) in *.
  nia.
Qed.

Lemma no_wrap (z : Z) :
  0 <= z <= canvasWidth cfg \/ 0 <= z <= canvasHeight cfg \/ 0 <= z <= rows cfg ->
  GoInt.wrap z = z.
Proof.
  intros H. apply wrap_in_range. unfold GoInt.in_range, GoInt.min_int.
  unfold GoInt.max_int in *. lia.
Qed.

Lemma canvas_ge_cell :
  cellWidth cfg <= canvasWidth cfg /\ cellHeight cfg <= canvasHeight cfg.
Proof. unfold canvasWidth, canvasHeight. nia. Qed.

Lemma centring_bounds (f : image.RGBA) :
  fitsCell cfg (Some f) ->
  0 <= Z.quot (cellWidth cfg - frameWidth f) 2
  /\ Z.quot (cellWidth cfg - frameWidth f) 2 + frameWidth f <= cellWidth cfg
  /\ 0 <= Z.quot (cellHeight cfg - frameHeight f) 2
  /\ Z.quot (cellHeight cfg - frameHeight f) 2 + frameHeight f
     <= cellHeight cfg.
Proof.
  intros [Hw Hh]. rewrite !Z.quot_div_nonneg by lia.
  pose proof (Z.div_pos (cellWidth cfg - frameWidth f) 2).
  pose proof (Z.div_pos (cellHeight cfg - frameHeight f) 2).
  pose proof (Z.mul_div_le (cellWidth cfg - frameWidth f) 2).
  pose proof (Z.mul_div_le (cellHeight cfg - frameHeight f) 2).
  lia.
Qed.

(** A placed frame stays inside its cell. *)
Lemma placed_in_cell (i : Z) (f : image.RGBA) (x y : Z) :
  fitsCell cfg (Some f) ->
  image.In x y (placedRect cfg i f) = true ->
  image.In x y (cellRect cfg i) = true.
Proof.
  intros Hf. pose proof (centring_bounds f Hf).
  unfold placedRect, cellRect, offsetX, offsetY, image.In. simpl.
  cmp_cases; simpl; try done; lia.
Qed.

(** Distinct cells share no point. *)
Lemma cells_disjoint (i j : Z) (x y : Z) :
  0 <= i < rows cfg * cols cfg -> 0 <= j < rows cfg * cols cfg -> i <> j ->
  image.In x y (cellRect cfg i) = true ->
  image.In x y (cellRect cfg j) = false.
Proof.
  intros Hi Hj Hne.
  destruct (quot_rem_bounds i Hi) as [Hqi Hri].
  destruct (quot_rem_bounds j Hj) as [Hqj Hrj].
  pose proof (Z.quot_rem' i (cols cfg)) as Ei.
  pose proof (Z.quot_rem' j (cols cfg)) as Ej.
  unfold cellRect, cellX, cellY, image.In. simpl.
  set (qi := Z.quot i (cols cfg)) in *. set (ri := Z.rem i (cols cfg)) in *.
  set (qj := Z.quot j (cols cfg)) in *. set (rj := Z.rem j (cols cfg)) in *.
  assert (qi <> qj \/ ri <> rj) as Hd.
  { destruct (decide (qi = qj)) as [->|]; [right|by left]. lia. }
  cmp_cases; simpl; try done; intros _; exfalso; nia.
Qed.

(** A cell lies within the canvas. *)
Lemma cell_in_canvasRect (i : Z) (x y : Z) :
  0 <= i < rows cfg * cols cfg ->
  image.In x y (cellRect cfg i) = true -> image.In x y canvasRect = true.
Proof.
  intros Hi. pose proof (cell_in_canvas i Hi).
  unfold cellRect, canvasRect, image.In. simpl.
  cmp_cases; simpl; try done; lia.
Qed.

(** One iteration of the loop on a present frame draws it at the rectangle
    the specification names; nothing wraps. *)
Lemma composeLoop_step (i : Z) (f : image.RGBA) rest (c : image.RGBA) :
  0 <= i < rows cfg * cols cfg -> fitsCell cfg (Some f) ->
  composeLoop cfg (Some f :: rest) i c
  = composeLoop cfg rest (i + 1)
      (draw.Draw c (placedRect cfg i f) (draw.Bitmap f)
         (image.Min (image.Bounds f)) draw.Over).
Proof.
  intros Hi Hf.
  destruct (quot_rem_bounds i Hi) as [Hq Hr].
  pose proof (cell_in_canvas i Hi) as Hc.
  pose proof (centring_bounds f Hf) as Hm.
  pose proof canvas_ge_cell as Hg. pose proof Hf as [Hfw Hfh].
  cbn [composeLoop]. unfold GoInt.quo, GoInt.rem.
  destruct (Z.eqb_spec (cols cfg) 0) as [|_]; [lia|].
  change (2 =? 0) with false. cbn [mbind option_bind].
  assert (Edx : image.Dx (image.Bounds f) = frameWidth f).
  { unfold image.Dx, GoInt.sub. apply no_wrap. fold (frameWidth f). lia. }
  assert (Edy : image.Dy (image.Bounds f) = frameHeight f).
  { unfold image.Dy, GoInt.sub. apply no_wrap. fold (frameHeight f). lia. }
  rewrite Edx, Edy.
  assert (Eq : GoInt.wrap (Z.quot i (cols cfg)) = Z.quot i (cols cfg))
    by (apply no_wrap; lia).
  rewrite Eq.
  assert (Ecx : GoInt.add (margin cfg)
                  (GoInt.mul (Z.rem i (cols cfg))
                     (GoInt.add (cellWidth cfg) (margin cfg)))
                = cellX cfg i).
  { unfold GoInt.add, GoInt.mul, cellX in *.
    rewrite (no_wrap (cellWidth cfg + margin cfg)) by nia.
    rewrite (no_wrap (_ * _)) by nia. apply no_wrap. nia. }
  assert (Ecy : GoInt.add (margin cfg)
                  (GoInt.mul (Z.quot i (cols cfg))
                     (GoInt.add (cellHeight cfg) (margin cfg)))
                = cellY cfg i).
  { unfold GoInt.add, GoInt.mul, cellY in *.
    rewrite (no_wrap (cellHeight cfg + margin cfg)) by nia.
    rewrite (no_wrap (_ * _)) by nia. apply no_wrap. nia. }
  rewrite Ecx, Ecy.
  assert (Eox : GoInt.add (cellX cfg i)
                  (GoInt.wrap
                     (Z.quot (GoInt.sub (cellWidth cfg) (frameWidth f)) 2))
                = offsetX cfg i f).
  { unfold GoInt.add, GoInt.sub, offsetX.
    rewrite (no_wrap (cellWidth cfg - _)) by lia.
    rewrite (no_wrap (Z.quot _ _)) by lia. apply no_wrap. lia. }
  assert (Eoy : GoInt.add (cellY cfg i)
                  (GoInt.wrap
                     (Z.quot (GoInt.sub (cellHeight cfg) (frameHeight f)) 2))
                = offsetY cfg i f).
  { unfold GoInt.add, GoInt.sub, offsetY.
    rewrite (no_wrap (cellHeight cfg - _)) by lia.
    rewrite (no_wrap (Z.quot _ _)) by lia. apply no_wrap. lia. }
  rewrite Eox, Eoy.
  assert (Ex1 : GoInt.add (offsetX cfg i f) (frameWidth f)
                = offsetX cfg i f + frameWidth f).
  { apply no_wrap. unfold offsetX. lia. }
  assert (Ey1 : GoInt.add (offsetY cfg i f) (frameHeight f)
                = offsetY cfg i f + frameHeight f).
  { apply no_wrap. unfold offsetY. lia. }
  rewrite Ex1, Ey1. do 2 f_equal.
  unfold image.Rect, placedRect.
  destruct (Z.ltb_spec (offsetX cfg i f + frameWidth f) (offsetX cfg i f));
    [lia|].
  destruct (Z.ltb_spec (offsetY cfg i f + frameHeight f) (offsetY cfg i f));
    [lia|]. done.
Qed.

(** The part of the destination a frame is drawn on is exactly its placed
    rectangle: neither the canvas nor the frame's own bounds clip it. *)
Lemma clip_placed (i : Z) (f : image.RGBA) (c : image.RGBA) (x y : Z) :
  0 <= i < rows cfg * cols cfg -> fitsCell cfg (Some f) ->
  image.Bounds c = canvasRect ->
  image.In x y
    (draw.clip c (placedRect cfg i f) (draw.Bitmap f)
       (image.Min (image.Bounds f)))
  = image.In x y (placedRect cfg i f).
Proof.
  intros Hi Hf Hb. unfold draw.clip. rewrite !In_Intersect, Hb.
  destruct (image.In x y (placedRect cfg i f)) eqn:E; [|done].
  rewrite (cell_in_canvasRect i x y Hi (placed_in_cell i f x y Hf E)).
  simpl. revert E. unfold image.In, placedRect, frameWidth, frameHeight.
  destruct (image.Bounds f) as [[x0 y0] [x1 y1]]. simpl.
  cmp_cases; simpl; try done; lia.
Qed.

Lemma composeLoop_spec (frames : list (option image.RGBA)) :
  forall (k : Z) (c0 : image.RGBA),
    0 <= k -> k + Z.of_nat (length frames) <= rows cfg * cols cfg ->
    Forall (fitsCell cfg) frames ->
    image.Bounds c0 = canvasRect ->
    exists c,
      composeLoop cfg frames k c0 = Some c
      /\ image.Bounds c = canvasRect
      /\ (forall x y,
            (forall (j : nat) f,
               frames !! j = Some (Some f) ->
               image.In x y (placedRect cfg (k + Z.of_nat j) f) = false) ->
            image.Pix c x y = image.Pix c0 x y)
      /\ (forall (j : nat) f x y,
            frames !! j = Some (Some f) ->
            image.In x y (placedRect cfg (k + Z.of_nat j) f) = true ->
            image.Pix c x y
            = draw.compose draw.Over (image.Pix c0 x y)
                (framePixel cfg (k + Z.of_nat j) f x y)).
Proof.
  induction frames as [|e rest IH]; intros k c0 Hk Hlen Hfit Hb.
  - exists c0. repeat split; done.
  - apply Forall_cons in Hfit as [He Hrest]. cbn [length] in Hlen.
    destruct e as [f|].
    + rewrite composeLoop_step by (done || lia).
      set (c1 := draw.Draw c0 _ _ _ _).
      destruct (IH (k + 1) c1) as (c & Hc & Hbc & Hout & Hin);
        [lia|lia|done|by unfold c1; rewrite Draw_Bounds|].
      assert (Hc1 : forall x y,
                image.Pix c1 x y
                = if image.In x y (placedRect cfg k f) then
                    draw.compose draw.Over (image.Pix c0 x y)
                      (framePixel cfg k f x y)
                  else image.Pix c0 x y).
      { intros x y. unfold c1. rewrite Draw_Pix, clip_placed by (done || lia).
        done. }
      exists c. split; [done|]. split; [done|]. split.
      * intros x y Hno. rewrite Hout, Hc1.
        -- specialize (Hno O f eq_refl). rewrite Z.add_0_r in Hno.
           by rewrite Hno.
        -- intros j g Hj. specialize (Hno (S j) g Hj).
           by replace (k + 1 + Z.of_nat j) with (k + Z.of_nat (S j)) by lia.
      * intros [|j] g x y Hj Hx.
        -- injection Hj as <-. rewrite Z.add_0_r in *. rewrite Hout, Hc1, Hx.
           { done. }
           intros j g Hj.
           destruct (image.In x y (placedRect cfg (k + 1 + Z.of_nat j) g))
             eqn:E; [|done].
           assert (Hg : fitsCell cfg (Some g)).
           { eapply Forall_lookup_1 in Hrest; [|exact Hj]. done. }
           apply lookup_lt_Some in Hj.
           apply placed_in_cell in E; [|done].
           apply placed_in_cell in Hx; [|done].
           rewrite (cells_disjoint k (k + 1 + Z.of_nat j) x y) in E;
             done || lia.
        -- cbn [lookup list_lookup] in Hj.
           replace (k + Z.of_nat (S j)) with (k + 1 + Z.of_nat j) in * by lia.
           rewrite (Hin j g x y Hj Hx), Hc1.
           destruct (image.In x y (placedRect cfg k f)) eqn:E; [|done].
           assert (Hg : fitsCell cfg (Some g)).
           { eapply Forall_lookup_1 in Hrest; [|exact Hj]. done. }
           apply lookup_lt_Some in Hj.
           apply placed_in_cell in E; [|done].
           apply placed_in_cell in Hx; [|done].
           rewrite (cells_disjoint k (k + 1 + Z.of_nat j) x y) in Hx;
             done || lia.
    + cbn [composeLoop].
      destruct (IH (k + 1) c0) as (c & Hc & Hbc & Hout & Hin);
        [lia|lia|done|done|].
      exists c. split; [done|]. split; [done|]. split.
      * intros x y Hno. apply Hout. intros j g Hj.
        specialize (Hno (S j) g Hj).
        by replace (k + 1 + Z.of_nat j) with (k + Z.of_nat (S j)) by lia.
      * intros [|j] g x y Hj Hx; [done|].
        cbn [lookup list_lookup] in Hj.
        replace (k + Z.of_nat (S j)) with (k + 1 + Z.of_nat j) in * by lia.
        by apply Hin.
Qed.

End Compositor.

Lemma initial_fill (cfg : gridConfig) (canvas : image.RGBA) (x y : Z) :
  0 <= canvasWidth cfg <= 1000000000 -> 0 <= canvasHeight cfg <= 1000000000 ->
  image.Bounds canvas
  = image.mkRectangle (image.mkPoint 0 0)
      (image.mkPoint (canvasWidth cfg) (canvasHeight cfg)) ->
  image.In x y (image.Bounds canvas) = true ->
  image.Pix
    (draw.Draw canvas (image.Bounds canvas) (draw.Uniform (background cfg))
       (image.mkPoint 0 0) draw.Src) x y
  = background cfg.
Proof.
  intros Hw Hh Hb Hin. rewrite Draw_Pix. unfold draw.clip.
  rewrite !In_Intersect, Hin. simpl.
  revert Hin. rewrite Hb. unfold image.In. simpl.
  cmp_cases; simpl; try done; lia.
Qed.

(** C2, as amended.  For a grid with positive [rows], [cols] and
    [cellWidth], non-negative [cellHeight] and [margin], and a canvas of at
    most 10^9 pixels on each axis, and for [rows * cols] frame entries each
    absent or no larger than the cell, [composeGrid] returns a canvas of
    exactly [cols*cellWidth + (cols+1)*margin] by
    [rows*cellHeight + (rows+1)*margin] pixels in which every pixel outside
    the placed frames is the background colour, every pixel of the frame at
    index [i] is that frame over-composited on the background at the centred
    offset of cell [(i / cols, i % cols)], and the cell of an absent entry is
    entirely background. *)
Theorem composeGrid_spec (cfg : gridConfig) (frames : list (option image.RGBA)) :
  0 < rows cfg <= GoInt.max_int -> 0 < cols cfg -> 0 < cellWidth cfg ->
  0 <= cellHeight cfg -> 0 <= margin cfg ->
  canvasWidth cfg <= 1000000000 -> canvasHeight cfg <= 1000000000 ->
  Z.of_nat (length frames) = rows cfg * cols cfg ->
  Forall (fitsCell cfg) frames ->
  exists canvas,
    composeGrid frames cfg = Some canvas
    /\ image.Bounds canvas
       = image.mkRectangle (image.mkPoint 0 0)
           (image.mkPoint (canvasWidth cfg) (canvasHeight cfg))
    /\ (forall x y,
          image.In x y (image.Bounds canvas) = true ->
          (forall (i : nat) f,
             frames !! i = Some (Some f) ->
             image.In x y (placedRect cfg (Z.of_nat i) f) = false) ->
          image.At canvas x y = background cfg)
    /\ (forall (i : nat) f x y,
          frames !! i = Some (Some f) ->
          image.In x y (placedRect cfg (Z.of_nat i) f) = true ->
          image.At canvas x y
          = draw.compose draw.Over (background cfg)
              (framePixel cfg (Z.of_nat i) f x y))
    /\ (forall (i : nat) x y,
          frames !! i = Some None ->
          image.In x y (cellRect cfg (Z.of_nat i)) = true ->
          image.At canvas x y = background cfg).
Proof.
  intros [Hrows Hrmax] Hcols Hcw Hch Hm Hw Hh Hlen Hfit.
  assert (Hw0 : 0 <= canvasWidth cfg) by (unfold canvasWidth; nia).
  assert (Hh0 : 0 <= canvasHeight cfg) by (unfold canvasHeight; nia).
  assert (HW : canvasWidth cfg <= GoInt.max_int) by (unfold GoInt.max_int; lia).
  assert (HH : canvasHeight cfg <= GoInt.max_int)
    by (unfold GoInt.max_int; lia).
  assert (Hnw : forall z, 0 <= z <= 2000000000 -> GoInt.wrap z = z).
  { intros z Hz. apply wrap_nonneg. unfold GoInt.max_int. lia. }
  unfold composeGrid.
  assert (EW : GoInt.add (GoInt.mul (cols cfg) (cellWidth cfg))
                 (GoInt.mul (GoInt.add (cols cfg) 1) (margin cfg))
               = canvasWidth cfg).
  { unfold GoInt.add, GoInt.mul, canvasWidth in *.
    rewrite (Hnw (cols cfg + 1)) by nia.
    rewrite (Hnw (cols cfg * _)), (Hnw ((cols cfg + 1) * _)) by nia.
    apply Hnw. nia. }
  assert (EH : GoInt.add (GoInt.mul (rows cfg) (cellHeight cfg))
                 (GoInt.mul (GoInt.add (rows cfg) 1) (margin cfg))
               = canvasHeight cfg).
  { unfold GoInt.add, GoInt.mul, canvasHeight in *.
    assert (E1 : GoInt.wrap (rows cfg + 1) = rows cfg + 1 \/ margin cfg = 0).
    { destruct (decide (margin cfg = 0)); [by right|left].
      apply Hnw. nia. }
    assert (E2 : GoInt.wrap (rows cfg + 1) * margin cfg
                 = (rows cfg + 1) * margin cfg).
    { destruct E1 as [->| ->]; lia. }
    rewrite E2. rewrite (Hnw (rows cfg * _)), (Hnw ((rows cfg + 1) * _)) by nia.
    apply Hnw. nia. }
  rewrite EW, EH.
  set (rect := image.mkRectangle (image.mkPoint 0 0)
                 (image.mkPoint (canvasWidth cfg) (canvasHeight cfg))).
  assert (ER : image.Rect 0 0 (canvasWidth cfg) (canvasHeight cfg) = rect).
  { unfold image.Rect.
    destruct (Z.ltb_spec (canvasWidth cfg) 0); [lia|].
    destruct (Z.ltb_spec (canvasHeight cfg) 0); [lia|]. done. }
  rewrite ER.
  assert (EN : image.NewRGBA rect
               = Some (image.mkRGBA (fun _ _ => color.zero) rect)).
  { unfold image.NewRGBA, image.mul3NonNeg, image.Dx, image.Dy, GoInt.sub.
    simpl. rewrite !Z.sub_0_r, !Hnw by lia.
    destruct (Z.ltb_spec (canvasWidth cfg) 0); [lia|].
    destruct (Z.ltb_spec (canvasHeight cfg) 0); [lia|]. simpl.
    destruct (Z.leb_spec (2 ^ 64) (4 * canvasWidth cfg)); [lia|].
    destruct (Z.leb_spec (2 ^ 63)
                (4 * canvasWidth cfg * canvasHeight cfg)); [nia|].
    destruct (Z.ltb_spec (4 * canvasWidth cfg * canvasHeight cfg) 0);
      [nia|done]. }
  rewrite EN. cbn [mbind option_bind].
  set (c0 := draw.Draw _ _ _ _ _).
  destruct (composeLoop_spec cfg ltac:(lia) Hcols Hcw Hch Hm HW HH Hrmax
              frames 0 c0) as (c & Hc & Hb & Hout & Hin);
    [lia|lia|done|by unfold c0; rewrite Draw_Bounds|].
  change (image.Bounds c = rect) in Hb.
  assert (Hc0 : forall x y,
            image.In x y rect = true -> image.Pix c0 x y = background cfg).
  { intros x y Hxy. unfold c0. by apply initial_fill. }
  exists c. split; [done|]. split; [done|].
  assert (Hbg : forall x y,
            image.In x y (image.Bounds c) = true ->
            (forall (i : nat) f,
               frames !! i = Some (Some f) ->
               image.In x y (placedRect cfg (Z.of_nat i) f) = false) ->
            image.At c x y = background cfg).
  { intros x y Hxy Hno. unfold image.At. rewrite Hxy, Hout.
    - apply Hc0. by rewrite <- Hb.
    - intros j f Hj. rewrite Z.add_0_l. by apply Hno. }
  split; [done|]. split.
  - intros i f x y Hi Hx.
    assert (Hf : fitsCell cfg (Some f)).
    { eapply Forall_lookup_1 in Hfit; [|exact Hi]. done. }
    pose proof (lookup_lt_Some _ _ _ Hi) as Hlt.
    assert (Hxy : image.In x y rect = true).
    { apply (cell_in_canvasRect cfg ltac:(lia) Hcols Hcw Hch Hm
               (Z.of_nat i)); [lia|].
      eapply placed_in_cell; eauto; lia. }
    unfold image.At. rewrite Hb, Hxy.
    specialize (Hin i f x y Hi). rewrite Z.add_0_l in Hin.
    rewrite Hin by done. by rewrite Hc0.
  - intros i x y Hi Hx.
    pose proof (lookup_lt_Some _ _ _ Hi) as Hlt.
    apply Hbg.
    + rewrite Hb.
      apply (cell_in_canvasRect cfg ltac:(lia) Hcols Hcw Hch Hm
               (Z.of_nat i)); [lia|done].
    + intros j f Hj.
      destruct (image.In x y (placedRect cfg (Z.of_nat j) f)) eqn:E; [|done].
      assert (Hf : fitsCell cfg (Some f)).
      { eapply Forall_lookup_1 in Hfit; [|exact Hj]. done. }
      pose proof (lookup_lt_Some _ _ _ Hj) as Hlt'.
      eapply placed_in_cell in E; eauto; try lia.
      assert (i <> j) by (intros ->; congruence).
      rewrite (cells_disjoint cfg ltac:(lia) Hcols Hcw Hch Hm
                 (Z.of_nat i) (Z.of_nat j) x y) in E; done || lia.
Qed.

Lemma composeGrid_spec_witness :
  exists canvas,
    composeGrid [Some smallFrame; None] smallConfig = Some canvas
    /\ image.Bounds canvas = image.Rect 0 0 7 4
    /\ image.At canvas 1 1 = color.mkRGBA 200 100 50 255
    /\ image.At canvas 2 1 = color.mkRGBA 10 20 30 255
    /\ image.At canvas 4 1 = color.mkRGBA 10 20 30 255.
Proof.
  destruct (composeGrid_spec smallConfig [Some smallFrame; None])
    as (canvas & Hc & Hb & Hout & Hin & Hnone).
  - vm_compute. done.
  - reflexivity.
  - reflexivity.
  - discriminate.
  - discriminate.
  - discriminate.
  - discriminate.
  - reflexivity.
  - repeat constructor; vm_compute; discriminate.
  - exists canvas. split; [exact Hc|]. split; [exact Hb|]. split; [|split].
    + exact (Hin O smallFrame 1 1 eq_refl eq_refl).
    + apply Hout; [by rewrite Hb|].
      intros [|[|i]] f Hi; [|done|done]. by injection Hi as <-.
    + exact (Hnone 1%nat 4 1 eq_refl eq_refl).
Defined.

(** C2 fails as stated: on a canvas wider than the 10^9-pixel extent of
    Go's uniform image the initial fill stops at [x = 10^9], and the pixels
    beyond stay transparent black although no frame covers them. *)
Lemma composeGrid_wide_canvas :
  exists canvas,
    composeGrid [None] wideConfig = Some canvas
    /\ image.Bounds canvas = image.Rect 0 0 2000000000 1
    /\ image.In 1500000000 0 (image.Bounds canvas) = true
    /\ image.At canvas 1500000000 0 = color.zero
    /\ image.At canvas 1500000000 0 <> background wideConfig.
Proof.
  eexists. split; [reflexivity|]. vm_compute. repeat split; discriminate.
Qed.

(** ** Colour parser *)

Lemma digit_spec (c : ascii) :
  if isHexDigit c then
    strconv.digit (strings.byte c) = Some (hexDigitValue c)
    /\ 0 <= hexDigitValue c < 16
  else
    match strconv.digit (strings.byte c) with
    | Some d => 16 <= d
    | None => True
    end.
Proof.
  destruct c as [[] [] [] [] [] [] [] []]; vm_compute;
    try done; split; try done; split; discriminate.
Qed.

(** Two characters parse as a byte exactly when both are hex digits. *)
Lemma ParseUint_pair (a b : ascii) :
  strconv.ParseUint (String a (String b "")) 16 8
  = if isHexDigit a && isHexDigit b then inl (hexPair a b)
    else inr strconv.ErrSyntax.
Proof.
  unfold strconv.ParseUint. cbn [String.eqb strconv.parseDigits].
  pose proof (digit_spec a) as Ha. pose proof (digit_spec b) as Hb.
  change ((2 ^ 64 - 1) / 16 + 1) with 1152921504606846976.
  change (2 ^ 8 - 1) with 255. change (0 * 16) with 0.
  destruct (isHexDigit a).
  - destruct Ha as [-> Ha].
    destruct (Z.leb_spec 16 (hexDigitValue a)); [lia|].
    change (1152921504606846976 <=? 0) with false. cbv iota.
    rewrite (Z.mod_small 0), Z.add_0_l, (Z.mod_small (hexDigitValue a))
      by lia.
    destruct (Z.ltb_spec (hexDigitValue a) 0); [lia|].
    destruct (Z.ltb_spec 255 (hexDigitValue a)); [lia|]. cbn [orb].
    destruct (isHexDigit b).
    + destruct Hb as [-> Hb].
      destruct (Z.leb_spec 16 (hexDigitValue b)); [lia|].
      destruct (Z.leb_spec 1152921504606846976 (hexDigitValue a)); [lia|].
      rewrite (Z.mod_small (hexDigitValue a * 16)) by lia.
      rewrite (Z.mod_small (_ + _)) by lia.
      destruct (Z.ltb_spec (hexDigitValue a * 16 + hexDigitValue b)
                  (hexDigitValue a * 16)); [lia|].
      destruct (Z.ltb_spec 255 (hexDigitValue a * 16 + hexDigitValue b));
        [lia|].
      cbn. unfold hexPair. f_equal. lia.
    + cbn [andb]. destruct (strconv.digit (strings.byte b)) as [d|]; [|done].
      destruct (Z.leb_spec 16 d); [done|lia].
  - cbn [andb]. destruct (strconv.digit (strings.byte a)) as [d|]; [|done].
    destruct (Z.leb_spec 16 d); [done|lia].
Qed.

Lemma hexPair_uint8 (a b : ascii) :
  isHexDigit a = true -> isHexDigit b = true -> uint8 (hexPair a b) = hexPair a b.
Proof.
  intros Ha Hb. pose proof (digit_spec a) as Ha'. pose proof (digit_spec b) as Hb'.
  rewrite Ha in Ha'. rewrite Hb in Hb'. unfold uint8, hexPair.
  apply Z.mod_small. lia.
Qed.

Tactic Notation "hex_pair" constr(c) constr(d) :=
  rewrite (ParseUint_pair c d);
  destruct (isHexDigit c) eqn:?; [|by rewrite ?andb_false_r];
  destruct (isHexDigit d) eqn:?; [|by rewrite ?andb_false_r];
  cbn [andb].

(** C6, as amended.  After trimming surrounding white space and then one
    optional leading [#], the parser succeeds exactly when 6 or 8 hex digits
    remain; 6 digits give [RGBA(R,G,B,255)], 8 digits [RGBA(R,G,B,A)]; any
    other length is a format error and a group that is not hexadecimal a
    syntax error.  In particular [#FF0000] is [RGBA(255,0,0,255)],
    [#00FF0080] is [RGBA(0,255,0,128)] and [GGHHII] is an error. *)
Theorem parseHexColor_spec :
  (forall value : string,
     let digits :=
       list_ascii_of_string
         (strings.TrimPrefix (strings.TrimSpace value) "#") in
     parseHexColor value
     = match hexColor digits with
       | Some c => inl c
       | None =>
           if (length digits =? 6)%nat || (length digits =? 8)%nat then
             inr (ErrParseColor strconv.ErrSyntax)
           else inr (ErrColorFormat value)
       end)
  /\ parseHexColor "#FF0000" = inl (color.mkRGBA 255 0 0 255)
  /\ parseHexColor "#00FF0080" = inl (color.mkRGBA 0 255 0 128)
  /\ parseHexColor "GGHHII" = inr (ErrParseColor strconv.ErrSyntax).
Proof.
  split; [|by vm_compute].
  intros value digits. unfold parseHexColor. subst digits.
  destruct (strings.TrimPrefix (strings.TrimSpace value) "#")
    as [|c1 [|c2 [|c3 [|c4 [|c5 [|c6 [|c7 [|c8 [|c9 hex]]]]]]]]];
    try reflexivity;
    try by (unfold hexColor; cbn [list_ascii_of_string];
            destruct (forallb _ _)).
  - unfold hexColor.
    cbn [String.length substring list_ascii_of_string forallb length
         Nat.eqb orb].
    hex_pair c1 c2. hex_pair c3 c4. hex_pair c5 c6.
    by rewrite !hexPair_uint8.
  - unfold hexColor.
    cbn [String.length substring list_ascii_of_string forallb length
         Nat.eqb orb].
    hex_pair c1 c2. hex_pair c3 c4. hex_pair c5 c6. hex_pair c7 c8.
    by rewrite !hexPair_uint8.
Qed.

(** C6 fails as stated: a string with surrounding white space is accepted,
    although what remains after removing an optional leading [#] is not 6 or
    8 hex digits. *)
Lemma parseHexColor_trims_space :
  parseHexColor " FF0000" = inl (color.mkRGBA 255 0 0 255)
  /\ specColor " FF0000" = None
  /\ parseHexColor "#00ff00 " = inl (color.mkRGBA 0 255 0 255)
  /\ specColor "#00ff00 " = None.
Proof. by vm_compute. Qed.

(** ** Flag validation *)

(** C8 (the code departs from it).  [parseFlags] never looks at the cell
    height: its outcome is the same for every value, and a negative height
    is accepted and stored in the configuration. *)
Theorem parseFlags_negative_cellHeight :
  (forall input output rows cols cellWidth h margin quality bg,
     parseFlags
       (mkFlagValues input output rows cols cellWidth h margin quality bg)
     = match parseFlags
               (mkFlagValues input output rows cols cellWidth 0 margin
                  quality bg) with
       | inl cfg =>
           inl (mkGridConfig input output rows cols cellWidth h margin
                  quality (background cfg))
       | inr e => inr e
       end)
  /\ parseFlags (mkFlagValues "in.mp4" "preview.png" 3 3 320 (-5) 8 90 "#FFFFFF")
     = inl (mkGridConfig "in.mp4" "preview.png" 3 3 320 (-5) 8 90
              (color.mkRGBA 255 255 255 255)).
Proof.
  split; [|by vm_compute].
  intros. unfold parseFlags. cbn [flagInput flagOutput flagRows flagCols
    flagCellWidth flagCellHeight flagMargin flagQuality flagBackground].
  repeat match goal with |- context [if ?b then _ else _] =>
    destruct b; [reflexivity|] end.
  by destruct (parseHexColor bg).
Qed.

(** ** Saving the image *)

Lemma saveImage_unsupported pngEncode jpegEncode img path quality fs :
  let ext := strings.ToLower (filepath.Ext path) in
  ext <> ".jpg"%string -> ext <> ".jpeg"%string -> ext <> ".png"%string ->
  ext <> ""%string ->
  forall fs1 fs2 file,
    ensureOutputDir path fs = (fs1, None) ->
    os.Create path fs1 = (fs2, inl file) ->
    saveImage pngEncode jpegEncode img path quality fs
    = (fs2, Some (ErrUnsupportedFormat ext))
    /\ fs2 !! filepath.Clean path = Some (os.File "").
Proof.
  intros ext H1 H2 H3 H4 fs1 fs2 file Hd Hc. unfold saveImage.
  rewrite Hd, Hc. fold ext.
  rewrite <- String.eqb_neq in H1, H2, H3, H4. rewrite H1, H2, H3, H4.
  split; [done|]. revert Hc. unfold os.Create. cbv zeta.
  destruct (os.walk _ _ _); [|done].
  destruct (String.eqb (List.last _ _) ""); [done|].
  destruct (os.isDir fs1 _); [done|]. intros [= <- _].
  apply lookup_insert_eq.
Qed.

(** C9 (the code departs from it).  For the path [out.gif] in an empty
    directory [saveImage] reports the unsupported format, yet the file system
    has changed: [os.Create] ran before the extension was looked at and left
    an empty [out.gif] behind.  The same happens below a directory that had
    to be created first. *)
Theorem saveImage_unsupported_leaves_file :
  forall pngEncode jpegEncode img quality,
    saveImage pngEncode jpegEncode img "out.gif" quality ∅
    = (<["out.gif"%string := os.File ""]> ∅,
       Some (ErrUnsupportedFormat ".gif"))
    /\ saveImage pngEncode jpegEncode img "previews/Grid.BMP" quality ∅
       = (<["previews/Grid.BMP"%string := os.File ""]>
            (<["previews"%string := os.Directory]> ∅),
          Some (ErrUnsupportedFormat ".bmp")).
Proof. intros. split; reflexivity. Qed.

(** ** Frame fitter *)

Section FrameFitter.

Variable approxBiLinear :
  image.RGBA -> image.Rectangle -> image.Rectangle -> Z -> Z -> color.RGBA.

Lemma Scale_Bounds dst dr src sr op :
  image.Bounds (Scale approxBiLinear dst dr src sr op) = image.Bounds dst.
Proof. unfold Scale. by destruct (_ || _). Qed.

(** [scaleToFit] allocates a bitmap of the size [fitSize] gives, anchored at
    the origin. *)
Lemma scaleToFit_size (img : image.RGBA) (maxW maxH : Z) :
  let w := frameWidth img in
  let h := frameHeight img in
  0 < w < 2 ^ 30 -> 0 < h < 2 ^ 30 -> 0 < maxW < 2 ^ 30 -> 0 < maxH < 2 ^ 30 ->
  exists dst,
    scaleToFit approxBiLinear img maxW maxH = Some dst
    /\ image.Min (image.Bounds dst) = image.mkPoint 0 0
    /\ (frameWidth dst, frameHeight dst) = fitSize w h maxW maxH.
Proof.
  intros w h Hw Hh HmW HmH.
  destruct (fitSize_spec w h maxW maxH) as (Efit & HW & HH & _); [lia..|].
  unfold scaleToFit.
  assert (Edx : image.Dx (image.Bounds img) = w).
  { unfold image.Dx, GoInt.sub. apply wrap_nonneg. fold (frameWidth img).
    unfold GoInt.max_int. lia. }
  assert (Edy : image.Dy (image.Bounds img) = h).
  { unfold image.Dy, GoInt.sub. apply wrap_nonneg. fold (frameHeight img).
    unfold GoInt.max_int. lia. }
  rewrite Edx, Edy, Efit. lazy beta iota zeta.
  set (nw := Z.max 1 (F64.to_int (F64.Round (F64.of_int w * _)))) in *.
  set (nh := Z.max 1 (F64.to_int (F64.Round (F64.of_int h * _)))) in *.
  assert (Hnw : 1 <= nw < 2 ^ 30) by lia.
  assert (Hnh : 1 <= nh < 2 ^ 30) by lia.
  change (2 ^ 30) with 1073741824 in *.
  assert (ER : image.Rect 0 0 nw nh
               = image.mkRectangle (image.mkPoint 0 0) (image.mkPoint nw nh)).
  { unfold image.Rect.
    destruct (Z.ltb_spec nw 0); [lia|]. by destruct (Z.ltb_spec nh 0); [lia|]. }
  rewrite ER.
  assert (EN : image.NewRGBA
                 (image.mkRectangle (image.mkPoint 0 0) (image.mkPoint nw nh))
               = Some (image.mkRGBA (fun _ _ => color.zero)
                         (image.mkRectangle (image.mkPoint 0 0)
                            (image.mkPoint nw nh)))).
  { unfold image.NewRGBA, image.mul3NonNeg, image.Dx, image.Dy, GoInt.sub.
    cbn [image.Max image.Min image.X image.Y]. rewrite !Z.sub_0_r.
    rewrite !wrap_nonneg by (unfold GoInt.max_int; lia).
    destruct (Z.ltb_spec nw 0); [lia|]. destruct (Z.ltb_spec nh 0); [lia|].
    cbn [Z.ltb Z.compare orb].
    destruct (Z.leb_spec (2 ^ 64) (4 * nw)); [lia|].
    destruct (Z.leb_spec (2 ^ 63) (4 * nw * nh)); [nia|].
    by destruct (Z.ltb_spec (4 * nw * nh) 0); [nia|]. }
  rewrite EN. cbn [mbind option_bind]. eexists. split; [reflexivity|].
  unfold frameWidth, frameHeight. rewrite Scale_Bounds.
  split; [reflexivity|]. cbn. f_equal; lia.
Qed.

(** C3, as amended.  For a bitmap and a target box with all four dimensions
    positive and below 2^30, [scaleToFit] returns a bitmap whose sides are
    the float64 values [round(w * scale)] and [round(h * scale)] with
    [scale = min(maxW / w, maxH / h)], each floored at one pixel; the width
    does not exceed [maxW] and the height does not exceed [maxH].  While the
    products [w * maxH] and [h * maxW] stay below 2^50, the two rounded values
    are also integers nearest to the exact products [w * s] and [h * s] for
    the real number [s = min(maxW / w, maxH / h)]. *)
Theorem scaleToFit_spec (img : image.RGBA) (maxW maxH : Z) :
  let w := frameWidth img in
  let h := frameHeight img in
  0 < w < 2 ^ 30 -> 0 < h < 2 ^ 30 -> 0 < maxW < 2 ^ 30 -> 0 < maxH < 2 ^ 30 ->
  let scale :=
    F64.Min (F64.of_int maxW / F64.of_int w) (F64.of_int maxH / F64.of_int h) in
  let newW := F64.to_int (F64.Round (F64.of_int w * scale)) in
  let newH := F64.to_int (F64.Round (F64.of_int h * scale)) in
  exists dst,
    scaleToFit approxBiLinear img maxW maxH = Some dst
    /\ frameWidth dst = Z.max 1 newW
    /\ frameHeight dst = Z.max 1 newH
    /\ 1 <= frameWidth dst <= maxW
    /\ 1 <= frameHeight dst <= maxH
    /\ (w * maxH < 2 ^ 50 -> h * maxW < 2 ^ 50 ->
        let s := Rmin (IZR maxW / IZR w) (IZR maxH / IZR h) in
        (Rabs (IZR newW - IZR w * s) <= 1 / 2)%R
        /\ (Rabs (IZR newH - IZR h * s) <= 1 / 2)%R).
Proof.
  intros w h Hw Hh HmW HmH scale newW newH.
  destruct (scaleToFit_size img maxW maxH Hw Hh HmW HmH)
    as (dst & Hdst & _ & Hsize).
  destruct (fitSize_spec w h maxW maxH) as (Efit & HW & HH & _); [lia..|].
  fold w h in Hsize. rewrite Efit in Hsize. injection Hsize as EW EH.
  exists dst. split; [done|]. fold scale in EW, EH, HW, HH.
  fold newW in EW, HW. fold newH in EH, HH.
  rewrite EW, EH. repeat (split; [lia|]).
  intros HwH HhW. apply fitSize_nearest; lia.
Qed.

(** C7, as amended.  For a bitmap and a target box with all four dimensions
    positive and below 2^30, the fitted frame meets the box on one axis: its
    width is [maxW] or its height is [maxH]. *)
Theorem scaleToFit_meets_bound (img : image.RGBA) (maxW maxH : Z) :
  let w := frameWidth img in
  let h := frameHeight img in
  0 < w < 2 ^ 30 -> 0 < h < 2 ^ 30 -> 0 < maxW < 2 ^ 30 -> 0 < maxH < 2 ^ 30 ->
  exists dst,
    scaleToFit approxBiLinear img maxW maxH = Some dst
    /\ (frameWidth dst = maxW \/ frameHeight dst = maxH).
Proof.
  intros w h Hw Hh HmW HmH.
  destruct (scaleToFit_size img maxW maxH Hw Hh HmW HmH)
    as (dst & Hdst & _ & Hsize).
  destruct (fitSize_spec w h maxW maxH) as (Efit & HW & HH & Hone); [lia..|].
  fold w h in Hsize. rewrite Efit in Hsize. injection Hsize as EW EH.
  exists dst. split; [done|]. rewrite EW, EH. lia.
Qed.

End FrameFitter.

Lemma scaleToFit_spec_witness :
  exists dst,
    scaleToFit sampleKernel sampleFrame 100 56 = Some dst
    /\ frameWidth dst = 100 /\ frameHeight dst = 56.
Proof.
  assert (H1 : 0 < frameWidth sampleFrame < 2 ^ 30) by (vm_compute; done).
  assert (H2 : 0 < frameHeight sampleFrame < 2 ^ 30) by (vm_compute; done).
  assert (H3 : 0 < 100 < 2 ^ 30) by done.
  assert (H4 : 0 < 56 < 2 ^ 30) by done.
  pose proof (scaleToFit_spec sampleKernel sampleFrame 100 56 H1 H2 H3 H4)
    as H.
  cbv zeta in H. destruct H as (dst & Hdst & EW & EH & _).
  exists dst. split; [exact Hdst|]. rewrite EW, EH. clear.
  vm_compute. split; reflexivity.
Defined.

Lemma scaleToFit_meets_bound_witness :
  exists dst,
    scaleToFit sampleKernel sampleFrame 320 320 = Some dst
    /\ (frameWidth dst = 320 \/ frameHeight dst = 320).
Proof.
  assert (H1 : 0 < frameWidth sampleFrame < 2 ^ 30) by (vm_compute; done).
  assert (H2 : 0 < frameHeight sampleFrame < 2 ^ 30) by (vm_compute; done).
  assert (H3 : 0 < 320 < 2 ^ 30) by done.
  exact (scaleToFit_meets_bound sampleKernel sampleFrame 320 320 H1 H2 H3 H3).
Defined.

(** C3 fails as stated, for boxes that no bitmap can fill.  A single pixel
    in a box of 2^31 by 2^31 gives no bitmap at all: the size computed is
    2^31 by 2^31 and [image.NewRGBA] panics.  In a box of the largest [int]
    on both axes the rounded product is 2^63, outside the range of [int];
    the conversion gives the most negative [int], and the floor of one pixel
    makes the result 1 by 1. *)
Lemma scaleToFit_huge_box :
  frameWidth unitFrame = 1 /\ frameHeight unitFrame = 1
  /\ scaleToFit sampleKernel unitFrame (2 ^ 31) (2 ^ 31) = None
  /\ F64.Round
       (F64.of_int 1
        * F64.Min (F64.of_int GoInt.max_int / F64.of_int 1)
            (F64.of_int GoInt.max_int / F64.of_int 1))%float
     = 0x1p+63%float
  /\ F64.to_int 0x1p+63%float = GoInt.min_int
  /\ exists dst,
       scaleToFit sampleKernel unitFrame GoInt.max_int GoInt.max_int
       = Some dst
       /\ frameWidth dst = 1 /\ frameHeight dst = 1.
Proof.
  do 5 (split; [vm_compute; reflexivity|]).
  eexists. split; [vm_compute; reflexivity|]. split; reflexivity.
Qed.

(** C7 fails as stated, for the same boxes: the single pixel fitted into a
    box of the largest [int] on both axes comes back 1 by 1, so neither side
    equals its bound, and in a box of 2^31 by 2^31 there is no fitted frame
    at all. *)
Lemma scaleToFit_misses_bound :
  frameWidth unitFrame = 1 /\ frameHeight unitFrame = 1
  /\ (exists dst,
        scaleToFit sampleKernel unitFrame GoInt.max_int GoInt.max_int
        = Some dst
        /\ frameWidth dst <> GoInt.max_int
        /\ frameHeight dst <> GoInt.max_int)
  /\ scaleToFit sampleKernel unitFrame (2 ^ 31) (2 ^ 31) = None.
Proof.
  do 2 (split; [vm_compute; reflexivity|]). split.
  - eexists. split; [vm_compute; reflexivity|]. split; vm_compute; discriminate.
  - vm_compute. reflexivity.
Qed.

(** * Further properties *)

(** ** Flag validation *)

(** X1. [parseFlags] returns a configuration exactly when the input path is
    not empty, [rows], [cols] and the cell width are positive, the margin is
    not negative, the quality lies in 1..100 and the background parses; the
    configuration then carries the flag values unchanged, with the parsed
    colour. *)
Theorem parseFlags_accepts (fl : flagValues) (cfg : gridConfig) :
  parseFlags fl = inl cfg
  <-> flagInput fl <> ""%string
      /\ 0 < flagRows fl /\ 0 < flagCols fl /\ 0 < flagCellWidth fl
      /\ 0 <= flagMargin fl /\ 1 <= flagQuality fl <= 100
      /\ exists c,
           parseHexColor (flagBackground fl) = inl c
           /\ cfg = mkGridConfig (flagInput fl) (flagOutput fl) (flagRows fl)
                      (flagCols fl) (flagCellWidth fl) (flagCellHeight fl)
                      (flagMargin fl) (flagQuality fl) c.
Proof.
  unfold parseFlags. destruct (String.eqb_spec (flagInput fl) "") as [E|E].
  { split; [done|]. by intros [? _]. }
  destruct (Z.leb_spec (flagRows fl) 0); cbn [orb].
  { split; [done|]. intros (_ & ? & _). lia. }
  destruct (Z.leb_spec (flagCols fl) 0).
  { split; [done|]. intros (_ & _ & ? & _). lia. }
  destruct (Z.leb_spec (flagCellWidth fl) 0).
  { split; [done|]. intros (_ & _ & _ & ? & _). lia. }
  destruct (Z.ltb_spec (flagMargin fl) 0).
  { split; [done|]. intros (_ & _ & _ & _ & ? & _). lia. }
  destruct (Z.ltb_spec (flagQuality fl) 1); cbn [orb].
  { split; [done|]. intros (_ & _ & _ & _ & _ & ? & _). lia. }
  destruct (Z.ltb_spec 100 (flagQuality fl)).
  { split; [done|]. intros (_ & _ & _ & _ & _ & ? & _). lia. }
  destruct (parseHexColor (flagBackground fl)) as [c|e].
  - split.
    + intros [= <-]. repeat (split; [done || lia|]). by exists c.
    + intros (_ & _ & _ & _ & _ & _ & c' & [= <-] & ->). done.
  - split; [done|]. by intros (_ & _ & _ & _ & _ & _ & c' & ? & _).
Qed.

(** ** Grid compositor *)

Lemma composeLoop_total (cfg : gridConfig) (frames : list (option image.RGBA)) :
  cols cfg <> 0 ->
  forall idx canvas,
    exists canvas',
      composeLoop cfg frames idx canvas = Some canvas'
      /\ image.Bounds canvas' = image.Bounds canvas.
Proof.
  intros Hcols. induction frames as [|[f|] rest IH]; intros idx canvas;
    cbn [composeLoop].
  - by exists canvas.
  - unfold GoInt.quo, GoInt.rem.
    destruct (Z.eqb_spec (cols cfg) 0); [done|].
    cbn [mbind option_bind Z.eqb].
    match goal with |- context [composeLoop cfg rest ?i ?c] =>
      destruct (IH i c) as (c' & Hc' & Hb) end.
    exists c'. split; [done|]. by rewrite Hb, Draw_Bounds.
  - apply IH.
Qed.

Lemma composeGrid_total (cfg : gridConfig)
    (frames : list (option image.RGBA)) :
  cols cfg <> 0 ->
  let totalWidth :=
    GoInt.add (GoInt.mul (cols cfg) (cellWidth cfg))
              (GoInt.mul (GoInt.add (cols cfg) 1) (margin cfg)) in
  let totalHeight :=
    GoInt.add (GoInt.mul (rows cfg) (cellHeight cfg))
              (GoInt.mul (GoInt.add (rows cfg) 1) (margin cfg)) in
  let rect := image.Rect 0 0 totalWidth totalHeight in
  match image.NewRGBA rect with
  | None => composeGrid frames cfg = None
  | Some _ =>
      exists canvas,
        composeGrid frames cfg = Some canvas /\ image.Bounds canvas = rect
  end.
Proof.
  intros Hcols totalWidth totalHeight rect. unfold composeGrid.
  fold totalWidth totalHeight rect.
  destruct (image.NewRGBA rect) as [c0|] eqn:E; cbn [mbind option_bind];
    [|done].
  match goal with |- context [composeLoop cfg frames 0 ?c] =>
    destruct (composeLoop_total cfg frames Hcols 0 c) as (c' & Hc' & Hb) end.
  exists c'. split; [done|]. rewrite Hb, Draw_Bounds.
  unfold image.NewRGBA in E. destruct (_ <? 0); [done|]. by injection E as <-.
Qed.

(** X2. With a non-zero [cols] the frames never make [composeGrid] fail and
    never change the canvas size: whatever their number and sizes, the
    result is a canvas whose bounds are the rectangle computed from the
    configuration alone, or a panic exactly when that rectangle cannot be
    allocated. *)
Theorem composeGrid_bounds (cfg : gridConfig)
    (frames : list (option image.RGBA)) :
  cols cfg <> 0 ->
  let totalWidth :=
    GoInt.add (GoInt.mul (cols cfg) (cellWidth cfg))
              (GoInt.mul (GoInt.add (cols cfg) 1) (margin cfg)) in
  let totalHeight :=
    GoInt.add (GoInt.mul (rows cfg) (cellHeight cfg))
              (GoInt.mul (GoInt.add (rows cfg) 1) (margin cfg)) in
  let rect := image.Rect 0 0 totalWidth totalHeight in
  match image.NewRGBA rect with
  | None => composeGrid frames cfg = None
  | Some _ =>
      exists canvas,
        composeGrid frames cfg = Some canvas /\ image.Bounds canvas = rect
  end.
Proof. apply composeGrid_total. Qed.

Lemma composeGrid_bounds_witness :
  exists canvas,
    composeGrid [Some sampleFrame; None; Some smallFrame] smallConfig
    = Some canvas
    /\ image.Bounds canvas = image.Rect 0 0 7 4.
Proof.
  assert (H : cols smallConfig <> 0) by discriminate.
  exact (composeGrid_bounds smallConfig
           [Some sampleFrame; None; Some smallFrame] H).
Defined.

Lemma composeLoop_zero_cols (cfg : gridConfig)
    (frames : list (option image.RGBA)) :
  cols cfg = 0 ->
  forall idx canvas,
    composeLoop cfg frames idx canvas
    = if forallb (fun e => negb (bool_decide (is_Some e))) frames
      then Some canvas else None.
Proof.
  intros Hcols. induction frames as [|[f|] rest IH]; intros idx canvas;
    cbn [composeLoop forallb].
  - done.
  - unfold GoInt.quo. rewrite Hcols. done.
  - rewrite IH. done.
Qed.

(** X3. With [cols = 0] the first frame that is present makes the loop
    divide by zero: [composeGrid] panics whenever some entry is not [nil],
    whatever the rest of the configuration. *)
Theorem composeGrid_zero_cols (cfg : gridConfig)
    (frames : list (option image.RGBA)) (f : image.RGBA) :
  cols cfg = 0 -> Some f ∈ frames -> composeGrid frames cfg = None.
Proof.
  intros Hcols Hin. unfold composeGrid.
  destruct (image.NewRGBA _) as [c0|]; cbn [mbind option_bind]; [|done].
  rewrite composeLoop_zero_cols by done.
  destruct (forallb _ frames) eqn:E; [|done].
  rewrite forallb_forall in E. apply list_elem_of_In, E in Hin.
  rewrite bool_decide_eq_true_2 in Hin; [done|by eexists].
Qed.

Lemma composeGrid_zero_cols_witness :
  composeGrid [None; Some smallFrame]
    (mkGridConfig "in.mp4" "preview.png" 3 0 320 180 8 90
       (color.mkRGBA 255 255 255 255))
  = None.
Proof.
  apply (composeGrid_zero_cols _ _ smallFrame); [reflexivity|].
  apply list_elem_of_In. right. left. reflexivity.
Defined.

(** ** Cell-height inference *)

(** X4. From a cell width of 2 pixels on, the inferred height is at least one
    pixel, whatever the source dimensions: a non-positive rounded height is
    replaced by the fallback, and the fallback [9 * cellWidth / 16] is
    positive. *)
Theorem inferCellHeight_positive (cw vw vh : Z) :
  2 <= cw < 2 ^ 49 -> 1 <= inferCellHeight cw vw vh.
Proof.
  intros Hcw. unfold inferCellHeight. rewrite fallback_exact by lia.
  assert (1 <= 9 * cw / 16) by (apply Z.div_le_lower_bound; lia).
  destruct (_ || _); [done|].
  match goal with |- context [?h <=? 0] => destruct (Z.leb_spec h 0) end; lia.
Qed.

Lemma inferCellHeight_positive_witness :
  1 <= inferCellHeight 2 0 0 /\ 1 <= inferCellHeight 2 4000 1.
Proof.
  split; apply inferCellHeight_positive; lia.
Defined.

Lemma inferCellHeight_divisible (cw vw vh : Z) :
  0 < cw < 2 ^ 24 -> 0 < vw < 2 ^ 24 -> 0 < vh < 2 ^ 24 ->
  (cw * vh) mod vw = 0 ->
  inferCellHeight cw vw vh = cw * vh / vw.
Proof.
  intros Hcw Hvw Hvh Hdiv. unfold inferCellHeight.
  destruct (Z.leb_spec vw 0); [lia|]. destruct (Z.leb_spec vh 0); [lia|].
  cbn [orb].
  destruct (round_mul_div_nearest cw vh vw) as [Hpos Hnear]; [lia..|].
  cbv zeta in Hpos, Hnear.
  set (h := F64.to_int _) in *.
  pose proof (Z.div_mod (cw * vh) vw ltac:(lia)) as Hq.
  rewrite Hdiv, Z.add_0_r in Hq. set (q := cw * vh / vw) in *.
  assert (0 < q) by nia.
  assert (h = q) as -> by nia.
  destruct (Z.leb_spec q 0); [lia|done].
Qed.

(** X5. When the source width divides [cellWidth * videoHeight], the
    inferred height is the exact quotient: the two float64 roundings cannot
    move the product to another integer. *)
Theorem inferCellHeight_exact (cw vw vh : Z) :
  0 < cw < 2 ^ 24 -> 0 < vw < 2 ^ 24 -> 0 < vh < 2 ^ 24 ->
  (cw * vh) mod vw = 0 ->
  inferCellHeight cw vw vh = cw * vh / vw.
Proof. apply inferCellHeight_divisible. Qed.

Lemma inferCellHeight_exact_witness : inferCellHeight 320 1920 1080 = 180.
Proof.
  apply (inferCellHeight_exact 320 1920 1080); [lia|lia|lia|reflexivity].
Defined.

(** ** Timestamp sampler *)

Lemma sampleTimestamps_len (duration : float) (count : Z) :
  count < GoInt.max_int ->
  length (sampleTimestamps duration count) = Z.to_nat count.
Proof.
  intros Hc. destruct (Z.le_gt_cases count 0) as [H0|H0].
  - unfold sampleTimestamps. destruct (Z.leb_spec count 0); [|lia].
    cbn. lia.
  - destruct (Z.eq_dec count 1) as [->|H1]; [done|].
    rewrite sampleTimestamps_map by lia.
    rewrite length_fmap, length_seqZ. done.
Qed.

(** X6. For every duration, finite or not, and every count below the largest
    [int], [sampleTimestamps] returns exactly [count] values, and none for a
    count of zero or less. *)
Theorem sampleTimestamps_length (duration : float) (count : Z) :
  count < GoInt.max_int ->
  length (sampleTimestamps duration count) = Z.to_nat count.
Proof. apply sampleTimestamps_len. Qed.

Lemma sampleTimestamps_length_witness :
  length (sampleTimestamps nan 4) = 4%nat
  /\ length (sampleTimestamps 10 (-3)) = 0%nat.
Proof.
  split.
  - apply (sampleTimestamps_length nan 4). reflexivity.
  - apply (sampleTimestamps_length 10 (-3)). reflexivity.
Defined.

(** ** Frame fitter: boxes and sources outside the usual range *)

Lemma BRA_opp (m e : Z) (l : location) :
  binary_round_aux prec emax true m e l
  = SFopp (binary_round_aux prec emax false m e l).
Proof.
  unfold binary_round_aux.
  destruct (shr_fexp prec emax m e l) as [mrs' e'].
  destruct (shr_fexp prec emax _ e' loc_Exact) as [mrs'' e''].
  destruct (shr_m mrs''); try reflexivity.
  by destruct (e'' <=? emax - prec).
Qed.

Lemma of_int_neg (z : Z) :
  0 < z < 2 ^ 53 ->
  Prim2SF (F64.of_int (- z)) = SFopp (Prim2SF (F64.of_int z)).
Proof.
  intros Hz. destruct z as [|p|p]; [lia| |lia].
  pose proof (digits2_pos_bounds p) as [Hp1 Hp2].
  set (dp := Z.pos (digits2_pos p)) in *.
  assert (Hdp : 1 <= dp <= 53).
  { split; [unfold dp; lia|].
    destruct (Z.le_gt_cases dp 53) as [|Hgt]; [done|].
    assert (2 ^ 53 <= 2 ^ (dp - 1)) by (apply Z.pow_le_mono_r; lia). lia. }
  assert (exists mz,
            shl_align p 0 (fexp prec emax (dp + 0)) = (mz, dp - 53)
            /\ Z.pos mz = Z.pos p * 2 ^ (53 - dp)) as (mz & Hal & Hmz).
  { unfold shl_align. rewrite Z.add_0_r, fexp_normal, Z.sub_0_r by lia.
    destruct (dp - 53) as [|k|k] eqn:Ek; [|lia|].
    - exists p. split; [done|]. replace (53 - dp) with 0 by lia. lia.
    - exists (Pos.iter xO p k). split; [done|].
      rewrite iter_xO. do 2 f_equal. lia. }
  assert (Hmzb : 2 ^ 52 <= Z.pos mz < 2 ^ 53).
  { rewrite Hmz.
    assert (E52 : 2 ^ 52 = 2 ^ (dp - 1) * 2 ^ (53 - dp)).
    { rewrite <- Z.pow_add_r by lia. f_equal. lia. }
    assert (E53 : 2 ^ 53 = 2 ^ dp * 2 ^ (53 - dp)).
    { rewrite <- Z.pow_add_r by lia. f_equal. lia. }
    rewrite E52, E53.
    assert (0 < 2 ^ (53 - dp)) by (apply Z.pow_pos_nonneg; lia). nia. }
  assert (Hdz : Z.pos (digits2_pos mz) = 53)
    by (apply digits2_pos_unique; lia).
  destruct (BRA_normal false mz (dp - 53) loc_Exact (IZR (Z.pos mz)))
    as (m' & e' & Hres & Hdm & He' & _);
    [done|rewrite Hdz; lia|rewrite Hdz; lia|rewrite Hdz; lia|].
  unfold F64.of_int. change (- Z.pos p) with (Z.neg p).
  unfold binary_normalize, binary_round.
  fold dp. rewrite Hal. cbv beta iota.
  rewrite (BRA_opp (Z.pos mz) (dp - 53) loc_Exact), Hres.
  cbn [SFopp negb].
  rewrite !Prim2SF_SF2Prim by (by apply valid_normal). done.
Qed.

Lemma div_neg (x x' y : float) mx ex my ey :
  Prim2SF x = S754_finite true mx ex -> Prim2SF x' = S754_finite false mx ex ->
  Prim2SF y = S754_finite false my ey ->
  Prim2SF (x / y) = SFopp (Prim2SF (x' / y)).
Proof.
  intros Hx Hx' Hy. rewrite !FloatAxioms.div_spec, Hx, Hx', Hy.
  unfold SF64div, SFdiv.
  destruct (SFdiv_core_binary prec emax (Z.pos mx) ex (Z.pos my) ey)
    as [[mz ez] lz].
  cbn [xorb]. apply BRA_opp.
Qed.

(** The ratio [float64(M) / float64(D)] for a positive [D]: ordinary, and
    not above zero exactly when [M] is not positive. *)
Lemma ratio_ordinary (M D : Z) :
  - 2 ^ 53 < M < 2 ^ 53 -> 0 < D < 2 ^ 53 ->
  ordinary (F64.of_int M / F64.of_int D)
  /\ (M <= 0 -> (F64.of_int M / F64.of_int D <=? 0)%float = true).
Proof.
  intros HM HD.
  destruct (of_int_correct D HD) as (md & ed & [Hd Hdd] & _).
  destruct (Z.lt_trichotomy M 0) as [Hneg|[->|Hpos]].
  - destruct (of_int_correct (- M) ltac:(lia)) as (ma & ea & [Ha Hda] & _).
    destruct (ratio_correct (- M) D ltac:(lia) HD) as (m & e & [Hr Hdr] & _).
    pose proof (of_int_neg (- M) ltac:(lia)) as Hn.
    rewrite Z.opp_involutive, Ha in Hn. cbn [SFopp negb] in Hn.
    pose proof (div_neg _ _ _ _ _ _ _ Hn Ha Hd) as Hq.
    rewrite Hr in Hq. cbn [SFopp negb] in Hq.
    unfold ordinary. rewrite FloatAxioms.leb_spec, Hq. done.
  - assert (Hq : Prim2SF (F64.of_int 0 / F64.of_int D) = S754_zero false).
    { rewrite FloatAxioms.div_spec, Hd. reflexivity. }
    unfold ordinary. rewrite FloatAxioms.leb_spec, Hq. done.
  - destruct (ratio_correct M D ltac:(lia) HD) as (m & e & [Hr Hdr] & _).
    unfold ordinary. rewrite Hr. split; [done|lia].
Qed.

Lemma eqb_refl_ordinary (x : float) : ordinary x -> (x =? x)%float = true.
Proof.
  unfold ordinary. rewrite FloatAxioms.eqb_spec. unfold SFeqb.
  destruct (Prim2SF x) as [s| | |s m e]; try done.
  intros _. cbn [SFcompare].
  rewrite Z.compare_refl, Pos.compare_cont_refl. by destruct s.
Qed.

Lemma eqb_zero_leb (x y : float) :
  (x =? 0)%float = true -> (x =? y)%float = true ->
  (x <=? 0)%float = true /\ (y <=? 0)%float = true.
Proof.
  rewrite !FloatAxioms.eqb_spec, !FloatAxioms.leb_spec, Prim2SF_zero.
  unfold SFeqb, SFleb.
  destruct (Prim2SF x) as [sx|[]| |[] mx ex]; cbn [SFcompare]; try done.
  intros _. destruct (Prim2SF y) as [sy|[]| |[] my ey]; cbn [SFcompare]; done.
Qed.

Lemma ltb_sign (x y : float) :
  ordinary x -> ordinary y ->
  (x <=? 0)%float = negb (y <=? 0)%float ->
  (x <? y)%float = (x <=? 0)%float.
Proof.
  unfold ordinary.
  rewrite !FloatAxioms.leb_spec, !FloatAxioms.ltb_spec, Prim2SF_zero.
  unfold SFleb, SFltb.
  destruct (Prim2SF x) as [[]| | |[] mx ex]; try done;
    destruct (Prim2SF y) as [[]| | |[] my ey]; try done;
    cbn [SFcompare negb]; done.
Qed.

(** The smaller of two ordinary floats, one of them not above zero, is not
    above zero. *)
Lemma Min_guard (x y : float) :
  ordinary x -> ordinary y ->
  (x <=? 0)%float = true \/ (y <=? 0)%float = true ->
  (F64.Min x y <=? 0)%float = true.
Proof.
  intros Ox Oy H. unfold F64.Min, F64.IsNaN.
  rewrite (eqb_refl_ordinary x Ox), (eqb_refl_ordinary y Oy). cbn [negb orb].
  destruct (F64.IsInf x (-1) || F64.IsInf y (-1)); [reflexivity|].
  destruct ((x =? 0)%float && (x =? y)%float) eqn:E.
  - apply andb_prop in E as [E1 E2].
    destruct (eqb_zero_leb x y E1 E2) as [Hx Hy]. by destruct (F64.Signbit x).
  - pose proof (ltb_sign x y Ox Oy) as Hs.
    destruct (x <=? 0)%float eqn:Hx, (y <=? 0)%float eqn:Hy;
      cbn [negb] in Hs.
    + by destruct (x <? y)%float.
    + by rewrite Hs.
    + by rewrite Hs.
    + by destruct H.
Qed.

Lemma normal_1 : normal 1 4503599627370496 (-52).
Proof. split; reflexivity. Qed.

(** A dimension multiplied by the scale 1 and rounded is unchanged. *)
Lemma unscaled_dim (D : Z) :
  0 < D < 2 ^ 53 -> F64.to_int (F64.Round (F64.of_int D * 1)) = D.
Proof.
  intros HD.
  destruct (of_int_correct D HD) as (md & ed & Hnd & Ed).
  assert (HD1 : (1 <= IZR D)%R) by (apply IZR_le; lia).
  assert (HD2 : (IZR D < 9007199254740992)%R)
    by (apply (IZR_lt D (2 ^ 53)); lia).
  assert (E1 : B2R 1 = 1%R).
  { rewrite (normal_B2R _ _ _ normal_1).
    change (bpow (-52)) with (bpow (- (52))).
    rewrite bpow_opp, (bpow_IZR 52) by lia.
    change (2 ^ 52) with 4503599627370496. field. }
  destruct (mul_correct _ _ _ _ _ _ Hnd normal_1) as (m & e & Hn & _ & Hex).
  { rewrite Ed, E1, Rmult_1_r. split.
    - apply Rle_trans with (bpow 0); [apply bpow_le; lia|]. rewrite bpow_0. lra.
    - apply Rlt_le_trans with (bpow 53); [|apply bpow_le; lia].
      rewrite (bpow_IZR 53) by lia.
      change (2 ^ 53) with 9007199254740992. lra. }
  assert (E : B2R (F64.of_int D * 1)%float = IZR D).
  { rewrite (Hex D 0).
    - rewrite Ed, E1. lra.
    - rewrite Ed, E1, bpow_0. lra.
    - lia. }
  destruct (to_int_Round _ m e Hn) as [[H1 H2] _].
  { rewrite E. change (2 ^ 62) with 4611686018427387904. lra. }
  rewrite E in H1, H2. set (n := F64.to_int _) in *.
  assert (IZR (2 * n) <= IZR (2 * D + 1))%R as Ha.
  { rewrite plus_IZR, !mult_IZR. lra. }
  assert (IZR (2 * D) < IZR (2 * n + 1))%R as Hb.
  { rewrite plus_IZR, !mult_IZR. lra. }
  apply le_IZR in Ha. apply lt_IZR in Hb. lia.
Qed.

(** With a target box that is not positive on some axis the scale is
    replaced by 1 and the size is the source's own. *)
Lemma fitSize_nonpositive_box (w h maxW maxH : Z) :
  0 < w < 2 ^ 53 -> 0 < h < 2 ^ 53 ->
  - 2 ^ 53 < maxW < 2 ^ 53 -> - 2 ^ 53 < maxH < 2 ^ 53 ->
  maxW <= 0 \/ maxH <= 0 ->
  fitSize w h maxW maxH = (w, h).
Proof.
  intros Hw Hh HmW HmH Hbox.
  destruct (ratio_ordinary maxW w HmW Hw) as [O1 L1].
  destruct (ratio_ordinary maxH h HmH Hh) as [O2 L2].
  unfold fitSize. rewrite Min_guard; [|done|done|].
  - cbn [orb]. rewrite !unscaled_dim by done.
    destruct (Z.leb_spec w 0); [lia|]. destruct (Z.leb_spec h 0); [lia|]. done.
  - destruct Hbox; [left; by apply L1|right; by apply L2].
Qed.

Lemma div_by_zero (a : Z) :
  0 < a < 2 ^ 53 -> (F64.of_int a / F64.of_int 0)%float = infinity.
Proof.
  intros Ha. destruct (of_int_correct a Ha) as (m & e & [H _] & _).
  apply FloatAxioms.Prim2SF_inj. rewrite FloatAxioms.div_spec, H. reflexivity.
Qed.

Lemma zero_mul (s : float) m e :
  normal s m e -> (F64.of_int 0 * s)%float = 0%float.
Proof.
  intros [H _]. apply FloatAxioms.Prim2SF_inj.
  rewrite FloatAxioms.mul_spec, H. reflexivity.
Qed.

Lemma Min_inf_l (y : float) m e : normal y m e -> F64.Min infinity y = y.
Proof.
  intros Hy.
  destruct (normal_not_special y m e Hy) as (_ & _ & _ & Hi & Hn & _).
  assert (Hlt : (infinity <? y)%float = false).
  { rewrite FloatAxioms.ltb_spec. destruct Hy as [-> _]. reflexivity. }
  unfold F64.Min. rewrite Hi, Hn, Hlt. reflexivity.
Qed.

Lemma Min_inf_r (x : float) m e : normal x m e -> F64.Min x infinity = x.
Proof.
  intros Hx.
  destruct (normal_not_special x m e Hx) as (_ & H0 & _ & Hi & Hn & _).
  assert (Hlt : (x <? infinity)%float = true).
  { rewrite FloatAxioms.ltb_spec. destruct Hx as [-> _]. reflexivity. }
  unfold F64.Min. rewrite Hi, Hn, H0, Hlt. reflexivity.
Qed.

(** An empty source: the ratio on an axis of length 0 is [+Inf], so that
    axis never limits the scale; its rounded length 0 is raised to one
    pixel. *)
Lemma fitSize_empty_source (w h maxW maxH : Z) :
  0 <= w < 2 ^ 31 -> 0 <= h < 2 ^ 31 -> w = 0 \/ h = 0 ->
  0 < maxW < 2 ^ 31 -> 0 < maxH < 2 ^ 31 ->
  fitSize w h maxW maxH
  = (if w =? 0 then 1 else maxW, if h =? 0 then 1 else maxH).
Proof.
  intros Hw Hh Hz HmW HmH. unfold fitSize.
  destruct (Z.eqb_spec w 0) as [->|Hw0]; destruct (Z.eqb_spec h 0) as [->|Hh0];
    [| | |lia].
  - rewrite !div_by_zero by lia. reflexivity.
  - rewrite div_by_zero by lia.
    destruct (ratio_bounds maxH h HmH ltac:(lia)) as (m & e & Hn & Hb & Hl).
    set (sh := (F64.of_int maxH / F64.of_int h)%float) in *.
    rewrite (Min_inf_l sh m e Hn).
    destruct (normal_not_special sh m e Hn) as (-> & _ & -> & _ & -> & _).
    cbn [orb]. rewrite (zero_mul sh m e Hn).
    destruct (scaled_dim h maxH sh m e ltac:(lia) HmH Hn Hl) as [Hr Heq];
      [lra|].
    cbv zeta in Hr, Heq. rewrite Heq by lra.
    destruct (Z.leb_spec maxH 0); [lia|]. reflexivity.
  - rewrite (div_by_zero maxH) by lia.
    destruct (ratio_bounds maxW w HmW ltac:(lia)) as (m & e & Hn & Hb & Hl).
    set (sw := (F64.of_int maxW / F64.of_int w)%float) in *.
    rewrite (Min_inf_r sw m e Hn).
    destruct (normal_not_special sw m e Hn) as (-> & _ & -> & _ & -> & _).
    cbn [orb]. rewrite (zero_mul sw m e Hn).
    destruct (scaled_dim w maxW sw m e ltac:(lia) HmW Hn Hl) as [Hr Heq];
      [lra|].
    cbv zeta in Hr, Heq. rewrite Heq by lra.
    destruct (Z.leb_spec maxW 0); [lia|]. reflexivity.
Qed.

Section FrameFitterEdges.

Variable approxBiLinear :
  image.RGBA -> image.Rectangle -> image.Rectangle -> Z -> Z -> color.RGBA.

(** Whatever size [fitSize] gives, between 1 and 2^30 on each axis,
    [scaleToFit] allocates it at the origin and scales the source onto it. *)
Lemma scaleToFit_alloc (img : image.RGBA) (maxW maxH nw nh : Z) :
  0 <= frameWidth img < 2 ^ 62 -> 0 <= frameHeight img < 2 ^ 62 ->
  fitSize (frameWidth img) (frameHeight img) maxW maxH = (nw, nh) ->
  1 <= nw < 2 ^ 30 -> 1 <= nh < 2 ^ 30 ->
  let rect := image.mkRectangle (image.mkPoint 0 0) (image.mkPoint nw nh) in
  scaleToFit approxBiLinear img maxW maxH
  = Some (Scale approxBiLinear (image.mkRGBA (fun _ _ => color.zero) rect)
            rect img (image.Bounds img) draw.Over).
Proof.
  intros Hw Hh Efit Hnw Hnh rect. unfold scaleToFit.
  assert (Edx : image.Dx (image.Bounds img) = frameWidth img).
  { unfold image.Dx, GoInt.sub. apply wrap_nonneg. fold (frameWidth img).
    unfold GoInt.max_int. lia. }
  assert (Edy : image.Dy (image.Bounds img) = frameHeight img).
  { unfold image.Dy, GoInt.sub. apply wrap_nonneg. fold (frameHeight img).
    unfold GoInt.max_int. lia. }
  rewrite Edx, Edy, Efit.
  change (2 ^ 30) with 1073741824 in *.
  assert (ER : image.Rect 0 0 nw nh = rect).
  { unfold image.Rect.
    destruct (Z.ltb_spec nw 0); [lia|]. by destruct (Z.ltb_spec nh 0); [lia|]. }
  rewrite ER.
  assert (EN : image.NewRGBA rect
               = Some (image.mkRGBA (fun _ _ => color.zero) rect)).
  { unfold image.NewRGBA, image.mul3NonNeg, image.Dx, image.Dy, GoInt.sub, rect.
    cbn [image.Max image.Min image.X image.Y]. rewrite !Z.sub_0_r.
    rewrite !wrap_nonneg by (unfold GoInt.max_int; lia).
    destruct (Z.ltb_spec nw 0); [lia|]. destruct (Z.ltb_spec nh 0); [lia|].
    cbn [Z.ltb Z.compare orb].
    destruct (Z.leb_spec (2 ^ 64) (4 * nw)); [lia|].
    destruct (Z.leb_spec (2 ^ 63) (4 * nw * nh)); [nia|].
    by destruct (Z.ltb_spec (4 * nw * nh) 0); [nia|]. }
  rewrite EN. reflexivity.
Qed.


(** X8. An empty source, with no side of 2^30 pixels or more, is fitted
    into a positive box with sides below 2^30 without a division error: an
    axis of length 0 comes back one pixel long, the other axis fills its
    bound, and since nothing is drawn every pixel of the result is
    transparent black. *)
Theorem scaleToFit_empty_source (img : image.RGBA) (maxW maxH : Z) :
  let w := frameWidth img in
  let h := frameHeight img in
  0 <= w < 2 ^ 30 -> 0 <= h < 2 ^ 30 -> w = 0 \/ h = 0 ->
  0 < maxW < 2 ^ 30 -> 0 < maxH < 2 ^ 30 ->
  exists dst,
    scaleToFit approxBiLinear img maxW maxH = Some dst
    /\ frameWidth dst = (if w =? 0 then 1 else maxW)
    /\ frameHeight dst = (if h =? 0 then 1 else maxH)
    /\ forall x y, image.At dst x y = color.zero.
Proof.
  intros w h Hw Hh Hz HmW HmH.
  pose proof (fitSize_empty_source w h maxW maxH) as Efit.
  set (nw := if w =? 0 then 1 else maxW) in *.
  set (nh := if h =? 0 then 1 else maxH) in *.
  assert (Hnw : 1 <= nw < 2 ^ 30) by (unfold nw; destruct (w =? 0); lia).
  assert (Hnh : 1 <= nh < 2 ^ 30) by (unfold nh; destruct (h =? 0); lia).
  rewrite (scaleToFit_alloc img maxW maxH nw nh); [| | |apply Efit|..];
    fold w h; try lia.
  eexists. split; [reflexivity|].
  assert (He : image.Empty (image.Bounds img) = true).
  { unfold image.Empty. unfold w, h, frameWidth, frameHeight in Hz.
    apply orb_true_iff. destruct Hz; [left|right]; apply Z.leb_le; lia. }
  unfold Scale. rewrite He, orb_true_r.
  split; [unfold frameWidth; cbn; lia|].
  split; [unfold frameHeight; cbn; lia|].
  intros x y. unfold image.At. cbn [image.Pix]. by destruct (image.In _ _ _).
Qed.

End FrameFitterEdges.


Lemma scaleToFit_empty_source_witness :
  exists dst,
    scaleToFit sampleKernel emptyFrame 320 180 = Some dst
    /\ frameWidth dst = 1 /\ frameHeight dst = 1
    /\ image.At dst 0 0 = color.zero.
Proof.
  assert (H1 : 0 <= frameWidth emptyFrame < 2 ^ 30) by (vm_compute; done).
  assert (H2 : 0 <= frameHeight emptyFrame < 2 ^ 30) by (vm_compute; done).
  assert (H3 : frameWidth emptyFrame = 0 \/ frameHeight emptyFrame = 0)
    by (left; reflexivity).
  assert (H4 : 0 < 320 < 2 ^ 30) by done.
  assert (H5 : 0 < 180 < 2 ^ 30) by done.
  destruct (scaleToFit_empty_source sampleKernel emptyFrame 320 180
              H1 H2 H3 H4 H5) as (dst & Hd & Hw & Hh & Hp).
  exists dst. split; [exact Hd|]. split; [exact Hw|]. split; [exact Hh|].
  exact (Hp 0 0).
Defined.

(** ** Output directory and file *)

Lemma addsDirs_refl (fs : os.FS) : addsDirs fs fs.
Proof. intros q. destruct (fs !! q); auto. Qed.

Lemma addsDirs_insert (fs fs' : os.FS) (p : string) :
  addsDirs fs fs' -> fs !! p = None ->
  addsDirs fs (<[p := os.Directory]> fs').
Proof.
  intros H Hp q. specialize (H q). destruct (decide (p = q)) as [->|Hne].
  - rewrite Hp. right. apply lookup_insert_eq.
  - replace (<[p := os.Directory]> fs' !! q) with (fs' !! q); [done|].
    symmetry. by apply lookup_insert_ne.
Qed.

Lemma mkdirAll_eq (fuel : nat) (p : string) (fs : os.FS) :
  os.mkdirAll fuel p fs
  = if os.isDir fs p then (fs, None)
    else
      match fs !! p with
      | Some _ => (fs, Some os.ENOTDIR)
      | None =>
          match fuel with
          | O => (fs, Some os.ENOENT)
          | S fuel' =>
              match os.mkdirAll fuel' (filepath.Dir p) fs with
              | (fs', Some e) => (fs', Some e)
              | (fs', None) => (<[p := os.Directory]> fs', None)
              end
          end
      end.
Proof. by destruct fuel. Qed.

Lemma mkdirAll_addsDirs (fuel : nat) :
  forall p fs, addsDirs fs (os.mkdirAll fuel p fs).1.
Proof.
  induction fuel as [|fuel IH]; intros p fs; rewrite mkdirAll_eq.
  - destruct (os.isDir fs p); [apply addsDirs_refl|].
    destruct (fs !! p); apply addsDirs_refl.
  - destruct (os.isDir fs p); [apply addsDirs_refl|].
    destruct (fs !! p) eqn:Hp; [apply addsDirs_refl|].
    specialize (IH (filepath.Dir p) fs).
    destruct (os.mkdirAll fuel (filepath.Dir p) fs) as [fs' [e|]];
      cbn [fst] in *; [done|].
    by apply addsDirs_insert.
Qed.

Lemma isDir_insert (fs : os.FS) (p : string) :
  os.isDir (<[p := os.Directory]> fs) p = true.
Proof.
  unfold os.isDir.
  replace (<[p := os.Directory]> fs !! p) with (Some os.Directory).
  - by rewrite orb_true_r.
  - symmetry. apply lookup_insert_eq.
Qed.

Lemma mkdirAll_isDir (fuel : nat) (p : string) (fs fs' : os.FS) :
  os.mkdirAll fuel p fs = (fs', None) -> os.isDir fs' p = true.
Proof.
  rewrite mkdirAll_eq. destruct (os.isDir fs p) eqn:Hd.
  { by intros [= <-]. }
  destruct (fs !! p); [done|]. destruct fuel as [|fuel]; [done|].
  destruct (os.mkdirAll fuel (filepath.Dir p) fs) as [fs1 [e|]]; [done|].
  intros [= <-]. apply isDir_insert.
Qed.

Lemma ensureOutputDir_keeps (path : string) (fs : os.FS) :
  addsDirs fs (ensureOutputDir path fs).1.
Proof.
  unfold ensureOutputDir. destruct (_ || _); [apply addsDirs_refl|].
  unfold os.MkdirAll.
  pose proof (mkdirAll_addsDirs
                (String.length (filepath.Dir path))
                (filepath.Clean (filepath.Dir path)) fs) as H.
  by destruct (os.mkdirAll _ _ fs) as [fs' [e|]].
Qed.

(** X9. [ensureOutputDir] only ever adds directories: whatever the path and
    whether it succeeds or fails, every entry that existed is still there
    unchanged, and every new entry is a directory. *)
Theorem ensureOutputDir_addsDirs (path : string) (fs : os.FS) (q : string) :
  match fs !! q with
  | Some n => (ensureOutputDir path fs).1 !! q = Some n
  | None =>
      (ensureOutputDir path fs).1 !! q = None
      \/ (ensureOutputDir path fs).1 !! q = Some os.Directory
  end.
Proof. apply ensureOutputDir_keeps. Qed.

(** X10. When [ensureOutputDir] reports no error, the directory of the
    output path exists afterwards. *)
Theorem ensureOutputDir_creates (path : string) (fs fs' : os.FS) :
  ensureOutputDir path fs = (fs', None) ->
  os.isDir fs' (filepath.Clean (filepath.Dir path)) = true.
Proof.
  unfold ensureOutputDir.
  destruct (String.eqb_spec (filepath.Dir path) ".") as [->|H1].
  { by intros [= <-]. }
  destruct (String.eqb_spec (filepath.Dir path) "") as [->|H2].
  { by intros [= <-]. }
  cbn [orb]. unfold os.MkdirAll.
  destruct (os.mkdirAll _ _ fs) as [fs1 [e|]] eqn:E; [done|].
  intros [= <-]. by apply mkdirAll_isDir in E.
Qed.

Lemma ensureOutputDir_creates_witness :
  ensureOutputDir "previews/2024/grid.png" ∅
  = (<["previews/2024"%string := os.Directory]>
       (<["previews"%string := os.Directory]> ∅), None)
  /\ os.isDir (<["previews/2024"%string := os.Directory]>
                (<["previews"%string := os.Directory]> ∅))
       (filepath.Clean (filepath.Dir "previews/2024/grid.png")) = true.
Proof.
  assert (E : ensureOutputDir "previews/2024/grid.png" ∅
              = (<["previews/2024"%string := os.Directory]>
                   (<["previews"%string := os.Directory]> ∅), None))
    by reflexivity.
  split; [exact E|]. exact (ensureOutputDir_creates _ _ _ E).
Defined.


Lemma span_all (f : ascii -> bool) (l : list ascii) :
  forallb f l = true -> filepath.span f l = (l, []).
Proof.
  induction l as [|c l IH]; cbn [forallb filepath.span]; [done|].
  intros [Hc Hl]%andb_prop. by rewrite Hc, IH.
Qed.

Lemma Dir_bare_name (path : string) :
  noSeparator path = true -> filepath.Dir path = "."%string.
Proof.
  unfold noSeparator, filepath.Dir. intros H.
  rewrite span_all; [reflexivity|].
  apply forallb_forall. intros c Hc. rewrite forallb_forall in H.
  apply H. apply list_elem_of_In. apply list_elem_of_In in Hc.
  by apply elem_of_reverse.
Qed.

(** X11. For an output path without a separator, a file of the working
    directory, [ensureOutputDir] creates nothing and reports no error. *)
Theorem ensureOutputDir_bare_name (path : string) (fs : os.FS) :
  noSeparator path = true -> ensureOutputDir path fs = (fs, None).
Proof.
  intros H. unfold ensureOutputDir. by rewrite Dir_bare_name.
Qed.

Lemma ensureOutputDir_bare_name_witness :
  ensureOutputDir "preview.png" (<["old.png"%string := os.File "x"]> ∅)
  = (<["old.png"%string := os.File "x"]> ∅, None).
Proof. apply ensureOutputDir_bare_name. reflexivity. Defined.

Section SaveImageFacts.

Variable pngEncode : image.RGBA -> string * option error.
Variable jpegEncode : image.RGBA -> Z -> string * option error.





End SaveImageFacts.


(** ** The program as a whole *)

Lemma parseFlags_inv (fl : flagValues) (cfg : gridConfig) :
  parseFlags fl = inl cfg ->
  0 < rows cfg /\ 0 < cols cfg /\ 0 < cellWidth cfg /\ 0 <= margin cfg.
Proof.
  unfold parseFlags. destruct (String.eqb _ _); [done|].
  destruct (Z.leb_spec (flagRows fl) 0); [done|].
  destruct (Z.leb_spec (flagCols fl) 0); [done|]. cbn [orb].
  destruct (Z.leb_spec (flagCellWidth fl) 0); [done|].
  destruct (Z.ltb_spec (flagMargin fl) 0); [done|].
  destruct (_ || _); [done|].
  destruct (parseHexColor _); [|done]. intros [= <-]. cbn. lia.
Qed.

Section ProgramFacts.

Variable lookPath : string -> bool.
Variable commandOutput : string -> list string -> option string.
Variable ParseFloat : string -> float + strconv.NumError.
Variable formatTimestamp : float -> string.
Variable ffmpegPipe : list string -> option (string * bool).
Variable pngDecode : string -> option image.RGBA.
Variable approxBiLinear :
  image.RGBA -> image.Rectangle -> image.Rectangle -> Z -> Z -> color.RGBA.
Variable pngEncode : image.RGBA -> string * option error.
Variable jpegEncode : image.RGBA -> Z -> string * option error.

(** Fitting succeeds for every source and box within 2^30, whatever the sign
    of the box. *)
Lemma scaleToFit_total (img : image.RGBA) (maxW maxH : Z) :
  0 < frameWidth img < 2 ^ 30 -> 0 < frameHeight img < 2 ^ 30 ->
  - 2 ^ 30 < maxW < 2 ^ 30 -> - 2 ^ 30 < maxH < 2 ^ 30 ->
  exists dst, scaleToFit approxBiLinear img maxW maxH = Some dst.
Proof.
  intros Hw Hh HmW HmH.
  destruct (Z.le_gt_cases maxW 0) as [H1|H1];
    [|destruct (Z.le_gt_cases maxH 0) as [H2|H2]].
  - rewrite (scaleToFit_alloc approxBiLinear img maxW maxH
               (frameWidth img) (frameHeight img)); [by eexists|..]; try lia.
    apply fitSize_nonpositive_box; lia.
  - rewrite (scaleToFit_alloc approxBiLinear img maxW maxH
               (frameWidth img) (frameHeight img)); [by eexists|..]; try lia.
    apply fitSize_nonpositive_box; lia.
  - destruct (scaleToFit_size approxBiLinear img maxW maxH)
      as (dst & Hdst & _); [lia..|]. by exists dst.
Qed.

Lemma captureLoop_ok (cfg : gridConfig) (timestamps : list float) :
  - 2 ^ 30 < cellWidth cfg < 2 ^ 30 -> - 2 ^ 30 < cellHeight cfg < 2 ^ 30 ->
  (forall ts,
     ts ∈ timestamps ->
     exists f,
       captureFrame formatTimestamp ffmpegPipe pngDecode (input cfg) ts
       = inl f
       /\ 0 < frameWidth f < 2 ^ 30 /\ 0 < frameHeight f < 2 ^ 30) ->
  forall i frames,
    0 <= i -> (Z.to_nat i + length timestamps <= length frames)%nat ->
    exists frames',
      captureLoop formatTimestamp ffmpegPipe pngDecode approxBiLinear cfg
        timestamps i frames = inl frames'.
Proof.
  intros Hcw Hch. induction timestamps as [|ts rest IH];
    intros Hcap i frames Hi Hlen; cbn [captureLoop].
  - by eexists.
  - destruct (Hcap ts) as (f & -> & Hfw & Hfh); [by left|].
    destruct (scaleToFit_total f (cellWidth cfg) (cellHeight cfg))
      as (dst & ->); [done..|].
    cbn [length] in Hlen.
    destruct (Nat.ltb_spec (Z.to_nat i) (length frames)); [|lia].
    apply IH.
    + intros ts' Hts'. apply Hcap. by right.
    + lia.
    + rewrite length_insert. lia.
Qed.

(** X15. With accepted flags, both programs installed, a probe that
    succeeds and captures that all succeed with frames below 2^30 pixels a
    side, [main] cannot stop or panic before saving: for a grid of at most
    2^31 cells, a cell box within 2^30 of either sign, and a canvas that can
    be allocated, it hands [saveImage] a collage whose bounds are exactly
    the canvas rectangle of the configuration, and ends as [saveImage]
    does. *)
Theorem main_reaches_save (fl : flagValues) (fs : os.FS) (cfg0 : gridConfig)
    (meta : videoMetadata) :
  parseFlags fl = inl cfg0 ->
  ensureExecutables lookPath = None ->
  probeVideo commandOutput ParseFloat (input cfg0) = inl meta ->
  let cfg := withCellHeight cfg0 meta in
  let rect :=
    image.Rect 0 0
      (GoInt.add (GoInt.mul (cols cfg) (cellWidth cfg))
                 (GoInt.mul (GoInt.add (cols cfg) 1) (margin cfg)))
      (GoInt.add (GoInt.mul (rows cfg) (cellHeight cfg))
                 (GoInt.mul (GoInt.add (rows cfg) 1) (margin cfg))) in
  rows cfg * cols cfg <= 2 ^ 31 ->
  cellWidth cfg < 2 ^ 30 -> - 2 ^ 30 < cellHeight cfg < 2 ^ 30 ->
  (forall ts,
     ts ∈ sampleTimestamps (duration meta) (rows cfg * cols cfg) ->
     exists f,
       captureFrame formatTimestamp ffmpegPipe pngDecode (input cfg) ts
       = inl f
       /\ 0 < frameWidth f < 2 ^ 30 /\ 0 < frameHeight f < 2 ^ 30) ->
  is_Some (image.NewRGBA rect) ->
  exists collage,
    image.Bounds collage = rect
    /\ main lookPath commandOutput ParseFloat formatTimestamp ffmpegPipe
         pngDecode approxBiLinear pngEncode jpegEncode fl fs
       = let saved :=
           saveImage pngEncode jpegEncode collage (output cfg)
             (jpegQuality cfg) fs in
         (saved.1,
          match saved.2 with
          | Some e => ExitSave e
          | None => Finished (output cfg)
          end).
Proof.
  intros Hflags Hexe Hprobe cfg rect Hcells Hcw Hch Hcap Halloc.
  destruct (parseFlags_inv fl cfg0 Hflags) as (Hr & Hc & Hw & Hm).
  assert (Erows : rows cfg = rows cfg0)
    by (unfold cfg, withCellHeight; by destruct (_ =? 0)).
  assert (Ecols : cols cfg = cols cfg0)
    by (unfold cfg, withCellHeight; by destruct (_ =? 0)).
  assert (Ecw : cellWidth cfg = cellWidth cfg0)
    by (unfold cfg, withCellHeight; by destruct (_ =? 0)).
  assert (Etotal : GoInt.mul (rows cfg) (cols cfg) = rows cfg * cols cfg).
  { apply wrap_nonneg. unfold GoInt.max_int. nia. }
  unfold main. rewrite Hflags, Hexe, Hprobe. fold cfg. cbv zeta.
  rewrite Etotal.
  destruct (Z.ltb_spec (rows cfg * cols cfg) 0); [nia|].
  destruct (captureLoop_ok cfg
              (sampleTimestamps (duration meta) (rows cfg * cols cfg))
              ltac:(lia) Hch Hcap 0
              (replicate (Z.to_nat (rows cfg * cols cfg)) None))
    as (frames & ->); [lia| |].
  { rewrite sampleTimestamps_len, length_replicate; [lia|].
    unfold GoInt.max_int. lia. }
  pose proof (composeGrid_total cfg frames ltac:(lia)) as Hgrid.
  cbv zeta in Hgrid. fold rect in Hgrid.
  destruct Halloc as [c0 Hc0]. rewrite Hc0 in Hgrid.
  destruct Hgrid as (collage & -> & Hb).
  exists collage. split; [done|].
  by destruct (saveImage _ _ _ _ _ _) as [fs' [e|]].
Qed.

End ProgramFacts.

Lemma main_reaches_save_witness :
  main sampleLookPath sampleCommandOutput sampleParseFloat
    sampleFormatTimestamp sampleFfmpegPipe samplePngDecode sampleKernel
    samplePng sampleJpeg sampleFlags ∅
  = (<["preview.png"%string := os.File "PNG"]> ∅, Finished "preview.png").
Proof.
  set (cfg0 := mkGridConfig "in.mp4" "preview.png" 1 2 4 0 1 90
                 (color.mkRGBA 255 255 255 255)).
  set (meta := mkVideoMetadata 0x1.9p+3%float 640 360).
  assert (H1 : parseFlags sampleFlags = inl cfg0) by reflexivity.
  assert (H2 : ensureExecutables sampleLookPath = None) by reflexivity.
  assert (H3 : probeVideo sampleCommandOutput sampleParseFloat (input cfg0)
               = inl meta) by (vm_compute; reflexivity).
  assert (H4 : rows (withCellHeight cfg0 meta) * cols (withCellHeight cfg0 meta)
               <= 2 ^ 31) by (vm_compute; discriminate).
  assert (H5 : cellWidth (withCellHeight cfg0 meta) < 2 ^ 30)
    by (vm_compute; reflexivity).
  assert (H6 : - 2 ^ 30 < cellHeight (withCellHeight cfg0 meta) < 2 ^ 30)
    by (vm_compute; split; reflexivity).
  assert (H7 : forall ts,
            ts ∈ sampleTimestamps (duration meta)
                   (rows (withCellHeight cfg0 meta)
                    * cols (withCellHeight cfg0 meta)) ->
            exists f,
              captureFrame sampleFormatTimestamp sampleFfmpegPipe
                samplePngDecode (input (withCellHeight cfg0 meta)) ts
              = inl f
              /\ 0 < frameWidth f < 2 ^ 30 /\ 0 < frameHeight f < 2 ^ 30).
  { intros ts _. eexists. split; [reflexivity|]. vm_compute. done. }
  assert (H8 : is_Some
                 (image.NewRGBA
                    (image.Rect 0 0
                       (GoInt.add
                          (GoInt.mul (cols (withCellHeight cfg0 meta))
                             (cellWidth (withCellHeight cfg0 meta)))
                          (GoInt.mul
                             (GoInt.add (cols (withCellHeight cfg0 meta)) 1)
                             (margin (withCellHeight cfg0 meta))))
                       (GoInt.add
                          (GoInt.mul (rows (withCellHeight cfg0 meta))
                             (cellHeight (withCellHeight cfg0 meta)))
                          (GoInt.mul
                             (GoInt.add (rows (withCellHeight cfg0 meta)) 1)
                             (margin (withCellHeight cfg0 meta))))))).
  { eexists. vm_compute. reflexivity. }
  pose proof (main_reaches_save sampleLookPath sampleCommandOutput
                sampleParseFloat sampleFormatTimestamp sampleFfmpegPipe
                samplePngDecode sampleKernel samplePng sampleJpeg
                sampleFlags ∅ cfg0 meta H1 H2 H3 H4 H5 H6 H7 H8) as H.
  cbv zeta in H. destruct H as (collage & _ & ->).
  clear. reflexivity.
Defined.

(** ** Reading the resolution *)

Lemma stripAny_ascii (c : ascii) (s : list ascii) :
  isAscii c = true ->
  strings.stripAny strings.spaceRunes (c :: s)
  = (if isAsciiSpace c then Some s else None)
  /\ strings.stripAny (reverse <$> strings.spaceRunes) (c :: s)
     = (if isAsciiSpace c then Some s else None).
Proof.
  intros H. destruct c as [b0 b1 b2 b3 b4 b5 b6 b7].
  destruct b7; [by destruct b0, b1, b2, b3, b4, b5, b6|].
  destruct b0, b1, b2, b3, b4, b5, b6; split; reflexivity.
Qed.

Lemma trimLeft_ascii (ps : list (list ascii)) :
  (forall c s,
     isAscii c = true ->
     strings.stripAny ps (c :: s) = if isAsciiSpace c then Some s else None) ->
  strings.stripAny ps [] = None ->
  forall fuel l,
    forallb isAscii l = true -> (length l <= fuel)%nat ->
    strings.trimLeft fuel ps l = dropSpaces l.
Proof.
  intros Hps Hnil. induction fuel as [|fuel IH]; intros l Hl Hlen.
  - destruct l; [done|]. cbn in Hlen. lia.
  - destruct l as [|c l]; cbn [strings.trimLeft dropSpaces].
    + by rewrite Hnil.
    + cbn [forallb] in Hl. apply andb_prop in Hl as [Hc Hl].
      rewrite Hps by done. destruct (isAsciiSpace c); [|done].
      apply IH; [done|]. cbn in Hlen. lia.
Qed.

Lemma dropSpaces_ascii (l : list ascii) :
  forallb isAscii l = true -> forallb isAscii (dropSpaces l) = true.
Proof.
  induction l as [|c l IH]; [done|]. cbn [forallb dropSpaces].
  intros [Hc Hl]%andb_prop. destruct (isAsciiSpace c); [by apply IH|].
  cbn [forallb]. by rewrite Hc, Hl.
Qed.

Lemma dropSpaces_length (l : list ascii) :
  (length (dropSpaces l) <= length l)%nat.
Proof.
  induction l as [|c l IH]; [done|]. cbn [dropSpaces].
  destruct (isAsciiSpace c); cbn [length]; lia.
Qed.

Lemma forallb_reverse (f : ascii -> bool) (l : list ascii) :
  forallb f (reverse l) = forallb f l.
Proof.
  induction l as [|c l IH]; [done|].
  rewrite reverse_cons, forallb_app, IH. cbn [forallb].
  rewrite andb_true_r. apply andb_comm.
Qed.

(** On ASCII text [strings.TrimSpace] drops the ASCII white space at both
    ends. *)
Lemma TrimSpace_ascii (l : list ascii) :
  forallb isAscii l = true ->
  strings.TrimSpace (string_of_list_ascii l)
  = string_of_list_ascii (reverse (dropSpaces (reverse (dropSpaces l)))).
Proof.
  intros Hl. unfold strings.TrimSpace.
  rewrite list_ascii_of_string_of_list_ascii.
  rewrite (trimLeft_ascii strings.spaceRunes); [| |done|done|done].
  2: { intros c s Hc. exact (proj1 (stripAny_ascii c s Hc)). }
  rewrite (trimLeft_ascii (reverse <$> strings.spaceRunes)); [done| |done| |].
  - intros c s Hc. exact (proj2 (stripAny_ascii c s Hc)).
  - rewrite forallb_reverse. by apply dropSpaces_ascii.
  - by rewrite length_reverse.
Qed.

Lemma stripAny_nil : strings.stripAny strings.spaceRunes [] = None.
Proof. reflexivity. Qed.

Lemma fieldsLoop_plain (tok : list ascii) :
  forallb isPlain tok = true ->
  forall cur fuel T,
    (length tok < fuel)%nat ->
    strings.fieldsLoop fuel (tok ++ T) cur
    = strings.fieldsLoop (fuel - length tok) T (reverse tok ++ cur).
Proof.
  induction tok as [|c tok IH]; intros Htok cur fuel T Hfuel.
  - cbn [length app]. by rewrite Nat.sub_0_r.
  - cbn [forallb] in Htok. apply andb_prop in Htok as [Hc Htok].
    unfold isPlain in Hc. apply andb_prop in Hc as [Ha Hs].
    apply negb_true_iff in Hs.
    destruct fuel as [|fuel]; [cbn in Hfuel; lia|].
    cbn [app strings.fieldsLoop length Nat.sub].
    rewrite (proj1 (stripAny_ascii c (tok ++ T) Ha)), Hs.
    rewrite IH by (done || (cbn in Hfuel; lia)).
    by rewrite reverse_cons, <- app_assoc.
Qed.

(** The first field of ASCII text that starts with a run of plain bytes
    ending at the end of the text or at a white-space byte is that run. *)
Lemma Fields_first (tok T : list ascii) :
  tok <> [] -> forallb isPlain tok = true ->
  match T with
  | [] => True
  | ws :: _ => isAscii ws = true /\ isAsciiSpace ws = true
  end ->
  exists more,
    strings.Fields (string_of_list_ascii (tok ++ T))
    = string_of_list_ascii tok :: more.
Proof.
  intros Hne Htok HT. unfold strings.Fields.
  rewrite list_ascii_of_string_of_list_ascii.
  assert (Elen : String.length (string_of_list_ascii (tok ++ T))
                 = length (tok ++ T)).
  { rewrite <- (list_ascii_of_string_of_list_ascii (tok ++ T)) at 2.
    generalize (string_of_list_ascii (tok ++ T)). intros s.
    induction s as [|c s IH]; [done|]. cbn. by rewrite IH. }
  rewrite Elen, length_app.
  rewrite fieldsLoop_plain by (done || lia).
  replace (S (length tok + length T) - length tok)%nat with (S (length T))
    by lia.
  rewrite app_nil_r.
  assert (Hcur : strings.flush (reverse tok) = [tok]).
  { unfold strings.flush. destruct (reverse tok) eqn:E.
    - apply (f_equal reverse) in E. rewrite reverse_involutive in E. done.
    - by rewrite <- E, reverse_involutive. }
  destruct T as [|ws R]; cbn [strings.fieldsLoop].
  - rewrite Hcur. by eexists.
  - destruct HT as [Ha Hs].
    rewrite (proj1 (stripAny_ascii ws R Ha)), Hs, Hcur. by eexists.
Qed.

Lemma dropSpaces_app (A B : list ascii) (ws b : ascii) :
  isAsciiSpace ws = true -> isAsciiSpace b = false ->
  dropSpaces (A ++ ws :: b :: B)
  = match dropSpaces A with
    | [] => b :: B
    | _ => dropSpaces A ++ ws :: b :: B
    end.
Proof.
  intros Hws Hb. induction A as [|a A IH]; cbn [app dropSpaces].
  - by rewrite Hws, Hb.
  - destruct (isAsciiSpace a); [done|]. done.
Qed.

Lemma dropSpaces_blank (l : list ascii) :
  forallb (fun c => isAscii c && isAsciiSpace c) l = true ->
  dropSpaces l = [].
Proof.
  induction l as [|c l IH]; [done|]. cbn [forallb dropSpaces].
  intros [[_ ->]%andb_prop Hl]%andb_prop. by apply IH.
Qed.

Lemma splitLoop_nosep (W : list ascii) :
  forallb (fun c => negb (Ascii.eqb "x" c)) W = true ->
  forall cur fuel rest,
    (length W < fuel)%nat ->
    strings.splitLoop fuel ["x"%char] (W ++ rest) cur
    = strings.splitLoop (fuel - length W) ["x"%char] rest (reverse W ++ cur).
Proof.
  induction W as [|c W IH]; intros HW cur fuel rest Hfuel.
  - cbn [length app]. by rewrite Nat.sub_0_r.
  - cbn [forallb] in HW. apply andb_prop in HW as [Hc HW].
    apply negb_true_iff in Hc.
    destruct fuel as [|fuel]; [cbn in Hfuel; lia|].
    cbn [app strings.splitLoop length Nat.sub strings.stripPrefix].
    rewrite Hc. rewrite IH by (done || (cbn in Hfuel; lia)).
    by rewrite reverse_cons, <- app_assoc.
Qed.

Lemma string_length_list (l : list ascii) :
  String.length (string_of_list_ascii l) = length l.
Proof. induction l as [|c l IH]; [done|]. cbn. by rewrite IH. Qed.

(** Two runs without an [x], joined by one, split into the two runs. *)
Lemma Split_pair (W H : list ascii) :
  forallb (fun c => negb (Ascii.eqb "x" c)) W = true ->
  forallb (fun c => negb (Ascii.eqb "x" c)) H = true ->
  strings.Split (string_of_list_ascii (W ++ "x"%char :: H)) "x"
  = [string_of_list_ascii W; string_of_list_ascii H].
Proof.
  intros HW HH. unfold strings.Split.
  rewrite list_ascii_of_string_of_list_ascii, string_length_list.
  change (list_ascii_of_string "x") with ["x"%char].
  rewrite length_app. cbn [length].
  rewrite splitLoop_nosep by (done || lia).
  replace (S (length W + S (length H)) - length W)%nat
    with (S (S (length H))) by lia.
  assert (Hx : forall k cur,
            strings.splitLoop (S k) ["x"%char] ("x"%char :: H) cur
            = reverse cur :: strings.splitLoop k ["x"%char] H []).
  { intros k cur. cbn [strings.splitLoop strings.stripPrefix].
    by rewrite Ascii.eqb_refl. }
  rewrite Hx, app_nil_r, reverse_involutive.
  pose proof (splitLoop_nosep H HH [] (S (length H)) [] ltac:(lia)) as E.
  rewrite !app_nil_r in E. rewrite E.
  replace (S (length H) - length H)%nat with 1%nat by lia.
  cbn [strings.splitLoop]. by rewrite reverse_involutive.
Qed.

Lemma decimal_facts (c : ascii) :
  isDecimal c = true ->
  isPlain c = true /\ Ascii.eqb "x" c = false /\ strconv.isSign c = false
  /\ Ascii.eqb c "-" = false
  /\ (strings.byte c - 48) mod 256 = strings.byte c - 48
  /\ (9 <? strings.byte c - 48) = false /\ 0 <= strings.byte c - 48.
Proof.
  intros H. destruct c as [b0 b1 b2 b3 b4 b5 b6 b7].
  destruct b0, b1, b2, b3, b4, b5, b6, b7;
    try (vm_compute in H; discriminate H);
    vm_compute; repeat split; discriminate.
Qed.

Lemma atoiLoop_digits (s : string) :
  forall n a,
    forallb isDecimal (list_ascii_of_string s) = true ->
    0 <= a -> 0 <= n < 10 ^ a -> a + Z.of_nat (String.length s) <= 18 ->
    strconv.atoiLoop s n = Some (decimalFrom n (list_ascii_of_string s))
    /\ 0 <= decimalFrom n (list_ascii_of_string s) < 10 ^ 18.
Proof.
  induction s as [|c s IH]; intros n a Hs Ha Hn Hlen;
    cbn [strconv.atoiLoop list_ascii_of_string decimalFrom].
  - split; [done|].
    assert (10 ^ a <= 10 ^ 18) by (apply Z.pow_le_mono_r; lia). lia.
  - cbn [list_ascii_of_string forallb] in Hs.
    apply andb_prop in Hs as [Hc Hs].
    destruct (decimal_facts c Hc) as (_ & _ & _ & _ & Hmod & Hgt & Hge).
    cbv zeta. rewrite Hmod, Hgt.
    assert (Hlt : strings.byte c - 48 <= 9) by (apply Z.ltb_ge in Hgt; lia).
    cbn [String.length] in Hlen.
    assert (Hpow : 10 ^ (a + 1) <= 10 ^ 18) by (apply Z.pow_le_mono_r; lia).
    assert (Hstep : 0 <= 10 * n + (strings.byte c - 48) < 10 ^ (a + 1)).
    { rewrite Z.pow_add_r by lia. lia. }
    change (10 ^ 18) with 1000000000000000000 in Hpow.
    assert (Hw : GoInt.add (GoInt.mul n 10) (strings.byte c - 48)
                 = 10 * n + (strings.byte c - 48)).
    { unfold GoInt.add, GoInt.mul.
      rewrite (wrap_nonneg (n * 10)) by (unfold GoInt.max_int; lia).
      rewrite wrap_nonneg by (unfold GoInt.max_int; lia). lia. }
    rewrite Hw. apply (IH _ (a + 1)); [done|lia|done|lia].
Qed.

(** [strconv.Atoi] reads one to eighteen decimal digits as their number. *)
Lemma Atoi_decimal (s : string) :
  decimalText s = true -> strconv.Atoi s = inl (decimalValue s).
Proof.
  unfold decimalText. intros [[H1 H2]%andb_prop Hd]%andb_prop.
  apply Nat.leb_le in H1, H2. unfold strconv.Atoi.
  destruct (Z.ltb_spec 0 (Z.of_nat (String.length s))); [|lia].
  destruct (Z.ltb_spec (Z.of_nat (String.length s)) 19); [|lia].
  cbn [andb]. destruct s as [|c s]; [cbn in H1; lia|].
  pose proof Hd as Hd'. cbn [list_ascii_of_string forallb] in Hd'.
  apply andb_prop in Hd' as [Hc _].
  destruct (decimal_facts c Hc) as (_ & _ & -> & -> & _).
  destruct (Nat.ltb_spec (String.length (String c s)) 1); [lia|].
  destruct (atoiLoop_digits (String c s) 0 0 Hd) as [-> _]; [lia|lia|lia|].
  done.
Qed.

Lemma string_app_list (a b : string) :
  (a +:+ b)%string
  = string_of_list_ascii (list_ascii_of_string a ++ list_ascii_of_string b).
Proof.
  induction a as [|c a IH]; cbn.
  - by rewrite string_of_list_ascii_of_string.
  - by rewrite <- IH.
Qed.

Lemma forallb_impl (f g : ascii -> bool) (l : list ascii) :
  (forall c, f c = true -> g c = true) ->
  forallb f l = true -> forallb g l = true.
Proof.
  intros Hfg. induction l as [|c l IH]; [done|]. cbn [forallb].
  intros [Hc Hl]%andb_prop. by rewrite (Hfg c Hc), IH.
Qed.

(** What [strings.TrimSpace] leaves of ASCII text that starts with a run of
    plain bytes followed by a line feed: the run, then nothing or the line
    feed and more. *)
Lemma TrimSpace_first_line (tok R : list ascii) :
  tok <> [] -> forallb isPlain tok = true -> forallb isAscii R = true ->
  exists T,
    strings.TrimSpace (string_of_list_ascii (tok ++ "010"%char :: R))
    = string_of_list_ascii (tok ++ T)
    /\ match T with
       | [] => True
       | ws :: _ => isAscii ws = true /\ isAsciiSpace ws = true
       end.
Proof.
  intros Hne Htok HR.
  assert (Hta : forallb isAscii tok = true).
  { revert Htok. apply forallb_impl. intros c. unfold isPlain.
    by intros [? _]%andb_prop. }
  rewrite TrimSpace_ascii.
  2: { rewrite forallb_app. cbn [forallb]. by rewrite Hta, HR. }
  assert (E1 : dropSpaces (tok ++ "010"%char :: R) = tok ++ "010"%char :: R).
  { destruct tok as [|c tok]; [done|]. cbn [app dropSpaces].
    cbn [forallb] in Htok. apply andb_prop in Htok as [Hc _].
    unfold isPlain in Hc. apply andb_prop in Hc as [_ Hs].
    apply negb_true_iff in Hs. by rewrite Hs. }
  rewrite E1, reverse_app, reverse_cons, <- app_assoc. cbn [app].
  destruct (reverse tok) as [|b B] eqn:Erev.
  { apply (f_equal reverse) in Erev. by rewrite reverse_involutive in Erev. }
  assert (Hb : isAsciiSpace b = false).
  { assert (Hp : forallb isPlain (reverse tok) = true)
      by (by rewrite forallb_reverse).
    rewrite Erev in Hp. cbn [forallb] in Hp. apply andb_prop in Hp as [Hp _].
    unfold isPlain in Hp. apply andb_prop in Hp as [_ Hs].
    by apply negb_true_iff in Hs. }
  rewrite dropSpaces_app by done.
  assert (Etok : reverse (b :: B) = tok).
  { by rewrite <- Erev, reverse_involutive. }
  destruct (dropSpaces (reverse R)) as [|x X] eqn:EX.
  - exists []. by rewrite Etok, app_nil_r.
  - exists ("010"%char :: reverse (x :: X)). split; [|done].
    rewrite reverse_app, (reverse_cons (b :: B) "010"%char), Etok.
    by rewrite <- app_assoc.
Qed.

Section ProbeFacts.

Variable commandOutput : string -> list string -> option string.

(** X16. When [ffprobe] prints the resolution as two runs of one to eighteen
    decimal digits joined by [x] and followed by a line feed,
    [probeResolution] returns the two numbers, whatever ASCII text follows
    on further lines: only the first field of the output is read. *)
Theorem probeResolution_first_line (path w h rest : string) :
  decimalText w = true -> decimalText h = true -> asciiText rest = true ->
  commandOutput "ffprobe"
    ["-v"; "error"; "-select_streams"; "v:0"; "-show_entries";
     "stream=width,height"; "-of"; "csv=s=x:p=0"; path]%string
  = Some (w +:+ "x" +:+ h +:+ lineFeed +:+ rest)%string ->
  probeResolution commandOutput path = inl (decimalValue w, decimalValue h).
Proof.
  intros Hw Hh Hrest Hout. unfold probeResolution. rewrite Hout.
  set (W := list_ascii_of_string w). set (H := list_ascii_of_string h).
  set (R := list_ascii_of_string rest).
  assert (HWd : forallb isDecimal W = true).
  { unfold decimalText in Hw. by apply andb_prop in Hw as [_ ?]. }
  assert (HHd : forallb isDecimal H = true).
  { unfold decimalText in Hh. by apply andb_prop in Hh as [_ ?]. }
  assert (HWne : W <> []).
  { unfold decimalText in Hw. apply andb_prop in Hw as [[Hl _]%andb_prop _].
    apply Nat.leb_le in Hl. unfold W. destruct w; [cbn in Hl; lia|done]. }
  assert (Eout : (w +:+ "x" +:+ h +:+ lineFeed +:+ rest)%string
                 = string_of_list_ascii
                     ((W ++ "x"%char :: H) ++ "010"%char :: R)).
  { rewrite !string_app_list, !list_ascii_of_string_of_list_ascii.
    fold W H R. cbn [list_ascii_of_string lineFeed app].
    by rewrite <- app_assoc. }
  assert (Hplain : forallb isPlain (W ++ "x"%char :: H) = true).
  { rewrite forallb_app. cbn [forallb].
    rewrite (forallb_impl isDecimal isPlain W), (forallb_impl isDecimal isPlain H);
      [done|intros c Hc; by apply decimal_facts|done
      |intros c Hc; by apply decimal_facts|done]. }
  assert (Hnox : forall l,
            forallb isDecimal l = true ->
            forallb (fun c => negb (Ascii.eqb "x" c)) l = true).
  { intros l. apply forallb_impl. intros c Hc.
    destruct (decimal_facts c Hc) as (_ & -> & _). done. }
  unfold parseResolution. rewrite Eout.
  destruct (TrimSpace_first_line (W ++ "x"%char :: H) R)
    as (T & -> & HT); [by destruct W|done|done|].
  destruct (Fields_first (W ++ "x"%char :: H) T) as (more & ->);
    [by destruct W|done|done|].
  rewrite Split_pair by (by apply Hnox).
  unfold W, H. rewrite !string_of_list_ascii_of_string.
  by rewrite !Atoi_decimal.
Qed.

(** X17. When [ffprobe] prints nothing but ASCII white space,
    [probeResolution] fails with the empty-output error. *)
Theorem probeResolution_blank (path output : string) :
  blankText output = true ->
  commandOutput "ffprobe"
    ["-v"; "error"; "-select_streams"; "v:0"; "-show_entries";
     "stream=width,height"; "-of"; "csv=s=x:p=0"; path]%string
  = Some output ->
  probeResolution commandOutput path = inr ErrResolutionEmpty.
Proof.
  intros Hb Hout. unfold probeResolution, parseResolution. rewrite Hout.
  rewrite <- (string_of_list_ascii_of_string output).
  unfold blankText in Hb.
  rewrite TrimSpace_ascii.
  - rewrite (dropSpaces_blank (list_ascii_of_string output)) by done.
    reflexivity.
  - revert Hb. apply forallb_impl. intros c. by intros [? _]%andb_prop.
Qed.

End ProbeFacts.

Lemma probeResolution_first_line_witness :
  probeResolution sampleCommandOutput "in.mp4" = inl (640, 360).
Proof.
  apply (probeResolution_first_line sampleCommandOutput "in.mp4"
           "640" "360" ""); reflexivity.
Defined.

Lemma probeResolution_blank_witness :
  probeResolution blankCommandOutput "in.mp4" = inr ErrResolutionEmpty.
Proof.
  apply (probeResolution_blank blankCommandOutput "in.mp4" lineFeed);
    reflexivity.
Defined.

(** ** Compositing *)

Lemma over_opaque (d s : color.RGBA) :
  byteColor s -> color.A s = 255 -> draw.compose draw.Over d s = s.
Proof.
  destruct s as [r g b a]. unfold byteColor. cbn [color.R color.G color.B color.A].
  intros (Hr & Hg & Hb & _) ->. unfold draw.compose, draw.overChannel.
  cbn [color.R color.G color.B color.A].
  change ((65535 - 255 * 257) * 257) with 0. rewrite !Z.mul_0_r.
  change (0 / 65535) with 0. rewrite !Z.add_0_l.
  assert (E : forall v, 0 <= v <= 255 -> (v * 257 / 256) mod 256 = v).
  { intros v Hv. assert (v * 257 / 256 = v) as ->.
    { symmetry. apply (Z.div_unique _ _ _ v); lia. }
    apply Z.mod_small. lia. }
  rewrite !E by lia. done.
Qed.

Lemma over_transparent (d : color.RGBA) :
  byteColor d -> draw.compose draw.Over d color.zero = d.
Proof.
  destruct d as [r g b a]. unfold byteColor. cbn [color.R color.G color.B color.A].
  intros (Hr & Hg & Hb & Ha). unfold draw.compose, draw.overChannel.
  cbn [color.R color.G color.B color.A color.zero].
  change ((65535 - 0 * 257) * 257) with (257 * 65535).
  change (0 * 257) with 0.
  assert (E : forall v,
            0 <= v <= 255 -> ((v * (257 * 65535) / 65535 + 0) / 256) mod 256 = v).
  { intros v Hv. rewrite Z.mul_assoc, Z.div_mul, Z.add_0_r by lia.
    assert (v * 257 / 256 = v) as ->.
    { symmetry. apply (Z.div_unique _ _ _ v); lia. }
    apply Z.mod_small. lia. }
  rewrite !E by lia. done.
Qed.

(** X18. Under the conditions of the layout (a canvas of at most 10^9
    pixels a side, [rows * cols] entries, frames no larger than the cell),
    compositing keeps what an opaque frame shows and hides what a transparent
    one does not: where a placed frame has an opaque pixel the canvas has
    exactly that pixel, and where it has a fully transparent one the canvas
    keeps the background colour. *)
Theorem composeGrid_opaque_frames (cfg : gridConfig)
    (frames : list (option image.RGBA)) :
  0 < rows cfg <= GoInt.max_int -> 0 < cols cfg -> 0 < cellWidth cfg ->
  0 <= cellHeight cfg -> 0 <= margin cfg ->
  canvasWidth cfg <= 1000000000 -> canvasHeight cfg <= 1000000000 ->
  Z.of_nat (length frames) = rows cfg * cols cfg ->
  Forall (fitsCell cfg) frames ->
  byteColor (background cfg) ->
  exists canvas,
    composeGrid frames cfg = Some canvas
    /\ forall (i : nat) f x y,
         frames !! i = Some (Some f) ->
         image.In x y (placedRect cfg (Z.of_nat i) f) = true ->
         let s := framePixel cfg (Z.of_nat i) f x y in
         (byteColor s -> color.A s = 255 -> image.At canvas x y = s)
         /\ (s = color.zero -> image.At canvas x y = background cfg).
Proof.
  intros [Hrows Hrmax] Hcols Hcw Hch Hm Hw Hh Hlen Hfit Hbg.
  assert (Hw0 : 0 <= canvasWidth cfg) by (unfold canvasWidth; nia).
  assert (Hh0 : 0 <= canvasHeight cfg) by (unfold canvasHeight; nia).
  assert (HW : canvasWidth cfg <= GoInt.max_int) by (unfold GoInt.max_int; lia).
  assert (HH : canvasHeight cfg <= GoInt.max_int)
    by (unfold GoInt.max_int; lia).
  assert (Hnw : forall z, 0 <= z <= 2000000000 -> GoInt.wrap z = z).
  { intros z Hz. apply wrap_nonneg. unfold GoInt.max_int. lia. }
  unfold composeGrid.
  assert (EW : GoInt.add (GoInt.mul (cols cfg) (cellWidth cfg))
                 (GoInt.mul (GoInt.add (cols cfg) 1) (margin cfg))
               = canvasWidth cfg).
  { unfold GoInt.add, GoInt.mul, canvasWidth in *.
    rewrite (Hnw (cols cfg + 1)) by nia.
    rewrite (Hnw (cols cfg * _)), (Hnw ((cols cfg + 1) * _)) by nia.
    apply Hnw. nia. }
  assert (EH : GoInt.add (GoInt.mul (rows cfg) (cellHeight cfg))
                 (GoInt.mul (GoInt.add (rows cfg) 1) (margin cfg))
               = canvasHeight cfg).
  { unfold GoInt.add, GoInt.mul, canvasHeight in *.
    assert (E1 : GoInt.wrap (rows cfg + 1) = rows cfg + 1 \/ margin cfg = 0).
    { destruct (decide (margin cfg = 0)); [by right|left].
      apply Hnw. nia. }
    assert (E2 : GoInt.wrap (rows cfg + 1) * margin cfg
                 = (rows cfg + 1) * margin cfg).
    { destruct E1 as [->| ->]; lia. }
    rewrite E2. rewrite (Hnw (rows cfg * _)), (Hnw ((rows cfg + 1) * _)) by nia.
    apply Hnw. nia. }
  rewrite EW, EH.
  set (rect := image.mkRectangle (image.mkPoint 0 0)
                 (image.mkPoint (canvasWidth cfg) (canvasHeight cfg))).
  assert (ER : image.Rect 0 0 (canvasWidth cfg) (canvasHeight cfg) = rect).
  { unfold image.Rect.
    destruct (Z.ltb_spec (canvasWidth cfg) 0); [lia|].
    destruct (Z.ltb_spec (canvasHeight cfg) 0); [lia|]. done. }
  rewrite ER.
  assert (EN : image.NewRGBA rect
               = Some (image.mkRGBA (fun _ _ => color.zero) rect)).
  { unfold image.NewRGBA, image.mul3NonNeg, image.Dx, image.Dy, GoInt.sub.
    simpl. rewrite !Z.sub_0_r, !Hnw by lia.
    destruct (Z.ltb_spec (canvasWidth cfg) 0); [lia|].
    destruct (Z.ltb_spec (canvasHeight cfg) 0); [lia|]. simpl.
    destruct (Z.leb_spec (2 ^ 64) (4 * canvasWidth cfg)); [lia|].
    destruct (Z.leb_spec (2 ^ 63)
                (4 * canvasWidth cfg * canvasHeight cfg)); [nia|].
    destruct (Z.ltb_spec (4 * canvasWidth cfg * canvasHeight cfg) 0);
      [nia|done]. }
  rewrite EN. cbn [mbind option_bind].
  set (c0 := draw.Draw _ _ _ _ _).
  destruct (composeLoop_spec cfg ltac:(lia) Hcols Hcw Hch Hm HW HH Hrmax
              frames 0 c0) as (c & Hc & Hb & Hout & Hin);
    [lia|lia|done|by unfold c0; rewrite Draw_Bounds|].
  change (image.Bounds c = rect) in Hb.
  assert (Hc0 : forall x y,
            image.In x y rect = true -> image.Pix c0 x y = background cfg).
  { intros x y Hxy. unfold c0. by apply initial_fill. }
  exists c. split; [done|].
  intros i f x y Hi Hx. cbv zeta.
  set (s := framePixel cfg (Z.of_nat i) f x y).
  assert (Hf : fitsCell cfg (Some f)).
  { eapply Forall_lookup_1 in Hfit; [|exact Hi]. done. }
  pose proof (lookup_lt_Some _ _ _ Hi) as Hlt.
  assert (Hxy : image.In x y rect = true).
  { apply (cell_in_canvasRect cfg ltac:(lia) Hcols Hcw Hch Hm
             (Z.of_nat i)); [lia|].
    eapply placed_in_cell; eauto; lia. }
  assert (Hat : image.At c x y = draw.compose draw.Over (background cfg) s).
  { unfold image.At. rewrite Hb, Hxy.
    specialize (Hin i f x y Hi). rewrite Z.add_0_l in Hin.
    rewrite Hin by done. by rewrite Hc0. }
  rewrite Hat. split.
  - intros Hs Ha. by apply over_opaque.
  - intros ->. by apply over_transparent.
Qed.

Lemma composeGrid_opaque_frames_witness :
  exists canvas,
    composeGrid [Some smallFrame; None] smallConfig = Some canvas
    /\ image.At canvas 1 1 = color.mkRGBA 200 100 50 255
    /\ image.At canvas 1 2 = color.mkRGBA 200 100 50 255.
Proof.
  destruct (composeGrid_opaque_frames smallConfig [Some smallFrame; None])
    as (canvas & Hc & Hpix).
  - vm_compute. done.
  - reflexivity.
  - reflexivity.
  - discriminate.
  - discriminate.
  - discriminate.
  - discriminate.
  - reflexivity.
  - repeat constructor; vm_compute; discriminate.
  - vm_compute. repeat split; discriminate.
  - exists canvas. split; [exact Hc|]. split.
    + apply (Hpix O smallFrame 1 1 eq_refl eq_refl);
        [vm_compute; repeat split; discriminate|reflexivity].
    + apply (Hpix O smallFrame 1 2 eq_refl eq_refl);
        [vm_compute; repeat split; discriminate|reflexivity].
Defined.

(** ** A duration that is not a number *)

Lemma nan_div (y : float) : (nan / y)%float = nan.
Proof.
  apply FloatAxioms.Prim2SF_inj. rewrite FloatAxioms.div_spec.
  change (Prim2SF nan) with S754_nan. reflexivity.
Qed.

Lemma nan_mul (y : float) : (nan * y)%float = nan.
Proof.
  apply FloatAxioms.Prim2SF_inj. rewrite FloatAxioms.mul_spec.
  change (Prim2SF nan) with S754_nan. reflexivity.
Qed.

Section ProbeVideoFacts.

Variable commandOutput : string -> list string -> option string.
Variable ParseFloat : string -> float + strconv.NumError.

(** X19. The check [duration <= 0] of [probeVideo] lets a NaN through: when
    the duration parses as NaN and the resolution is read, [probeVideo]
    succeeds with that duration, and every timestamp then sampled from it
    is NaN. *)
Theorem probeVideo_accepts_nan (path : string) (w h : Z) :
  probeDuration commandOutput ParseFloat path = inl nan ->
  probeResolution commandOutput path = inl (w, h) ->
  probeVideo commandOutput ParseFloat path = inl (mkVideoMetadata nan w h)
  /\ forall count,
       count < GoInt.max_int ->
       Forall (fun t => t = nan) (sampleTimestamps nan count).
Proof.
  intros Hd Hr. split.
  - unfold probeVideo. by rewrite Hd, Hr.
  - intros count Hc. destruct (Z.le_gt_cases count 0) as [H0|H0].
    { unfold sampleTimestamps. destruct (Z.leb_spec count 0); [|lia].
      constructor. }
    destruct (Z.eq_dec count 1) as [->|H1].
    { repeat constructor. }
    rewrite sampleTimestamps_map by lia.
    apply Forall_fmap, Forall_forall. intros k _. cbn.
    by rewrite nan_div, nan_mul.
Qed.

End ProbeVideoFacts.

Lemma probeVideo_accepts_nan_witness :
  probeVideo sampleCommandOutput nanParseFloat "in.mp4"
  = inl (mkVideoMetadata nan 640 360)
  /\ Forall (fun t => t = nan) (sampleTimestamps nan 9).
Proof.
  destruct (probeVideo_accepts_nan sampleCommandOutput nanParseFloat
              "in.mp4" 640 360) as [H1 H2].
  - reflexivity.
  - reflexivity.
  - split; [exact H1|]. apply H2. reflexivity.
Defined.

(** ** A frame in its inferred cell *)

(** A box with the source's own aspect ratio is filled on both axes. *)
Lemma fitSize_same_ratio (w h maxW maxH : Z) :
  0 < w < 2 ^ 31 -> 0 < h < 2 ^ 31 ->
  0 < maxW < 2 ^ 31 -> 0 < maxH < 2 ^ 31 ->
  maxW * h = maxH * w ->
  fitSize w h maxW maxH = (maxW, maxH).
Proof.
  intros Hw Hh HmW HmH Hratio.
  destruct (fitSize_spec w h maxW maxH Hw Hh HmW HmH) as (Efit & _).
  rewrite Efit.
  destruct (ratio_bounds maxW w HmW Hw) as (m1 & e1 & Hn1 & Hb1 & Hl1).
  destruct (ratio_bounds maxH h HmH Hh) as (m2 & e2 & Hn2 & Hb2 & Hl2).
  set (sw := (F64.of_int maxW / F64.of_int w)%float) in *.
  set (sh := (F64.of_int maxH / F64.of_int h)%float) in *.
  destruct (Min_normal sw sh _ _ _ _ Hn1 Hn2) as [Emin Ermin].
  set (scale := F64.Min sw sh) in *.
  assert (exists m e, normal scale m e) as (ms & es & Hns).
  { rewrite Emin. destruct (sw <? sh)%float; eauto. }
  assert (Hlo : (bpow (-40) <= B2R scale)%R).
  { rewrite Ermin. by apply Rmin_glb. }
  assert (Hw1 : (0 < IZR w)%R) by (apply IZR_lt; lia).
  assert (Hh1 : (0 < IZR h)%R) by (apply IZR_lt; lia).
  assert (Er : (IZR maxW / IZR w = IZR maxH / IZR h)%R).
  { apply (f_equal IZR) in Hratio. rewrite !mult_IZR in Hratio.
    apply (Rmult_eq_reg_r (IZR w * IZR h)); [|nra]. field_simplify; lra. }
  pose proof (bpow_pos (-53)) as Hu0.
  assert (Hs : (IZR maxW / IZR w * (1 - bpow (-53)) <= B2R scale
                <= IZR maxW / IZR w * (1 + bpow (-53)))%R).
  { rewrite Ermin. unfold Rmin.
    destruct (Rle_dec (B2R sw) (B2R sh)); [lra|]. rewrite Er. lra. }
  destruct (scaled_dim w maxW scale ms es Hw HmW Hns Hlo) as [_ HWeq];
    [lra|].
  destruct (scaled_dim h maxH scale ms es Hh HmH Hns Hlo) as [_ HHeq];
    [rewrite <- Er; lra|].
  cbv zeta in HWeq, HHeq. rewrite HWeq by lra.
  rewrite HHeq by (rewrite <- Er; lra).
  f_equal; lia.
Qed.

Section InferredCell.

Variable approxBiLinear :
  image.RGBA -> image.Rectangle -> image.Rectangle -> Z -> Z -> color.RGBA.

(** X21. With the cell height inferred from the source resolution, a frame
    of that resolution fills its cell exactly whenever the source width
    divides [cellWidth * videoHeight], for a cell width and source sides
    below 2^24 and an inferred height [cellWidth * videoHeight / videoWidth]
    below 2^30: [scaleToFit] returns a bitmap of the cell's width and of the
    inferred height. *)
Theorem scaleToFit_fills_inferred_cell (img : image.RGBA) (cw : Z) :
  let vw := frameWidth img in
  let vh := frameHeight img in
  0 < cw < 2 ^ 24 -> 0 < vw < 2 ^ 24 -> 0 < vh < 2 ^ 24 ->
  (cw * vh) mod vw = 0 -> cw * vh / vw < 2 ^ 30 ->
  exists dst,
    scaleToFit approxBiLinear img cw (inferCellHeight cw vw vh) = Some dst
    /\ frameWidth dst = cw
    /\ frameHeight dst = inferCellHeight cw vw vh.
Proof.
  intros vw vh Hcw Hvw Hvh Hdiv Hlt.
  rewrite (inferCellHeight_divisible cw vw vh) by done.
  pose proof (Z.div_mod (cw * vh) vw ltac:(lia)) as Hq.
  rewrite Hdiv, Z.add_0_r in Hq. set (ch := cw * vh / vw) in *.
  assert (Hch : 0 < ch) by nia.
  rewrite (scaleToFit_alloc approxBiLinear img cw ch cw ch);
    fold vw vh; try lia.
  - eexists. split; [reflexivity|]. unfold frameWidth, frameHeight.
    rewrite Scale_Bounds. cbn. lia.
  - apply fitSize_same_ratio; lia.
Qed.

End InferredCell.

Lemma scaleToFit_fills_inferred_cell_witness :
  exists dst,
    scaleToFit sampleKernel sampleFrame 320 (inferCellHeight 320 640 360)
    = Some dst
    /\ frameWidth dst = 320 /\ frameHeight dst = inferCellHeight 320 640 360.
Proof.
  assert (H1 : 0 < 320 < 2 ^ 24) by done.
  assert (H2 : 0 < frameWidth sampleFrame < 2 ^ 24) by (vm_compute; done).
  assert (H3 : 0 < frameHeight sampleFrame < 2 ^ 24) by (vm_compute; done).
  assert (H4 : (320 * frameHeight sampleFrame) mod frameWidth sampleFrame = 0)
    by reflexivity.
  assert (H5 : 320 * frameHeight sampleFrame / frameWidth sampleFrame < 2 ^ 30)
    by reflexivity.
  exact (scaleToFit_fills_inferred_cell sampleKernel sampleFrame 320
           H1 H2 H3 H4 H5).
Defined.

(** ** A capture that fails *)

Section CaptureFailure.

Variable lookPath : string -> bool.
Variable commandOutput : string -> list string -> option string.
Variable ParseFloat : string -> float + strconv.NumError.
Variable formatTimestamp : float -> string.
Variable ffmpegPipe : list string -> option (string * bool).
Variable pngDecode : string -> option image.RGBA.
Variable approxBiLinear :
  image.RGBA -> image.Rectangle -> image.Rectangle -> Z -> Z -> color.RGBA.
Variable pngEncode : image.RGBA -> string * option error.
Variable jpegEncode : image.RGBA -> Z -> string * option error.

Lemma captureLoop_fails (cfg : gridConfig) (pre : list float) (ts : float)
    (post : list float) (e : captureError) :
  - 2 ^ 30 < cellWidth cfg < 2 ^ 30 -> - 2 ^ 30 < cellHeight cfg < 2 ^ 30 ->
  (forall t,
     t ∈ pre ->
     exists f,
       captureFrame formatTimestamp ffmpegPipe pngDecode (input cfg) t = inl f
       /\ 0 < frameWidth f < 2 ^ 30 /\ 0 < frameHeight f < 2 ^ 30) ->
  captureFrame formatTimestamp ffmpegPipe pngDecode (input cfg) ts = inr e ->
  forall i frames,
    0 <= i -> (Z.to_nat i + length pre <= length frames)%nat ->
    captureLoop formatTimestamp ffmpegPipe pngDecode approxBiLinear cfg
      (pre ++ ts :: post) i frames
    = inr (ExitCapture (i + Z.of_nat (length pre) + 1) e).
Proof.
  intros Hcw Hch. induction pre as [|t pre IH];
    intros Hpre Hts i frames Hi Hlen; cbn [app captureLoop length].
  - rewrite Hts. do 2 f_equal. lia.
  - destruct (Hpre t) as (f & -> & Hfw & Hfh); [by left|].
    destruct (scaleToFit_total approxBiLinear f (cellWidth cfg)
                (cellHeight cfg)) as (dst & ->); [done..|].
    cbn [length] in Hlen.
    destruct (Nat.ltb_spec (Z.to_nat i) (length frames)); [|lia].
    rewrite IH.
    + do 2 f_equal. lia.
    + intros t' Ht'. apply Hpre. by right.
    + done.
    + lia.
    + rewrite length_insert. lia.
Qed.

(** X22. When the captures before position [k] succeed with frames below
    2^30 pixels a side and the one at position [k] fails, [main] ends with
    that capture's error and the one-based number [k + 1] of the frame, and
    with the file system as it was, whatever the captures of the later
    timestamps would give: for a grid of at most 2^31 cells and a cell box
    within 2^30. *)
Theorem main_capture_failure (fl : flagValues) (fs : os.FS)
    (cfg0 : gridConfig) (meta : videoMetadata) (k : nat) (ts : float)
    (e : captureError) :
  parseFlags fl = inl cfg0 ->
  ensureExecutables lookPath = None ->
  probeVideo commandOutput ParseFloat (input cfg0) = inl meta ->
  let cfg := withCellHeight cfg0 meta in
  let timestamps :=
    sampleTimestamps (duration meta) (rows cfg * cols cfg) in
  rows cfg * cols cfg <= 2 ^ 31 ->
  cellWidth cfg < 2 ^ 30 -> - 2 ^ 30 < cellHeight cfg < 2 ^ 30 ->
  timestamps !! k = Some ts ->
  (forall (j : nat) t,
     (j < k)%nat -> timestamps !! j = Some t ->
     exists f,
       captureFrame formatTimestamp ffmpegPipe pngDecode (input cfg) t = inl f
       /\ 0 < frameWidth f < 2 ^ 30 /\ 0 < frameHeight f < 2 ^ 30) ->
  captureFrame formatTimestamp ffmpegPipe pngDecode (input cfg) ts = inr e ->
  main lookPath commandOutput ParseFloat formatTimestamp ffmpegPipe
    pngDecode approxBiLinear pngEncode jpegEncode fl fs
  = (fs, ExitCapture (Z.of_nat k + 1) e).
Proof.
  intros Hflags Hexe Hprobe cfg timestamps Hcells Hcw Hch Hk Hpre Hts.
  destruct (parseFlags_inv fl cfg0 Hflags) as (Hr & Hc & Hw & Hm).
  assert (Erows : rows cfg = rows cfg0)
    by (unfold cfg, withCellHeight; by destruct (_ =? 0)).
  assert (Ecols : cols cfg = cols cfg0)
    by (unfold cfg, withCellHeight; by destruct (_ =? 0)).
  assert (Ecw : cellWidth cfg = cellWidth cfg0)
    by (unfold cfg, withCellHeight; by destruct (_ =? 0)).
  assert (Etotal : GoInt.mul (rows cfg) (cols cfg) = rows cfg * cols cfg).
  { apply wrap_nonneg. unfold GoInt.max_int. nia. }
  assert (Hlen : length timestamps = Z.to_nat (rows cfg * cols cfg)).
  { apply sampleTimestamps_len. unfold GoInt.max_int. lia. }
  pose proof (lookup_lt_Some _ _ _ Hk) as Hklt.
  unfold main. rewrite Hflags, Hexe, Hprobe. fold cfg. cbv zeta.
  rewrite Etotal. fold timestamps.
  destruct (Z.ltb_spec (rows cfg * cols cfg) 0); [nia|].
  rewrite <- (take_drop_middle timestamps k ts Hk).
  rewrite (captureLoop_fails cfg (take k timestamps) ts
             (drop (S k) timestamps) e); try done; try lia.
  - rewrite length_take. do 3 f_equal. lia.
  - intros t Ht. apply list_elem_of_lookup in Ht as [j Hj].
    pose proof (lookup_lt_Some _ _ _ Hj) as Hjlt.
    rewrite length_take in Hjlt.
    rewrite lookup_take_lt in Hj by lia. apply (Hpre j t); [lia|done].
  - rewrite length_take, length_replicate. lia.
Qed.

End CaptureFailure.

Lemma main_capture_failure_witness :
  main sampleLookPath sampleCommandOutput sampleParseFloat
    stagedFormatTimestamp stagedFfmpegPipe samplePngDecode sampleKernel
    samplePng sampleJpeg sampleFlags ∅
  = (∅, ExitCapture 2 ErrStart).
Proof.
  set (cfg0 := mkGridConfig "in.mp4" "preview.png" 1 2 4 0 1 90
                 (color.mkRGBA 255 255 255 255)).
  set (meta := mkVideoMetadata 0x1.9p+3%float 640 360).
  assert (H1 : parseFlags sampleFlags = inl cfg0) by reflexivity.
  assert (H2 : ensureExecutables sampleLookPath = None) by reflexivity.
  assert (H3 : probeVideo sampleCommandOutput sampleParseFloat (input cfg0)
               = inl meta) by (vm_compute; reflexivity).
  assert (H4 : rows (withCellHeight cfg0 meta) * cols (withCellHeight cfg0 meta)
               <= 2 ^ 31) by (vm_compute; discriminate).
  assert (H5 : cellWidth (withCellHeight cfg0 meta) < 2 ^ 30)
    by (vm_compute; reflexivity).
  assert (H6 : - 2 ^ 30 < cellHeight (withCellHeight cfg0 meta) < 2 ^ 30)
    by (vm_compute; split; reflexivity).
  assert (H7 : sampleTimestamps (duration meta)
                 (rows (withCellHeight cfg0 meta)
                  * cols (withCellHeight cfg0 meta)) !! 1%nat
               = Some (0x1.9p+3 / 3 * 2)%float) by (vm_compute; reflexivity).
  assert (H8 : forall (j : nat) t,
            (j < 1)%nat ->
            sampleTimestamps (duration meta)
              (rows (withCellHeight cfg0 meta)
               * cols (withCellHeight cfg0 meta)) !! j = Some t ->
            exists f,
              captureFrame stagedFormatTimestamp stagedFfmpegPipe
                samplePngDecode (input (withCellHeight cfg0 meta)) t = inl f
              /\ 0 < frameWidth f < 2 ^ 30 /\ 0 < frameHeight f < 2 ^ 30).
  { intros j t Hj Ht. assert (j = 0%nat) as -> by lia.
    assert (Et : t = (0x1.9p+3 / 3 * 1)%float).
    { vm_compute in Ht. injection Ht as <-. vm_compute. reflexivity. }
    rewrite Et. eexists. split; [vm_compute; reflexivity|].
    vm_compute. repeat split; reflexivity. }
  assert (H9 : captureFrame stagedFormatTimestamp stagedFfmpegPipe
                 samplePngDecode (input (withCellHeight cfg0 meta))
                 (0x1.9p+3 / 3 * 2)%float = inr ErrStart)
    by (vm_compute; reflexivity).
  exact (main_capture_failure sampleLookPath sampleCommandOutput
           sampleParseFloat stagedFormatTimestamp stagedFfmpegPipe
           samplePngDecode sampleKernel samplePng sampleJpeg sampleFlags ∅
           cfg0 meta 1%nat _ ErrStart H1 H2 H3 H4 H5 H6 H7 H8 H9).
Defined.
